(** * Statera: a shallow embedding of the load balancer's core

    The development follows the Go sources package by package:
    - [GoInt]      : Go's 64-bit [int] arithmetic with its wrap-around;
    - [Router]     : lb/router/router.go, node keys and nodes;
    - [RR], [WRR]  : lb/router/algo/rr.go (round-robin, weighted round-robin);
    - [LC]         : lb/router/algo/lc.go (least connections) with the
                     [container/heap] functions it calls;
    - [Group]      : lb/router/router.go, node groups and health checks;
    - [Lb]         : lb/lb.go, from the configuration to the node group;
    - [Evaluator]  : lb/evaluator (conditions, rules, rule matching, the
                     handler);
    - [Mux]        : lb/mux.go, the chain of handlers;
    - [Routing]    : lb/router/router.go, the router and its handler;
    - [Server]     : lb/server/server.go and the listener set-up of
                     lb/lb.go.

    Go pointers are modelled by addresses ([nat]); a [*list.Element] of a
    [container/list] is modelled by its position in the list.  Code that
    may panic returns a [res]. *)

From Stdlib Require Import ZArith Ascii String List Sorted Permutation Lia.
From stdpp Require Import base decidable option list gmap strings pretty sorting.

Open Scope Z_scope.

(* ================================================================== *)
(** * Go integers *)
(* ================================================================== *)

Module GoInt.

(** Go's [int] on the 64-bit targets: two's complement, wrapping. *)
Definition wrap64 (z : Z) : Z := (z + 2 ^ 63) `mod` 2 ^ 64 - 2 ^ 63.

Definition is_int (z : Z) : Prop := - 2 ^ 63 ≤ z < 2 ^ 63.

#[global] Instance is_int_dec z : Decision (is_int z).
Proof. unfold is_int. apply _. Defined.

Lemma wrap64_id z : is_int z → wrap64 z = z.
Proof.
  unfold is_int, wrap64. intros Hz.
  rewrite Z.mod_small by lia. lia.
Qed.

Lemma wrap64_is_int z : is_int (wrap64 z).
Proof.
  unfold is_int, wrap64.
  pose proof (Z.mod_pos_bound (z + 2 ^ 63) (2 ^ 64) ltac:(lia)). lia.
Qed.

End GoInt.

(* ================================================================== *)
(** * lb/router: nodes and keys *)
(* ================================================================== *)

Module Router.

(** [type NodeKey struct { Host string; Port uint16 }] *)
Record NodeKey := mkNodeKey { Host : string; Port : N }.

#[global] Instance NodeKey_eq_dec : EqDecision NodeKey.
Proof. solve_decision. Defined.

#[global] Instance NodeKey_countable : Countable NodeKey.
Proof.
  refine (inj_countable' (λ k, (Host k, Port k))
                         (λ p, mkNodeKey p.1 p.2) _).
  by intros [].
Defined.

(** A [*Node]: the address identifies the struct; [NodeKey] and [Weight]
    are never written after construction, so they travel with the
    pointer.  The mutable fields ([healthy], [healthCheckerCancel]) live
    in the store of the node group, keyed by the address. *)
Record Node := mkNode { addr : nat; nodeKey : NodeKey; Weight : Z }.

#[global] Instance Node_eq_dec : EqDecision Node.
Proof. solve_decision. Defined.

(** Position of the first node of the list whose key is [k]: the element
    at which the loops [for e := Front(); e != nil; e = e.Next()] of the
    balancers stop. *)
Fixpoint find_key (k : NodeKey) (l : list Node) : option nat :=
  match l with
  | [] => None
  | v :: l' => if decide (k = nodeKey v) then Some 0%nat
               else S <$> find_key k l'
  end.

End Router.

Import Router.

(* ================================================================== *)
(** * lb/router/algo/rr.go: round-robin *)
(* ================================================================== *)

(** Position designated by a cursor once the element at position [e] has
    been unlinked: the elements behind [e] move up by one. *)
Definition unlink (e : nat) (c : option nat) : option nat :=
  (λ j, if decide (e < j)%nat then pred j else j) <$> c.

Module RR.

(** [type RR struct { nodes *list.List; cur *list.Element }] *)
Record RR := mkRR { nodes : list Node; cur : option nat }.

Definition NewRR : RR := {| nodes := []; cur := None |}.

Definition AddNode (n : Node) (r : RR) : RR :=
  {| nodes := nodes r ++ [n]; cur := cur r |}.

Definition DeleteNode (k : NodeKey) (r : RR) : RR :=
  match find_key k (nodes r) with
  | None => r
  | Some e =>
      let cur' :=
        if decide (cur r = Some e) then
          if decide (length (nodes r) = 1%nat) then None
          else if decide (S e = length (nodes r)) then Some 0%nat
               else Some (S e)
        else cur r in
      {| nodes := delete e (nodes r); cur := unlink e cur' |}
  end.

(** [Balance]: the returned [*router.Node] ([None] is Go's [nil]) and the
    balancer afterwards.  A cursor that designates no element cannot
    arise ([cursor_ok] below); the model then answers [nil]. *)
Definition Balance (r : RR) : option Node * RR :=
  match nodes r with
  | [] => (None, r)
  | _ :: _ =>
      let c := default 0%nat (cur r) in
      match nodes r !! c with
      | None => (None, r)
      | Some v =>
          (Some v,
           {| nodes := nodes r;
              cur := if decide (S c < length (nodes r))%nat
                     then Some (S c) else None |})
      end
  end.

(** [n] consecutive calls of [Balance], with what each returned. *)
Fixpoint BalanceN (n : nat) (r : RR) : list (option Node) * RR :=
  match n with
  | O => ([], r)
  | S n' =>
      let '(v, r1) := Balance r in
      let '(vs, r2) := BalanceN n' r1 in
      (v :: vs, r2)
  end.

(** The operations a client may apply to a balancer. *)
Inductive op := OpAdd (n : Node) | OpDelete (k : NodeKey) | OpBalance.

Definition step (r : RR) (o : op) : RR :=
  match o with
  | OpAdd n => AddNode n r
  | OpDelete k => DeleteNode k r
  | OpBalance => (Balance r).2
  end.

(** The balancers a program can hold: [NewRR] and whatever the three
    methods make of it. *)
Definition reachable (r : RR) : Prop := ∃ ops, r = foldl step NewRR ops.

(** The cursor, when set, designates an element of the list. *)
Definition cursor_ok (r : RR) : Prop :=
  ∀ c, cur r = Some c → (c < length (nodes r))%nat.

(** Position of the element the next [Balance] returns. *)
Definition start (r : RR) : nat := default 0%nat (cur r).

End RR.

(* ================================================================== *)
(** * lb/router/algo/rr.go: weighted round-robin *)
(* ================================================================== *)

Module WRR.

(** [type WRR struct { nodes *list.List; cur *list.Element; reqCredit int }] *)
Record WRR := mkWRR { nodes : list Node; cur : option nat; reqCredit : Z }.

Definition NewWRR : WRR := {| nodes := []; cur := None; reqCredit := 0 |}.

Definition AddNode (n : Node) (r : WRR) : WRR :=
  {| nodes := nodes r ++ [n]; cur := cur r; reqCredit := reqCredit r |}.

Definition DeleteNode (k : NodeKey) (r : WRR) : WRR :=
  match find_key k (nodes r) with
  | None => r
  | Some e =>
      let '(cur', credit') :=
        if decide (cur r = Some e) then
          if decide (length (nodes r) = 1%nat) then (None, reqCredit r)
          else if decide (S e = length (nodes r))
               then (Some 0%nat, default 0 (Weight <$> nodes r !! 0%nat))
               else (Some (S e), default 0 (Weight <$> nodes r !! S e))
        else (cur r, reqCredit r) in
      {| nodes := delete e (nodes r); cur := unlink e cur';
         reqCredit := credit' |}
  end.

Definition Balance (r : WRR) : option Node * WRR :=
  match nodes r with
  | [] => (None, r)
  | front :: rest =>
      match cur r with
      | None =>
          if decide (Weight front ≤ 1) then
            match rest with
            | nxt :: _ =>
                (Some front,
                 {| nodes := nodes r; cur := Some 1%nat;
                    reqCredit := Weight nxt |})
            | [] =>
                (Some front,
                 {| nodes := nodes r; cur := None; reqCredit := 0 |})
            end
          else
            (Some front,
             {| nodes := nodes r; cur := Some 0%nat;
                reqCredit := GoInt.wrap64 (Weight front - 1) |})
      | Some e =>
          match nodes r !! e with
          | None => (None, r)
          | Some v =>
              let credit := GoInt.wrap64 (reqCredit r - 1) in
              if decide (credit < 1) then
                match nodes r !! S e with
                | Some nxt =>
                    (Some v,
                     {| nodes := nodes r; cur := Some (S e);
                        reqCredit := Weight nxt |})
                | None =>
                    (Some v,
                     {| nodes := nodes r; cur := None; reqCredit := 0 |})
                end
              else
                (Some v,
                 {| nodes := nodes r; cur := Some e; reqCredit := credit |})
          end
      end
  end.

Fixpoint BalanceN (n : nat) (r : WRR) : list (option Node) * WRR :=
  match n with
  | O => ([], r)
  | S n' =>
      let '(v, r1) := Balance r in
      let '(vs, r2) := BalanceN n' r1 in
      (v :: vs, r2)
  end.

Inductive op := OpAdd (n : Node) | OpDelete (k : NodeKey) | OpBalance.

Definition step (r : WRR) (o : op) : WRR :=
  match o with
  | OpAdd n => AddNode n r
  | OpDelete k => DeleteNode k r
  | OpBalance => (Balance r).2
  end.

(** Every [Weight] is a Go [int]. *)
Definition op_ok (o : op) : Prop :=
  match o with OpAdd n => GoInt.is_int (Weight n) | _ => True end.

Definition reachable (r : WRR) : Prop :=
  ∃ ops, Forall op_ok ops ∧ r = foldl step NewWRR ops.

(** Sum of the weights of the pool: the length of a pass. *)
Definition total (l : list Node) : nat :=
  foldr (λ n acc, (Z.to_nat (Weight n) + acc)%nat) 0%nat l.

(** One full pass over the pool: every node, in list order, as often as
    its weight says. *)
Definition pass (l : list Node) : list (option Node) :=
  l ≫= λ n, replicate (Z.to_nat (Weight n)) (Some n).

(** Invariant of the cursor: it designates an element, and when that
    element has a weight of at least 1 the credit lies in [1, weight]. *)
Definition cursor_ok (r : WRR) : Prop :=
  Forall (λ n, GoInt.is_int (Weight n)) (nodes r) ∧
  ∀ e, cur r = Some e →
       ∃ v, nodes r !! e = Some v ∧
            (1 ≤ Weight v → 1 ≤ reqCredit r ≤ Weight v).

End WRR.

(* ================================================================== *)
(** * lb/router/algo/lc.go: least connections *)
(* ================================================================== *)

(** Outcome of Go code that may panic.  Loops run on fuel; [OutOfFuel]
    only says that the fuel given was too little. *)
Inductive res (A : Type) : Type :=
| Ok (a : A)
| Panic
| OutOfFuel.
Arguments Ok {A} a.
Arguments Panic {A}.
Arguments OutOfFuel {A}.

#[global] Instance res_ret : MRet res := λ A a, Ok a.
#[global] Instance res_bind : MBind res := λ A B f m,
  match m with
  | Ok a => f a
  | Panic => Panic
  | OutOfFuel => OutOfFuel
  end.

Module LC.

(** [type nodeWR struct { node *router.Node; reqs int; index int }] *)
Record nodeWR := mkNodeWR { node : Node; reqs : Z; index : Z }.

(** [type LC struct { nodes nodeHeap }] with [type nodeHeap []*nodeWR]: the
    slice holds addresses, [mem] the structs they point to.  Structs that
    left the slice stay in [mem]: a completion observer may still hold
    their address. *)
Record LC := mkLC { nodes : list nat; mem : gmap nat nodeWR }.

Definition NewLC : LC := {| nodes := []; mem := ∅ |}.

(** [len(nh)] *)
Definition Len (l : LC) : Z := Z.of_nat (length (nodes l)).

(** [nh[i]]: an index out of range panics. *)
Definition at_index (l : LC) (i : Z) : res nat :=
  if decide (0 ≤ i) then
    match nodes l !! Z.to_nat i with Some p => Ok p | None => Panic end
  else Panic.

(** [*p] *)
Definition deref (l : LC) (p : nat) : res nodeWR :=
  match mem l !! p with Some c => Ok c | None => Panic end.

Definition set_index (i : Z) (c : nodeWR) : nodeWR :=
  {| node := node c; reqs := reqs c; index := i |}.

Definition set_reqs (n : Z) (c : nodeWR) : nodeWR :=
  {| node := node c; reqs := n; index := index c |}.

(** [p.f = v] *)
Definition store (l : LC) (p : nat) (f : nodeWR → nodeWR) : res LC :=
  c ← deref l p; Ok {| nodes := nodes l; mem := <[p := f c]> (mem l) |}.

(** [func (nh nodeHeap) Less(i, j int) bool] *)
Definition Less (l : LC) (i j : Z) : res bool :=
  pi ← at_index l i; ci ← deref l pi;
  pj ← at_index l j; cj ← deref l pj;
  Ok (bool_decide (reqs ci < reqs cj)).

(** [func (nh nodeHeap) Swap(i, j int)] *)
Definition Swap (l : LC) (i j : Z) : res LC :=
  pi ← at_index l i; pj ← at_index l j;
  let l1 := {| nodes := <[Z.to_nat j := pi]> (<[Z.to_nat i := pj]> (nodes l));
               mem := mem l |} in
  qi ← at_index l1 i; l2 ← store l1 qi (set_index i);
  qj ← at_index l2 j; store l2 qj (set_index j).

(** [func (nh *nodeHeap) Push(x any)] *)
Definition Push (l : LC) (x : nat) : res LC :=
  l1 ← store l x (set_index (Len l));
  Ok {| nodes := nodes l1 ++ [x]; mem := mem l1 |}.

(** [func (nh *nodeHeap) Pop() any] *)
Definition Pop (l : LC) : res (nat * LC) :=
  let n := Len l in
  item ← at_index l (n - 1);
  l1 ← store l item (set_index (-1));
  Ok (item, {| nodes := take (Z.to_nat (n - 1)) (nodes l1); mem := mem l1 |}).

(** ** container/heap (Go standard library) *)

(** [func up(h Interface, j int)] *)
Fixpoint up (fuel : nat) (l : LC) (j : Z) : res LC :=
  match fuel with
  | O => OutOfFuel
  | S fuel' =>
      let i := Z.quot (GoInt.wrap64 (j - 1)) 2 in
      if decide (i = j) then Ok l
      else
        lt ← Less l j i;
        if negb lt then Ok l
        else l1 ← Swap l i j; up fuel' l1 i
  end.

(** The loop of [func down(h Interface, i0, n int) bool]; the result carries
    the last value of [i]. *)
Fixpoint down_loop (fuel : nat) (l : LC) (i n : Z) : res (LC * Z) :=
  match fuel with
  | O => OutOfFuel
  | S fuel' =>
      let j1 := GoInt.wrap64 (2 * i + 1) in
      if decide (j1 >= n ∨ j1 < 0) then Ok (l, i)
      else
        let j2 := GoInt.wrap64 (j1 + 1) in
        lt2 ← (if decide (j2 < n) then Less l j2 j1 else Ok false);
        let j := if (lt2 : bool) then j2 else j1 in
        lt ← Less l j i;
        if negb lt then Ok (l, i)
        else l1 ← Swap l i j; down_loop fuel' l1 j n
  end.

Definition down (fuel : nat) (l : LC) (i0 n : Z) : res (LC * bool) :=
  '(l1, i) ← down_loop fuel l i0 n; Ok (l1, bool_decide (i > i0)).

(** [func Fix(h Interface, i int)] *)
Definition heap_Fix (fuel : nat) (l : LC) (i : Z) : res LC :=
  '(l1, moved) ← down fuel l i (Len l);
  if negb moved then up fuel l1 i else Ok l1.

(** [func Push(h Interface, x any)] *)
Definition heap_Push (fuel : nat) (l : LC) (x : nat) : res LC :=
  l1 ← Push l x; up fuel l1 (Len l1 - 1).

(** [func Remove(h Interface, i int) any] *)
Definition heap_Remove (fuel : nat) (l : LC) (i : Z) : res (nat * LC) :=
  let n := Len l - 1 in
  l3 ← (if decide (n ≠ i) then
          l1 ← Swap l i n;
          '(l2, moved) ← down fuel l1 i n;
          if negb moved then up fuel l2 i else Ok l2
        else Ok l);
  Pop l3.

(** ** The balancer *)

(** [func (l *LC) AddNode(n *router.Node)]: [&nodeWR{...}] allocates a
    struct at an address not in use. *)
Definition AddNode (fuel : nat) (n : Node) (l : LC) : res LC :=
  let nwr := fresh (dom (mem l)) in
  let l1 := {| nodes := nodes l;
               mem := <[nwr := {| node := n; reqs := 0; index := -1 |}]>
                        (mem l) |} in
  heap_Push fuel l1 nwr.

(** The element at which [for _, v := range l.nodes] finds the key. *)
Fixpoint find_entry (m : gmap nat nodeWR) (k : NodeKey) (h : list nat)
  : res (option nat) :=
  match h with
  | [] => Ok None
  | p :: h' =>
      match m !! p with
      | None => Panic
      | Some c => if decide (k = nodeKey (node c)) then Ok (Some p)
                  else find_entry m k h'
      end
  end.

(** [func (l *LC) DeleteNode(k router.NodeKey)] *)
Definition DeleteNode (fuel : nat) (k : NodeKey) (l : LC) : res LC :=
  found ← find_entry (mem l) k (nodes l);
  match found with
  | None => Ok l
  | Some v =>
      c ← deref l v;
      '(_, l1) ← heap_Remove fuel l (index c); Ok l1
  end.

(** [func (l *LC) Balance(r *http.Request) *router.Node]: besides the node,
    the address [selected] that the observer started by
    [go l.monitorRequestFinish(r, selected)] keeps. *)
Definition Balance (fuel : nat) (l : LC) : res (option (Node * nat) * LC) :=
  if decide (Len l = 0) then Ok (None, l)
  else
    selected ← at_index l 0;
    c ← deref l selected;
    l1 ← store l selected (set_reqs (GoInt.wrap64 (reqs c + 1)));
    l2 ← heap_Fix fuel l1 0;
    Ok (Some (node c, selected), l2).

(** [func (l *LC) monitorRequestFinish(r *http.Request, n *nodeWR)], from
    the moment the request's context is done. *)
Definition monitorRequestFinish (fuel : nat) (n : nat) (l : LC) : res LC :=
  c ← deref l n;
  l1 ← store l n (set_reqs (GoInt.wrap64 (reqs c - 1)));
  c1 ← deref l1 n;
  heap_Fix fuel l1 (index c1).

(** The heap as the methods keep it: every slot points to a struct that
    records the slot's position, and the length is a Go [int]. *)
Definition wf (l : LC) : Prop :=
  GoInt.is_int (Len l) ∧
  ∀ i p, nodes l !! i = Some p →
         ∃ c, mem l !! p = Some c ∧ index c = Z.of_nat i.

(** An entry that [DeleteNode] took out of the heap. *)
Definition detached (p : nat) (l : LC) : Prop :=
  (p ∉ nodes l) ∧ ∃ c, mem l !! p = Some c ∧ index c = (-1).

(** The whole invariant of the balancer: besides [wf], a struct outside
    the slice carries index -1. *)
Definition heap_inv (l : LC) : Prop :=
  wf l ∧ ∀ p c, mem l !! p = Some c → p ∉ nodes l → index c = (-1).

(** What may happen to a balancer: the three methods, and the completion
    observer of an earlier [Balance] firing for the entry [p] it holds. *)
Inductive op :=
| OpAdd (n : Node)
| OpDelete (k : NodeKey)
| OpBalance
| OpDone (p : nat).

Definition exec (fuel : nat) (o : op) (l : LC) : res LC :=
  match o with
  | OpAdd n => AddNode fuel n l
  | OpDelete k => DeleteNode fuel k l
  | OpBalance => '(_, l1) ← Balance fuel l; Ok l1
  | OpDone p => monitorRequestFinish fuel p l
  end.

(** States a program can bring an [LC] into.  Each step runs on fuel
    beyond the slice length (the sift loops need no more), and the slice
    length stays a Go [int]. *)
Inductive reaches : LC → LC → Prop :=
| reaches_refl l : reaches l l
| reaches_step l0 l o fuel l' :
    reaches l0 l →
    (S (length (nodes l)) < fuel)%nat →
    GoInt.is_int (Len l + 1) →
    exec fuel o l = Ok l' →
    reaches l0 l'.

Definition reachable (l : LC) : Prop := reaches NewLC l.

End LC.

(* ================================================================== *)
(** * lb/router/router.go: node groups and health checks *)
(* ================================================================== *)

(** [type Balancer interface { AddNode(n *Node); DeleteNode(k NodeKey);
    Balance(r *http.Request) *Node }].  [members] observes the nodes of the
    balancing pool; the three laws are what the node group relies on: only
    [AddNode] brings a node into the pool, and [Balance] returns a node of
    the pool. *)
Class Balancer (B : Type) := {
  bAddNode : Node → B → res B;
  bDeleteNode : NodeKey → B → res B;
  bBalance : B → res (option Node * B);
  members : B → list Node;
  members_add n b b' :
    bAddNode n b = Ok b' → ∀ v, v ∈ members b' → v = n ∨ v ∈ members b;
  members_delete k b b' :
    bDeleteNode k b = Ok b' → ∀ v, v ∈ members b' → v ∈ members b;
  members_balance b o b' :
    bBalance b = Ok (o, b') →
    (∀ v, o = Some v → v ∈ members b) ∧ (∀ v, v ∈ members b' → v ∈ members b)
}.

Module Group.

(** [type HealthCheckConfig struct { Path string; Interval int; Timeout int }] *)
Record HealthCheckConfig :=
  mkHealthCheckConfig { Path : string; Interval : Z; Timeout : Z }.

(** The fields of a [Node] that change: [healthy] and
    [healthCheckerCancel] ([None] is [nil]; [Some c] is a cancel function,
    [c] telling whether it has been called). *)
Record NodeState :=
  mkNodeState { healthy : bool; healthCheckerCancel : option bool }.

(** A [Node] as [&router.Node{NodeKey: ..., Weight: ...}] leaves it. *)
Definition zeroState : NodeState :=
  {| healthy := false; healthCheckerCancel := None |}.

(** [type NodeGroup struct { Name; HTTPS; HealthCheck; Balancer; nodes }],
    with the mutable fields of the nodes the program has touched. *)
Record NodeGroup (B : Type) := mkNodeGroup {
  Name : string;
  HTTPS : bool;
  HealthCheck : HealthCheckConfig;
  balancer : B;
  nodes : gmap NodeKey Node;
  state : gmap nat NodeState
}.
Arguments mkNodeGroup {B}.
Arguments Name {B}.
Arguments HTTPS {B}.
Arguments HealthCheck {B}.
Arguments balancer {B}.
Arguments nodes {B}.
Arguments state {B}.

Section group.
Context {B : Type} `{Balancer B}.

(** [*n] for a node the group may not have touched yet. *)
Definition stateOf (ng : NodeGroup B) (n : Node) : NodeState :=
  default zeroState (state ng !! addr n).

Definition setState (ng : NodeGroup B) (n : Node) (s : NodeState)
  : NodeGroup B :=
  {| Name := Name ng; HTTPS := HTTPS ng; HealthCheck := HealthCheck ng;
     balancer := balancer ng; nodes := nodes ng;
     state := <[addr n := s]> (state ng) |}.

Definition setBalancer (ng : NodeGroup B) (b : B) : NodeGroup B :=
  {| Name := Name ng; HTTPS := HTTPS ng; HealthCheck := HealthCheck ng;
     balancer := b; nodes := nodes ng; state := state ng |}.

Definition setNodes (ng : NodeGroup B) (m : gmap NodeKey Node)
  : NodeGroup B :=
  {| Name := Name ng; HTTPS := HTTPS ng; HealthCheck := HealthCheck ng;
     balancer := balancer ng; nodes := m; state := state ng |}.

(** [func (ng *NodeGroup) startNodeHealthChecker(n *Node)]: the goroutine
    it starts shows up as [EvProbe] events. *)
Definition startNodeHealthChecker (ng : NodeGroup B) (n : Node)
  : NodeGroup B :=
  match healthCheckerCancel (stateOf ng n) with
  | Some _ => ng
  | None =>
      setState ng n {| healthy := healthy (stateOf ng n);
                       healthCheckerCancel := Some false |}
  end.

(** [func (ng *NodeGroup) stopNodeHealthChecker(n *Node)]; [None] is a
    nil [*Node], whose [healthMu] cannot be locked. *)
Definition stopNodeHealthChecker (ng : NodeGroup B) (n : option Node)
  : res (NodeGroup B) :=
  match n with
  | None => Panic
  | Some n =>
      match healthCheckerCancel (stateOf ng n) with
      | None => Ok ng
      | Some _ =>
          Ok (setState ng n {| healthy := healthy (stateOf ng n);
                               healthCheckerCancel := Some true |})
      end
  end.

(** [func (ng *NodeGroup) AddNode(n *Node)]; [None] is [nil]. *)
Definition AddNode (n : option Node) (ng : NodeGroup B) : NodeGroup B :=
  match n with
  | None => ng
  | Some n =>
      let nk := {| Host := Host (nodeKey n); Port := Port (nodeKey n) |} in
      startNodeHealthChecker (setNodes ng (<[nk := n]> (nodes ng))) n
  end.

(** [func (ng *NodeGroup) DeleteNode(nk NodeKey)] *)
Definition DeleteNode (nk : NodeKey) (ng : NodeGroup B)
  : res (NodeGroup B) :=
  ng1 ← stopNodeHealthChecker ng (nodes ng !! nk);
  b ← bDeleteNode nk (balancer ng1);
  Ok (setNodes (setBalancer ng1 b) (delete nk (nodes ng1))).

(** What [ng.transport.RoundTrip(req)] answered: an error, or a response
    with its status code. *)
Inductive probe := ProbeErr | ProbeStatus (code : Z).

Definition probe_ok (o : probe) : bool :=
  match o with
  | ProbeErr => false
  | ProbeStatus code => bool_decide (code = 200)
  end.

(** [func (ng *NodeGroup) checkNodeHealth(ctx, n *Node)], from the answer
    of the round trip on; the request it builds before is [healthRequest]
    below. *)
Definition checkNodeHealth (n : Node) (o : probe) (ng : NodeGroup B)
  : res (NodeGroup B) :=
  match nodes ng !! nodeKey n with
  | None => Ok ng
  | Some _ =>
      let s := stateOf ng n in
      if healthy s && negb (probe_ok o) then
        let ng1 := setState ng n {| healthy := false;
                      healthCheckerCancel := healthCheckerCancel s |} in
        b ← bDeleteNode (nodeKey n) (balancer ng1);
        Ok (setBalancer ng1 b)
      else if negb (healthy s) && probe_ok o then
        let ng1 := setState ng n {| healthy := true;
                      healthCheckerCancel := healthCheckerCancel s |} in
        b ← bAddNode n (balancer ng1);
        Ok (setBalancer ng1 b)
      else Ok ng
  end.

(** The balancing step of [func (ng *NodeGroup) roundTrip(r)]: the node
    chosen, [None] standing for [errNoNodeAvailable]. *)
Definition roundTrip (ng : NodeGroup B) : res (option Node * NodeGroup B) :=
  '(n, b) ← bBalance (balancer ng); Ok (n, setBalancer ng b).

(** What happens to a group: the admin interface, the health-check
    goroutines completing a probe, and requests being routed. *)
Inductive event :=
| EvAddNode (n : Node)
| EvDeleteNode (k : NodeKey)
| EvProbe (n : Node) (o : probe)
| EvRoundTrip.

Definition step (ng : NodeGroup B) (e : event) : res (NodeGroup B) :=
  match e with
  | EvAddNode n => Ok (AddNode (Some n) ng)
  | EvDeleteNode k => DeleteNode k ng
  | EvProbe n o => checkNodeHealth n o ng
  | EvRoundTrip => '(_, ng1) ← roundTrip ng; Ok ng1
  end.

Fixpoint run (ng : NodeGroup B) (tr : list event) : res (NodeGroup B) :=
  match tr with
  | [] => Ok ng
  | e :: tr' => ng1 ← step ng e; run ng1 tr'
  end.

(** A probe of the node at address [a] answered without error and with
    status 200. *)
Definition probed_ok (a : nat) (e : event) : Prop :=
  match e with
  | EvProbe n o => addr n = a ∧ probe_ok o = true
  | _ => False
  end.

End group.

(** ** The probe request *)

(** [time.Second], in nanoseconds ([time.Duration] is an [int64]). *)
Definition Second : Z := 1000000000.

(** [time.Duration(x) * time.Second] *)
Definition seconds (x : Z) : Z := GoInt.wrap64 (x * Second).

(** [time.NewTicker(d)] panics unless [d] is positive. *)
Definition NewTicker (d : Z) : res Z :=
  if decide (d ≤ 0) then Panic else Ok d.

(** The ticker of the goroutine of [startNodeHealthChecker]. *)
Definition healthTicker (hc : HealthCheckConfig) : res Z :=
  NewTicker (seconds (Interval hc)).

(** What [checkNodeHealth] hands to the transport: the method and the URL
    of the request, and the timeout of its context. *)
Record probeRequest := mkProbeRequest {
  method : string;
  url : string;
  timeout : Z
}.

Definition scheme_of (https : bool) : string :=
  if https then "https" else "http".

(** The function of Go's [net/http] that [checkNodeHealth] calls to build
    its request. *)
Class NetHTTP := {
  (** [http.NewRequestWithContext(ctx, method, url, nil)] with a context
      that is not nil: [true] when it returns a request, [false] when it
      returns an error, as it does for a URL that [url.Parse] rejects. *)
  NewRequestWithContext : string → string → bool
}.

(** [time.Duration(ng.HealthCheck.Timeout)*time.Second], the timeout that
    [checkNodeHealth] gives to [context.WithTimeout]. *)
Definition healthTimeout (hc : HealthCheckConfig) : Z := seconds (Timeout hc).

(** [fmt.Sprintf("%s://%s:%d/%s", scheme, n.Host, n.Port, ng.HealthCheck.Path)] *)
Definition healthURL (https : bool) (hc : HealthCheckConfig) (n : Node)
  : string :=
  scheme_of https +:+ "://" +:+ Host (nodeKey n) +:+ ":"
  +:+ pretty (Port (nodeKey n)) +:+ "/" +:+ Path hc.

(** [func (ng *NodeGroup) checkNodeHealth(ctx, n *Node)], up to the round
    trip: the request that goes to [ng.transport.RoundTrip], or the panic
    of the function when [http.NewRequestWithContext] returns an error. *)
Definition healthRequest `{NetHTTP} (https : bool) (hc : HealthCheckConfig)
    (n : Node) : res probeRequest :=
  let url := healthURL https hc n in
  if NewRequestWithContext "GET" url
  then Ok {| method := "GET"; url := url; timeout := healthTimeout hc |}
  else Panic.

(** ** The parts of a URL (RFC 3986, as [net/url] splits them) *)

Definition is_delim (c : ascii) : bool :=
  bool_decide (c = "/"%char) || bool_decide (c = "?"%char)
  || bool_decide (c = "#"%char).

Definition ends_path (c : ascii) : bool :=
  bool_decide (c = "?"%char) || bool_decide (c = "#"%char).

(** What follows the first ["://"]. *)
Fixpoint after_scheme (s : string) : option string :=
  match s with
  | EmptyString => None
  | String c s' =>
      match c, s' with
      | ":"%char, String "/" (String "/" r) => Some r
      | _, _ => after_scheme s'
      end
  end.

(** The authority ends at the first ["/"], ["?"] or ["#"]. *)
Fixpoint after_authority (s : string) : string :=
  match s with
  | EmptyString => EmptyString
  | String c s' => if is_delim c then s else after_authority s'
  end.

(** The path ends at the first ["?"] or ["#"]. *)
Fixpoint until_query (s : string) : string :=
  match s with
  | EmptyString => EmptyString
  | String c s' => if ends_path c then EmptyString
                   else String c (until_query s')
  end.

Definition url_path (u : string) : string :=
  match after_scheme u with
  | Some r => until_query (after_authority r)
  | None => EmptyString
  end.

Fixpoint string_all (P : ascii → bool) (s : string) : bool :=
  match s with
  | EmptyString => true
  | String c s' => P c && string_all P s'
  end.

End Group.

(** ** cfg/cfg.go and lb/lb.go: from the configuration to the group *)

Module Lb.

(** [cfg.NodeGroup.HealthCheck]; a field the JSON leaves out is zero. *)
Record cfgHealthCheck :=
  mkCfgHealthCheck { Path : string; Interval : Z; Timeout : Z }.

(** [router.HealthCheckConfig(cfgNg.HealthCheck)] in [routerControl]: a
    conversion between two structs with the same fields. *)
Definition routerHealthCheck (c : cfgHealthCheck) : Group.HealthCheckConfig :=
  {| Group.Path := Path c; Group.Interval := Interval c;
     Group.Timeout := Timeout c |}.

(** A [health_check] object the configuration does not set. *)
Definition unsetHealthCheck : cfgHealthCheck :=
  {| Path := ""; Interval := 0; Timeout := 0 |}.

End Lb.

(* ================================================================== *)
(** * lb/evaluator: conditions, rules and rule matching *)
(* ================================================================== *)

Module Evaluator.

(** A Go [error], by its message. *)
Definition error := string.

(** [type CondType int] and [type CondOp int], with their constants. *)
Definition CondType := Z.
Definition Path : CondType := 0.
Definition Query : CondType := 1.
Definition BodyString : CondType := 2.
Definition BodyForm : CondType := 3.
Definition Header : CondType := 4.
Definition IP : CondType := 5.

Definition CondOp := Z.
Definition Equal : CondOp := 0.
Definition BeginWith : CondOp := 1.
Definition Regex : CondOp := 2.
Definition Range : CondOp := 3.

(** [type Condition struct { Not; Type; Key; Operation; Value }] *)
Record Condition := mkCondition {
  Not : bool;
  Type_ : CondType;
  Key : string;
  Operation : CondOp;
  Value : string
}.

(** [Action.Reject] *)
Record Reject := mkReject { StatusCode : Z; Message : string }.

(** [type Action struct { NodeGroup; Reject; Redirect }] *)
Record Action := mkAction {
  NodeGroup : string;
  reject : Reject;
  Redirect : string
}.

(** [Action{}] *)
Definition zeroAction : Action :=
  {| NodeGroup := ""; reject := {| StatusCode := 0; Message := "" |};
     Redirect := "" |}.

(** A [*Rule]: the address identifies the struct, the fields are never
    written once the rule is built. *)
Record Rule := mkRule {
  raddr : nat;
  Priority : Z;
  Listener : string;
  Conditions : list Condition;
  action : Action;
  Dynamic : string
}.

#[global] Instance Condition_eq_dec : EqDecision Condition.
Proof. solve_decision. Defined.
#[global] Instance Reject_eq_dec : EqDecision Reject.
Proof. solve_decision. Defined.
#[global] Instance Action_eq_dec : EqDecision Action.
Proof. solve_decision. Defined.
#[global] Instance Rule_eq_dec : EqDecision Rule.
Proof. solve_decision. Defined.

(** [r.Body]: a reader that yields its bytes, or one that fails. *)
Inductive body := BodyData (s : string) | BodyFailing (e : error).

(** What the evaluator reads of a [*http.Request]. *)
Record Request := mkRequest {
  EscapedPath : string;                        (* r.URL.EscapedPath() *)
  URLQuery : gmap string (list string);        (* r.URL.Query() *)
  Body : body;                                 (* r.Body *)
  PostForm : option (gmap string (list string)); (* r.PostForm; None is nil *)
  HeaderMap : gmap string (list string);       (* r.Header *)
  RemoteAddr : string;                         (* r.RemoteAddr *)
  ArrivalListener : option string   (* r.Context().Value(listenerKey) *)
}.

(** The functions of Go's standard library that the conditions call. *)
Class GoLib := {
  IPAddr : Type;
  IPNet : Type;
  (** [strings.ToLower] *)
  ToLower : string → string;
  (** [regexp.MatchString(pattern, s)] *)
  MatchString : string → string → bool * option error;
  (** [r.ParseForm()]: the error, and the request with its form parsed *)
  ParseForm : Request → option error * Request;
  (** [net.ParseCIDR], without the IP it also returns *)
  ParseCIDR : string → IPNet + error;
  (** [net.ParseIP] *)
  ParseIP : string → IPAddr;
  (** the method [Contains] of [*IPNet] *)
  Contains : IPNet → IPAddr → bool
}.

(** [strings.Split(s, ":")[0]] *)
Fixpoint before_colon (s : string) : string :=
  match s with
  | EmptyString => EmptyString
  | String c s' => if bool_decide (c = ":"%char) then EmptyString
                   else String c (before_colon s')
  end.

(** [vv[0]] *)
Definition first_value (vv : list string) : res string :=
  match vv with v :: _ => Ok v | [] => Panic end.

Section conditions.
Context `{GoLib}.

Definition outcome : Type := (bool * option error) * Request.

(** [func doStrCondOp(op CondOp, a string, b string) (bool, error)] *)
Definition doStrCondOp (op : CondOp) (a b : string) : bool * option error :=
  let a := ToLower a in
  let b := ToLower b in
  if decide (op = Equal) then (bool_decide (a = b), None)
  else if decide (op = BeginWith) then (String.prefix b a, None)
  else if decide (op = Regex) then MatchString b a
  else (false, Some "evaluator/condition: invalid operation for string type").

(** [func evaluateCondPath] *)
Definition evaluateCondPath (r : Request) (c : Condition) : res outcome :=
  Ok (doStrCondOp (Operation c) (EscapedPath r) (Value c), r).

(** [func evaluateCondQuery] *)
Definition evaluateCondQuery (r : Request) (c : Condition) : res outcome :=
  match URLQuery r !! Key c with
  | None => Ok ((false, None), r)
  | Some vv =>
      v ← first_value vv; Ok (doStrCondOp (Operation c) v (Value c), r)
  end.

(** [func evaluateCondBodyString]: the body is read to its end and put
    back; the line it prints to standard output is left out. *)
Definition evaluateCondBodyString (r : Request) (c : Condition)
  : res outcome :=
  match Body r with
  | BodyFailing e => Ok ((false, Some e), r)
  | BodyData s =>
      let r1 := {| EscapedPath := EscapedPath r; URLQuery := URLQuery r;
                   Body := BodyData s; PostForm := PostForm r;
                   HeaderMap := HeaderMap r; RemoteAddr := RemoteAddr r;
                   ArrivalListener := ArrivalListener r |} in
      Ok (doStrCondOp (Operation c) s (Value c), r1)
  end.

(** [func evaluateCondBodyForm] *)
Definition evaluateCondBodyForm (r : Request) (c : Condition)
  : res outcome :=
  match ParseForm r with
  | (Some e, r1) => Ok ((false, Some e), r1)
  | (None, r1) =>
      match PostForm r1 ≫= (.!! Key c) with
      | None => Ok ((false, None), r1)
      | Some vv =>
          v ← first_value vv; Ok (doStrCondOp (Operation c) v (Value c), r1)
      end
  end.

(** [func evaluateCondHeader] *)
Definition evaluateCondHeader (r : Request) (c : Condition) : res outcome :=
  match HeaderMap r !! Key c with
  | None => Ok ((false, None), r)
  | Some vv =>
      v ← first_value vv; Ok (doStrCondOp (Operation c) v (Value c), r)
  end.

(** [func evaluateCondIP] *)
Definition evaluateCondIP (r : Request) (c : Condition) : res outcome :=
  if decide (Operation c ≠ Range) then
    Ok ((false, Some "evaluator/condition: invalid operation for IP type"), r)
  else
    match ParseCIDR (Value c) with
    | inr e => Ok ((false, Some e), r)
    | inl ipNet =>
        let ip := ParseIP (before_colon (RemoteAddr r)) in
        Ok ((Contains ipNet ip, None), r)
    end.

(** The [switch c.Type] of [evaluateCondition]: the named results [ret]
    and [err] as the chosen case leaves them; no case, no change. *)
Definition evaluateCondType (r : Request) (c : Condition) : res outcome :=
  if decide (Type_ c = Path) then evaluateCondPath r c
  else if decide (Type_ c = Query) then evaluateCondQuery r c
  else if decide (Type_ c = BodyString) then evaluateCondBodyString r c
  else if decide (Type_ c = BodyForm) then evaluateCondBodyForm r c
  else if decide (Type_ c = Header) then evaluateCondHeader r c
  else if decide (Type_ c = IP) then evaluateCondIP r c
  else Ok ((false, None), r).

(** [func evaluateCondition(r *http.Request, c Condition) (ret bool, err error)];
    the last statement is [ret = ret != c.Not]. *)
Definition evaluateCondition (r : Request) (c : Condition) : res outcome :=
  '((ret, err), r1) ← evaluateCondType r c;
  Ok ((negb (Bool.eqb ret (Not c)), err), r1).

(** [c] with its [Not] flag flipped. *)
Definition flipNot (c : Condition) : Condition :=
  {| Not := negb (Not c); Type_ := Type_ c; Key := Key c;
     Operation := Operation c; Value := Value c |}.

(** ** evaluator.go *)

(** The action returned when no rule was satisfied. *)
Definition noRuleAction : Action :=
  {| NodeGroup := "";
     reject := {| StatusCode := 500; Message := "no rule was satisfied" |};
     Redirect := "" |}.

(** The inner loop of [evaluateRequest], [for _, cnd := range
    rule.Conditions]: [allCondsTrue] when it ends, or the error on which
    the function returns. *)
Fixpoint evaluateConditions (r : Request) (conds : list Condition)
  : res outcome :=
  match conds with
  | [] => Ok ((true, None), r)
  | cnd :: conds' =>
      '((ret, err), r1) ← evaluateCondition r cnd;
      match err with
      | Some e => Ok ((false, Some e), r1)
      | None => if negb ret then Ok ((false, None), r1)
                else evaluateConditions r1 conds'
      end
  end.

(** [func (e *Evaluator) evaluateRequest(r *http.Request) (Action, error)],
    over the rule list [e.r]. *)
Fixpoint evaluateRequest (r : Request) (rules : list Rule)
  : res ((Action * option error) * Request) :=
  match rules with
  | [] => Ok ((noRuleAction, None), r)
  | rule :: rules' =>
      match ArrivalListener r with
      | None => evaluateRequest r rules'
      | Some lnr =>
          if decide (lnr ≠ Listener rule) then evaluateRequest r rules'
          else
            '((allCondsTrue, err), r1) ← evaluateConditions r (Conditions rule);
            match err with
            | Some e => Ok ((zeroAction, Some e), r1)
            | None => if (allCondsTrue : bool)
                      then Ok ((action rule, None), r1)
                      else evaluateRequest r1 rules'
            end
      end
  end.

(** ** What the specification says of rule matching *)

(** Every condition of the list evaluates to true, one after the other. *)
Inductive conds_true : Request → list Condition → Request → Prop :=
| conds_true_nil r : conds_true r [] r
| conds_true_cons r c r1 cs r2 :
    evaluateCondition r c = Ok ((true, None), r1) →
    conds_true r1 cs r2 →
    conds_true r (c :: cs) r2.

(** After conditions that evaluate to true, one evaluates to false. *)
Inductive conds_false : Request → list Condition → Request → Prop :=
| conds_false_here r c cs r1 :
    evaluateCondition r c = Ok ((false, None), r1) →
    conds_false r (c :: cs) r1
| conds_false_later r c r1 cs r2 :
    evaluateCondition r c = Ok ((true, None), r1) →
    conds_false r1 cs r2 →
    conds_false r (c :: cs) r2.

(** After conditions that evaluate to true, one fails with an error. *)
Inductive conds_error : Request → list Condition → error → Request → Prop :=
| conds_error_here r c cs ret e r1 :
    evaluateCondition r c = Ok ((ret, Some e), r1) →
    conds_error r (c :: cs) e r1
| conds_error_later r c r1 cs e r2 :
    evaluateCondition r c = Ok ((true, None), r1) →
    conds_error r1 cs e r2 →
    conds_error r (c :: cs) e r2.

(** The rule is on the listener the request arrived on. *)
Definition on_listener (r : Request) (rule : Rule) : Prop :=
  ArrivalListener r = Some (Listener rule).

(** The rules are tried in list order; rules of other listeners are
    skipped; the first rule whose conditions all evaluate to true gives its
    action; an error ends the pass; with no rule left, the request is
    rejected. *)
Inductive selects : Request → list Rule → Action * option error → Request
                    → Prop :=
| selects_none r :
    selects r [] (noRuleAction, None) r
| selects_skip r rule rules out r' :
    ¬ on_listener r rule →
    selects r rules out r' →
    selects r (rule :: rules) out r'
| selects_fail r rule rules r1 out r' :
    on_listener r rule →
    conds_false r (Conditions rule) r1 →
    selects r1 rules out r' →
    selects r (rule :: rules) out r'
| selects_match r rule rules r1 :
    on_listener r rule →
    conds_true r (Conditions rule) r1 →
    selects r (rule :: rules) (action rule, None) r1
| selects_error r rule rules e r1 :
    on_listener r rule →
    conds_error r (Conditions rule) e r1 →
    selects r (rule :: rules) (zeroAction, Some e) r1.

End conditions.

(** ** The rule list *)

(** [sort.SliceStable(e.r, less)] with [less] comparing [Priority]: the
    stable sort, here by insertion from the right. *)
Fixpoint insertStable (x : Rule) (l : list Rule) : list Rule :=
  match l with
  | [] => [x]
  | y :: l' => if decide (Priority y < Priority x)
               then y :: insertStable x l'
               else x :: y :: l'
  end.

Definition SliceStable (l : list Rule) : list Rule :=
  foldr insertStable [] l.

(** [func (e *Evaluator) AddRule(r *Rule)] *)
Definition AddRule (r : Rule) (e : list Rule) : list Rule :=
  SliceStable (e ++ [r]).

(** [func (e *Evaluator) DeleteRule(r *Rule)]: the first element that is
    the pointer [r] goes. *)
Fixpoint DeleteRule (r : Rule) (e : list Rule) : list Rule :=
  match e with
  | [] => []
  | v :: e' => if decide (v = r) then e' else v :: DeleteRule r e'
  end.

Inductive op := OpAddRule (r : Rule) | OpDeleteRule (r : Rule).

Definition step (e : list Rule) (o : op) : list Rule :=
  match o with
  | OpAddRule r => AddRule r e
  | OpDeleteRule r => DeleteRule r e
  end.

(** The rules present, in the order in which they were added. *)
Definition added (ops : list op) : list Rule :=
  foldl (λ l o, match o with
                | OpAddRule r => l ++ [r]
                | OpDeleteRule r => DeleteRule r l
                end) [] ops.

(** The rules of priority [p], in list order. *)
Definition of_priority (p : Z) (l : list Rule) : list Rule :=
  filter (λ x, Priority x = p) l.

(** ** evaluator.go: the handler *)

(** [type EvaluationResult struct { NodeGroup string }] *)
Record EvaluationResult := mkEvaluationResult { ResultNodeGroup : string }.

(** Status codes of [net/http]. *)
Definition StatusFound : Z := 302.
Definition StatusInternalServerError : Z := 500.
Definition StatusBadGateway : Z := 502.

(** How the handler ends: with [next.ServeHTTP(w, r.WithContext(ctx))],
    the context carrying the evaluation result; with
    [server.WriteError(w, statusCode, message)]; or with
    [http.Redirect(w, r, url, code)]. *)
Inductive served :=
| ServeNext (e : EvaluationResult) (r : Request)
| WriteError (statusCode : Z) (message : string)
| HttpRedirect (url : string) (code : Z).

Section handler.
Context `{GoLib}.

(** [func (e *Evaluator) Handler(next http.Handler) http.Handler], over the
    rule list [e.r]; the line it logs on an error is left out. *)
Definition Handler (rules : list Rule) (r : Request) : res served :=
  '((a, err), r1) ← evaluateRequest r rules;
  match err with
  | Some _ => Ok (WriteError StatusBadGateway "rule evaluation failed")
  | None =>
      if decide (NodeGroup a ≠ "") then
        Ok (ServeNext {| ResultNodeGroup := NodeGroup a |} r1)
      else if decide (StatusCode (reject a) ≠ 0) then
        Ok (WriteError (StatusCode (reject a)) (Message (reject a)))
      else if decide (Redirect a ≠ "") then
        Ok (HttpRedirect (Redirect a) StatusFound)
      else Ok (WriteError StatusBadGateway "rule matched has no action")
  end.

End handler.

End Evaluator.

(* ================================================================== *)
(** * lb/mux.go: the chain of handlers *)
(* ================================================================== *)

Module Mux.
Section mux.
(** The [http.Handler] values. *)
Context {Handler : Type}.

(** [type Mux struct { handlers []func(http.Handler) http.Handler }] *)
Definition Mux : Type := list (Handler → Handler).

Definition NewMux : Mux := [].

(** [func (m *Mux) Chain(h func(http.Handler) http.Handler)] *)
Definition Chain (h : Handler → Handler) (m : Mux) : Mux := m ++ [h].

(** The loop [for i := len(m.handlers) - 2; i >= 0; i-- { f = m.handlers[i](f) }]
    with [n] iterations to go, that is, at [i = n - 1]. *)
Fixpoint chainLoop (m : Mux) (n : nat) (f : Handler) : res Handler :=
  match n with
  | O => Ok f
  | S i =>
      match m !! i with
      | Some h => chainLoop m i (h f)
      | None => Panic
      end
  end.

(** [func (m *Mux) ServeHTTP(w, r)]: the handler [f] on which it ends
    with [f.ServeHTTP(w, r)]; [endpoint] is the last handler of the
    chain. *)
Definition ServeHTTP (m : Mux) (endpoint : Handler) : res Handler :=
  if decide (length m < 2)%nat then Panic
  else
    match m !! (length m - 1)%nat with
    | Some h => chainLoop m (length m - 2 + 1) (h endpoint)
    | None => Panic
    end.

End mux.
End Mux.

(* ================================================================== *)
(** * lb/router/router.go: the router *)
(* ================================================================== *)

Module Routing.

(** What [ng.transport.RoundTrip(r)] answered: an error, or a response
    with its status code, its header and its body. *)
Inductive answer :=
| TransportErr (e : string)
| Response (status : Z) (header : list (string * list string)) (body : string).

(** What the router's handler does with the [ResponseWriter]: it calls
    [server.WriteError(w, statusCode, message)], or it copies the header,
    the status code and the body of the response and goes on with
    [next.ServeHTTP(w, r)]. *)
Inductive served :=
| WriteError (statusCode : Z) (message : string)
| Proxied (header : list (string * list string)) (status : Z) (body : string).

Definition errNoNodeAvailable : string :=
  "lb/router: there is no node available on the group".

Section routing.
Context {B : Type} `{Balancer B}.

(** [type Router struct { ng map[string]*NodeGroup }] *)
Definition Router : Type := gmap string (Group.NodeGroup B).

(** [func New(ng []*NodeGroup) *Router]; the transport it gives to every
    group is the parameter [transport] of the handler below. *)
Definition New (ng : list (Group.NodeGroup B)) : Router :=
  foldl (λ r n, <[Group.Name n := n]> r) ∅ ng.

(** The transport, asked with the scheme and the host that [roundTrip]
    has set in the URL of the request. *)
Definition Transport : Type := string → string → answer.

(** [func (ng *NodeGroup) roundTrip(r *http.Request)], with the response
    or the error it returns: the balancing step, [Group.roundTrip], then
    the request to the node. *)
Definition roundTrip (transport : Transport) (ng : Group.NodeGroup B)
  : res (answer * Group.NodeGroup B) :=
  '(n, ng1) ← Group.roundTrip ng;
  match n with
  | None => Ok (TransportErr errNoNodeAvailable, ng1)
  | Some n =>
      let scheme := Group.scheme_of (Group.HTTPS ng) in
      let host := Host (nodeKey n) +:+ ":" +:+ pretty (Port (nodeKey n)) in
      Ok (transport scheme host, ng1)
  end.

(** [func (rtr *Router) Handler(next http.Handler) http.Handler], for a
    request whose context holds the evaluation result [e] ([None]: it
    holds none).  The group is reached through a pointer: the router
    afterwards holds the group as the round trip left it.  The lines
    written to the log and the clone of the request that is sent out are
    left out: the transport is asked with the scheme and the host only. *)
Definition Handler (transport : Transport) (rtr : Router)
    (e : option Evaluator.EvaluationResult) : res (served * Router) :=
  match e with
  | None => Ok (WriteError Evaluator.StatusInternalServerError "", rtr)
  | Some e =>
      match rtr !! Evaluator.ResultNodeGroup e with
      | None => Ok (WriteError Evaluator.StatusInternalServerError "", rtr)
      | Some ng =>
          '(a, ng1) ← roundTrip transport ng;
          let rtr1 := <[Evaluator.ResultNodeGroup e := ng1]> rtr in
          match a with
          | TransportErr _ =>
              Ok (WriteError Evaluator.StatusBadGateway "bad gateway", rtr1)
          | Response status header body =>
              Ok (Proxied header status body, rtr1)
          end
      end
  end.

End routing.
End Routing.

(* ================================================================== *)
(** * lb/server/server.go and lb/lb.go: the listeners *)
(* ================================================================== *)

Module Server.

(** [type Certificate struct { CertFile string; KeyFile string }], of the
    package [cfg] and of the package [server] alike. *)
Record Certificate := mkCertificate { CertFile : string; KeyFile : string }.

(** [type TLS struct { Certs []Certificate; MinTLSVersion uint16;
    MaxTLSVersion uint16 }], of both packages alike; [None] is the nil
    slice. *)
Record TLS := mkTLS {
  Certs : option (list Certificate);
  MinTLSVersion : N;
  MaxTLSVersion : N
}.

(** [cfg.Listener] *)
Record cfgListener := mkCfgListener {
  cfgAddr : string;
  cfgHTTP2 : bool;
  cfgTLS : option TLS
}.

(** [server.Listener], its handler apart. *)
Record Listener := mkListener {
  Addr : string;
  HTTP2 : bool;
  tls : option TLS
}.

(** [len(s)] and [range s] of a slice. *)
Definition elems {A : Type} (s : option (list A)) : list A := default [] s.

(** The first loop of [listenerControl], for one listener of the
    configuration. *)
Definition serverListener (l : cfgListener) : Listener :=
  {| Addr := cfgAddr l;
     HTTP2 := cfgHTTP2 l;
     tls :=
       match cfgTLS l with
       | Some t =>
           if decide (0 < length (elems (Certs t)))%nat then
             Some {| Certs :=
                       Some (foldl (λ certs cert,
                                      certs ++ [{| CertFile := CertFile cert;
                                                   KeyFile := KeyFile cert |}])
                               [] (elems (Certs t)));
                     MinTLSVersion := MinTLSVersion t;
                     MaxTLSVersion := MaxTLSVersion t |}
           else None
       | None => None
       end |}.

Section serve.
(** [tls.Certificate], and [tls.LoadX509KeyPair(certFile, keyFile)] with the
    certificate or the error it returns. *)
Context {X509 : Type} (LoadX509KeyPair : string → string → X509 + string).

(** The fields of the [tls.Config] that [ListenAndServe] sets. *)
Record tlsConfig := mkTlsConfig {
  MinVersion : N;
  MaxVersion : N;
  Certificates : list X509
}.

(** The loop [for _, c := range l.TLS.Certs] of [ListenAndServe]. *)
Fixpoint loadCerts (cs : list Certificate) (acc : list X509)
  : list X509 + string :=
  match cs with
  | [] => inl acc
  | c :: cs' =>
      match LoadX509KeyPair (CertFile c) (KeyFile c) with
      | inr err => inr err
      | inl cert => loadCerts cs' (acc ++ [cert])
      end
  end.

(** The server that [ListenAndServe] starts: with or without TLS, and
    with [TLSNextProto] set to an empty map (no HTTP/2) or left alone. *)
Inductive serving := ServeTLS | ServePlain.

Record started := mkStarted {
  config : tlsConfig;
  mode : serving;
  nextProtoEmptied : bool
}.

(** [func (l *Listener) ListenAndServe() error], up to the start of the
    server: the error on which it returns, or the server it starts before
    it waits for the shutdown. *)
Definition ListenAndServe (l : Listener) : started + string :=
  let tCfg :=
    match tls l with
    | Some t =>
        match Certs t with
        | Some cs =>
            match loadCerts cs [] with
            | inr err => inr err
            | inl certs =>
                inl {| MinVersion := MinTLSVersion t;
                       MaxVersion := MaxTLSVersion t;
                       Certificates := certs |}
            end
        | None =>
            inl {| MinVersion := 0; MaxVersion := 0; Certificates := [] |}
        end
    | None => inl {| MinVersion := 0; MaxVersion := 0; Certificates := [] |}
    end in
  match tCfg with
  | inr err => inr err
  | inl tCfg =>
      inl {| config := tCfg;
             mode := if decide (0 < length (Certificates tCfg))%nat
                     then ServeTLS else ServePlain;
             nextProtoEmptied := negb (HTTP2 l) |}
  end.

End serve.
End Server.

(* ================================================================== *)
(** * Observations on the balancers *)
(* ================================================================== *)

(** The counter of in-flight requests of the struct at address [p]. *)
Definition load (l : LC.LC) (p : nat) : option Z := LC.reqs <$> LC.mem l !! p.

(** Every counter is a Go [int]. *)
Definition counted (l : LC.LC) : Prop :=
  ∀ p z, load l p = Some z → GoInt.is_int z.

(** The counter of the entry in slot [i] of the heap. *)
Definition rq (l : LC.LC) (i : nat) : Z :=
  default 0 (LC.nodes l !! i ≫= load l).

(** The slot above slot [j] in the heap. *)
Definition parent (j : nat) : nat := ((j - 1) / 2)%nat.

(** The heap order on the first [n] slots: no entry has fewer requests in
    flight than the entry above it. *)
Definition ordered (l : LC.LC) (n : nat) : Prop :=
  ∀ j, (0 < j < n)%nat → rq l (parent j) ≤ rq l j.

(** The heap order but for slot [i], whose counter has changed: the order
    holds between the slots other than [i], and the slot above [i] is in
    order with the slots below it. *)
Definition loose (l : LC.LC) (n i : nat) : Prop :=
  (∀ j, (0 < j < n)%nat → j ≠ i → parent j ≠ i → rq l (parent j) ≤ rq l j) ∧
  (∀ j, (0 < j < n)%nat → parent j = i → (0 < i)%nat →
        rq l (parent i) ≤ rq l j).

(** Slot [i] is in order with the slots below it. *)
Definition settled (l : LC.LC) (n i : nat) : Prop :=
  ∀ j, (0 < j < n)%nat → parent j = i → rq l i ≤ rq l j.

(** The number of requests in a row that a node gets in a pass: its
    weight, and one when the weight is below one. *)
Definition share (n : Node) : nat := Z.to_nat (Z.max 1 (Weight n)).

Definition total_share (l : list Node) : nat :=
  foldr (λ n acc, (share n + acc)%nat) 0%nat l.

(** One full pass over the pool, every node for its share. *)
Definition pass_share (l : list Node) : list (option Node) :=
  l ≫= λ n, replicate (share n) (Some n).

(* ================================================================== *)
(** * Counting what a run of [Balance] returned *)
(* ================================================================== *)

(** How often the node [v] was returned in the run [out]. *)
Definition returns_of (v : Node) (out : list (option Node)) : nat :=
  length (filter (λ x, x = Some v) out).

(** How often the node [v] occurs in the pool [l]. *)
Definition copies (v : Node) (l : list Node) : nat :=
  length (filter (λ x, x = v) l).

(* THEOREMS *)

Section counting.

Lemma returns_of_app v l1 l2 :
  returns_of v (l1 ++ l2) = (returns_of v l1 + returns_of v l2)%nat.
Proof. unfold returns_of. by rewrite filter_app, length_app. Qed.

Lemma returns_of_perm v l1 l2 :
  l1 ≡ₚ l2 → returns_of v l1 = returns_of v l2.
Proof. unfold returns_of. by intros ->. Qed.

Lemma returns_of_Some v l : returns_of v (Some <$> l) = copies v l.
Proof.
  unfold returns_of, copies.
  induction l as [|x l IH]; [done|].
  rewrite fmap_cons, !filter_cons.
  destruct (decide (Some x = Some v)) as [Heq|Hne];
    destruct (decide (x = v)) as [Heq'|Hne']; simpl; try congruence.
Qed.

Lemma returns_of_replicate v w n :
  returns_of v (replicate n (Some w)) = if decide (w = v) then n else 0%nat.
Proof.
  unfold returns_of. induction n as [|n IH]; simpl.
  - by destruct (decide (w = v)).
  - rewrite filter_cons. destruct (decide (w = v)) as [->|Hne].
    + rewrite decide_True by done. simpl. by rewrite IH.
    + rewrite decide_False by congruence. done.
Qed.

Lemma copies_notin v l : v ∉ l → copies v l = 0%nat.
Proof.
  unfold copies. induction l as [|x l IH]; intros Hin; [done|].
  apply not_elem_of_cons in Hin as [Hne Hin].
  rewrite filter_cons, decide_False by congruence. by apply IH.
Qed.

Lemma copies_NoDup v l : NoDup l → v ∈ l → copies v l = 1%nat.
Proof.
  induction 1 as [|x l Hx Hl IH]; intros Hin.
  - by apply elem_of_nil in Hin.
  - unfold copies. rewrite filter_cons.
    destruct (decide (x = v)) as [->|Hne].
    + simpl. f_equal. by apply copies_notin.
    + apply elem_of_cons in Hin as [->|Hin]; [done|]. by apply IH.
Qed.

End counting.

(* ================================================================== *)
(** * Round-robin: the cursor invariant and fairness *)
(* ================================================================== *)

Section rr_facts.
Import RR.
#[local] Arguments Nat.modulo : simpl never.

Lemma find_key_lt k l e : find_key k l = Some e → (e < length l)%nat.
Proof.
  revert e. induction l as [|v l IH]; intros e; simpl; [done|].
  destruct (decide (k = nodeKey v)); [intros [= <-]; lia|].
  destruct (find_key k l) as [e'|]; simpl; [|done].
  intros [= <-]. specialize (IH e' eq_refl). lia.
Qed.

Lemma rr_delete_cursor_ok k r : cursor_ok r → cursor_ok (DeleteNode k r).
Proof.
  unfold cursor_ok, DeleteNode. intros Hok.
  destruct (find_key k (nodes r)) as [e|] eqn:He; [|done].
  apply find_key_lt in He. simpl. intros c.
  rewrite length_delete by (apply lookup_lt_is_Some; lia).
  destruct (decide (cur r = Some e)) as [Hc|Hc].
  - repeat case_decide; simpl; [done| |]; intros [= <-];
      repeat case_decide; lia.
  - destruct (cur r) as [j|] eqn:Hj; simpl; [|done].
    intros [= <-]. specialize (Hok j eq_refl).
    case_decide; [lia|]. assert (j ≠ e) by congruence. lia.
Qed.

Lemma rr_balance_cursor_ok r : cursor_ok r → cursor_ok (Balance r).2.
Proof.
  unfold Balance. intros Hok.
  destruct (nodes r) as [|v0 l] eqn:Hn; [done|].
  destruct ((v0 :: l) !! default 0%nat (cur r)) as [v|]; [|done].
  intros c. simpl. case_decide; [|done]. by intros [= <-].
Qed.

Lemma rr_step_cursor_ok r o : cursor_ok r → cursor_ok (step r o).
Proof.
  destruct o as [n|k|]; simpl.
  - unfold cursor_ok. simpl. intros Hok c Hc.
    rewrite length_app. specialize (Hok c Hc). lia.
  - apply rr_delete_cursor_ok.
  - apply rr_balance_cursor_ok.
Qed.

Lemma rr_reachable_cursor_ok r : reachable r → cursor_ok r.
Proof.
  intros [ops ->]. induction ops as [|o ops IH] using rev_ind.
  - by intros c.
  - rewrite foldl_app. simpl. by apply rr_step_cursor_ok.
Qed.

Lemma rr_start_lt r : cursor_ok r → nodes r ≠ [] → (start r < length (nodes r))%nat.
Proof.
  unfold cursor_ok, start. intros Hok Hne.
  destruct (cur r) as [c|]; simpl; [by apply Hok|].
  destruct (nodes r); [done|simpl; lia].
Qed.

(** One call: the node under the cursor, and the cursor one further,
    wrapping at the end of the list. *)
Lemma rr_balance_spec r :
  cursor_ok r → nodes r ≠ [] →
  (Balance r).1 = nodes r !! start r ∧
  nodes (Balance r).2 = nodes r ∧
  start (Balance r).2 = (S (start r) mod length (nodes r))%nat.
Proof.
  intros Hok Hne. pose proof (rr_start_lt r Hok Hne) as Hlt.
  unfold Balance, start in *.
  destruct (nodes r) as [|v0 l] eqn:Hn; [done|].
  destruct (lookup_lt_is_Some_2 (v0 :: l) _ Hlt) as [v Hv].
  rewrite Hv. simpl. split_and!; [done..|].
  case_decide as Hc; simpl in *.
  - by rewrite Nat.mod_small.
  - replace (S (default 0%nat (cur r))) with (S (length l)) by lia.
    symmetry. apply (Nat.Div0.mod_same (S (length l))).
Qed.

Lemma rr_balanceN_spec n r :
  cursor_ok r → nodes r ≠ [] →
  (BalanceN n r).1 =
    (λ j, nodes r !! ((start r + j) mod length (nodes r))%nat) <$> seq 0 n ∧
  nodes (BalanceN n r).2 = nodes r.
Proof.
  revert r. induction n as [|n IH]; intros r Hok Hne; [done|].
  destruct (rr_balance_spec r Hok Hne) as (H1 & H2 & H3).
  pose proof (rr_balance_cursor_ok r Hok) as Hok'.
  simpl. destruct (Balance r) as [v r1] eqn:Hb. simpl in *.
  destruct (IH r1 Hok' ltac:(by rewrite H2)) as [IH1 IH2].
  destruct (BalanceN n r1) as [vs r2]. simpl in *. subst v vs.
  split; [|congruence].
  rewrite Nat.add_0_r, (Nat.mod_small (start r))
    by (by apply rr_start_lt).
  f_equal. rewrite <- fmap_S_seq, <- list_fmap_compose.
  apply list_fmap_ext. intros _ j _. simpl. rewrite H2, H3.
  f_equal. rewrite Nat.Div0.add_mod_idemp_l. f_equal. lia.
Qed.

(** A block of [N] calls returns the pool, rotated to the cursor. *)
Lemma rr_block_perm (l : list Node) s :
  l ≠ [] →
  (λ j, l !! ((s + j) mod length l)%nat) <$> seq 0 (length l) ≡ₚ Some <$> l.
Proof.
  intros Hne.
  assert (Hrot : (λ j, l !! ((s + j) mod length l)%nat) <$> seq 0 (length l)
                 = Some <$> rotate s l).
  { apply list_eq. intros i. rewrite !list_lookup_fmap.
    destruct (decide (i < length l)%nat) as [Hi|Hi].
    - rewrite lookup_seq_lt by done. simpl.
      rewrite lookup_rotate_r by done. unfold rotate_nat_add.
      destruct (lookup_lt_is_Some_2 l (Z.to_nat ((Z.of_nat s + Z.of_nat i)
                  `mod` Z.of_nat (length l)))) as [x Hx].
      { pose proof (Z.mod_pos_bound (Z.of_nat s + Z.of_nat i)
                      (Z.of_nat (length l))).
        destruct l; [done|simpl in *; lia]. }
      rewrite Hx. simpl. rewrite <- Hx. do 2 f_equal.
      rewrite <- Nat2Z.inj_add, <- Nat2Z.inj_mod. by rewrite Nat2Z.id.
    - rewrite lookup_seq_ge by lia. simpl.
      rewrite lookup_ge_None_2; [done|]. rewrite length_rotate. lia. }
  rewrite Hrot. unfold rotate. apply fmap_Permutation.
  rewrite Permutation_app_comm. by rewrite take_drop.
Qed.

Lemma rr_cycle_count (l : list Node) s k v :
  l ≠ [] →
  returns_of v ((λ j, l !! ((s + j) mod length l)%nat)
                  <$> seq 0 (length l * k)) = (k * copies v l)%nat.
Proof.
  intros Hne. induction k as [|k IH].
  - by rewrite Nat.mul_0_r.
  - replace (length l * S k)%nat with (length l + length l * k)%nat by lia.
    rewrite seq_app, fmap_app, returns_of_app.
    rewrite (returns_of_perm _ _ _ (rr_block_perm l s Hne)), returns_of_Some.
    simpl. f_equal. rewrite <- IH. f_equal.
    replace (seq (length l) (length l * k))
      with (Nat.add (length l) <$> seq 0 (length l * k))
      by (rewrite fmap_add_seq; f_equal; lia).
    rewrite <- list_fmap_compose.
    apply list_fmap_ext. intros _ j _. simpl. f_equal.
    replace (s + (length l + j))%nat with (s + j + 1 * length l)%nat by lia.
    by rewrite Nat.Div0.mod_add.
Qed.

End rr_facts.

(** C6.  Round-robin fairness.  For every RR balancer a program can hold,
    with a pool of [N] nodes that stays unchanged, [N * k] consecutive
    calls of [Balance] walk the pool cyclically in insertion order, starting
    at the cursor: call [j] returns the node at position
    [(start + j) mod N].  Each node is therefore returned [k] times for each
    of its occurrences in the pool: exactly [k] times when the nodes of the
    pool are distinct, and exactly twice over [2 * N] calls.  The pool itself
    is left as it was. *)
Theorem rr_fairness (r : RR.RR) (k : nat) :
  RR.reachable r →
  let N := length (RR.nodes r) in
  let out := (RR.BalanceN (N * k) r).1 in
  (∀ j, (j < N * k)%nat →
        out !! j = Some (RR.nodes r !! ((RR.start r + j) mod N)%nat)) ∧
  (∀ v, returns_of v out = (k * copies v (RR.nodes r))%nat) ∧
  (NoDup (RR.nodes r) →
   ∀ v, v ∈ RR.nodes r →
        returns_of v out = k ∧
        returns_of v (RR.BalanceN (N * 2) r).1 = 2%nat) ∧
  RR.nodes (RR.BalanceN (N * k) r).2 = RR.nodes r.
Proof.
  intros Hr. cbv zeta. apply rr_reachable_cursor_ok in Hr.
  destruct (decide (RR.nodes r = [])) as [Hnil|Hne].
  - rewrite Hnil. simpl. split_and!; [|done| |done].
    + intros j Hj. lia.
    + intros _ v Hv. by apply elem_of_nil in Hv.
  - assert (Hcount : ∀ k' v,
        returns_of v (RR.BalanceN (length (RR.nodes r) * k') r).1
        = (k' * copies v (RR.nodes r))%nat).
    { intros k' v.
      rewrite (proj1 (rr_balanceN_spec _ r Hr Hne)).
      by apply rr_cycle_count. }
    destruct (rr_balanceN_spec (length (RR.nodes r) * k) r Hr Hne)
      as [Hout Hnodes].
    split_and!; [|by apply Hcount| |done].
    + intros j Hj. rewrite Hout, list_lookup_fmap.
      by rewrite lookup_seq_lt.
    + intros Hnd v Hv. rewrite !Hcount.
      rewrite (copies_NoDup v _ Hnd Hv). lia.
Qed.

Module RRExample.
Definition A := mkNode 1 (mkNodeKey "a" 80) 3.
Definition B := mkNode 2 (mkNodeKey "b" 80) 1.
Definition C := mkNode 3 (mkNodeKey "c" 80) 2.
Definition ops := [RR.OpAdd A; RR.OpAdd B; RR.OpAdd C].
Definition pool := foldl RR.step RR.NewRR ops.
End RRExample.

Lemma rr_fairness_witness :
  returns_of RRExample.B (RR.BalanceN 6 RRExample.pool).1 = 2%nat ∧
  (RR.BalanceN 6 RRExample.pool).1
  = Some <$> [RRExample.A; RRExample.B; RRExample.C;
              RRExample.A; RRExample.B; RRExample.C].
Proof.
  split; [|reflexivity].
  assert (Hr : RR.reachable RRExample.pool) by (by exists RRExample.ops).
  destruct (rr_fairness RRExample.pool 2 Hr) as (_ & _ & H & _).
  refine (proj1 (H _ RRExample.B _)).
  - apply (bool_decide_unpack _). vm_compute. exact I.
  - apply (bool_decide_unpack _). vm_compute. exact I.
Defined.

(* ================================================================== *)
(** * Weighted round-robin: the credit invariant and fairness *)
(* ================================================================== *)

Section wrr_facts.
Import WRR.

Lemma wrr_add_cursor_ok n r :
  GoInt.is_int (Weight n) → cursor_ok r → cursor_ok (AddNode n r).
Proof.
  intros Hn [Hw Hc]. split; simpl.
  - apply Forall_app. split; [done|by constructor].
  - intros e He. destruct (Hc e He) as (v & Hv & Hcr).
    exists v. split; [|done]. by apply lookup_app_l_Some.
Qed.

Lemma wrr_delete_cursor_ok k r : cursor_ok r → cursor_ok (DeleteNode k r).
Proof.
  intros [Hw Hc]. unfold DeleteNode.
  destruct (find_key k (nodes r)) as [e|] eqn:He; [|done].
  apply find_key_lt in He.
  destruct (decide (cur r = Some e)) as [Hce|Hce].
  - destruct (decide (length (nodes r) = 1%nat)) as [Hl|Hl].
    { split; simpl; [by apply Forall_delete|done]. }
    destruct (decide (S e = length (nodes r))) as [Hlast|Hlast].
    + destruct (lookup_lt_is_Some_2 (nodes r) 0) as [v Hv]; [lia|].
      rewrite Hv. split; simpl; [by apply Forall_delete|].
      intros c [= <-].
      exists v. split; [|lia]. rewrite list_lookup_delete_lt by lia. done.
    + destruct (lookup_lt_is_Some_2 (nodes r) (S e)) as [v Hv]; [lia|].
      rewrite Hv. split; simpl; [by apply Forall_delete|].
      intros c. case_decide; [|lia]. intros [= <-].
      exists v. split; [|lia]. rewrite list_lookup_delete_ge by lia. done.
  - split; simpl; [by apply Forall_delete|].
    intros c Hcur. destruct (cur r) as [j|] eqn:Hj; simpl in Hcur; [|done].
    destruct (Hc j eq_refl) as (v & Hv & Hcr).
    assert (j ≠ e) by congruence.
    exists v. split; [|done].
    case_decide; injection Hcur as <-.
    + rewrite list_lookup_delete_ge by lia.
      by replace (S (pred j)) with j by lia.
    + rewrite list_lookup_delete_lt by lia. done.
Qed.

Lemma wrr_balance_cursor_ok r : cursor_ok r → cursor_ok (Balance r).2.
Proof.
  intros Hok. pose proof Hok as [Hw Hc]. unfold Balance.
  destruct (nodes r) as [|front rest] eqn:Hn; [done|].
  destruct (cur r) as [e|] eqn:He.
  - destruct (Hc e eq_refl) as (v & Hv & Hcr). rewrite Hv.
    pose proof (GoInt.wrap64_is_int (reqCredit r - 1)) as Hwrap.
    case_decide as Hlow.
    + destruct ((front :: rest) !! S e) as [nxt|] eqn:Hnxt;
        (split; [done|]); simpl; [|done].
      intros c [= <-]. exists nxt. split; [done|lia].
    + split; [done|]. simpl. intros c [= <-]. exists v. split; [done|].
      intros Hv1. specialize (Hcr Hv1).
      pose proof (Forall_lookup_1 _ _ _ _ Hw Hv) as Hvi. simpl in Hvi.
      assert (Hid : GoInt.wrap64 (reqCredit r - 1) = reqCredit r - 1)
        by (apply GoInt.wrap64_id; unfold GoInt.is_int in *; lia).
      lia.
  - case_decide as Hone.
    + destruct rest as [|nxt rest']; (split; [done|]); simpl; [done|].
      intros c [= <-]. exists nxt. split; [done|lia].
    + split; [done|]. simpl. intros c [= <-]. exists front. split; [done|].
      intros _. apply Forall_cons in Hw as [Hf _].
      assert (Hid : GoInt.wrap64 (Weight front - 1) = Weight front - 1)
        by (apply GoInt.wrap64_id; unfold GoInt.is_int in *; lia).
      lia.
Qed.

Lemma wrr_reachable_cursor_ok r : reachable r → cursor_ok r.
Proof.
  intros (ops & Hops & ->).
  induction ops as [|o ops IH] using rev_ind.
  - split; [constructor|done].
  - apply Forall_app in Hops as [Hops Ho].
    apply (proj1 (Forall_singleton _ _)) in Ho.
    rewrite foldl_app. simpl. specialize (IH Hops).
    destruct o as [n|k|]; simpl.
    + apply wrr_add_cursor_ok; [exact Ho|exact IH].
    + by apply wrr_delete_cursor_ok.
    + by apply wrr_balance_cursor_ok.
Qed.

Lemma wrr_balanceN_add a b r :
  BalanceN (a + b) r =
    ((BalanceN a r).1 ++ (BalanceN b (BalanceN a r).2).1,
     (BalanceN b (BalanceN a r).2).2).
Proof.
  revert r. induction a as [|a IH]; intros r; simpl.
  - by destruct (BalanceN b r).
  - destruct (Balance r) as [v r1]. rewrite IH.
    by destruct (BalanceN a r1) as [vs r2].
Qed.

Lemma wrr_balanceN_length n r : length (BalanceN n r).1 = n.
Proof.
  revert r. induction n as [|n IH]; intros r; simpl; [done|].
  destruct (Balance r) as [v r1]. specialize (IH r1).
  destruct (BalanceN n r1) as [vs r2]. simpl in *. by rewrite IH.
Qed.

Lemma wrr_balance_nodes r : nodes (Balance r).2 = nodes r.
Proof.
  unfold Balance. destruct (nodes r) as [|front rest] eqn:Hn; [done|].
  destruct (cur r) as [e|].
  - destruct ((front :: rest) !! e); [|done].
    case_decide; [|done]. by destruct ((front :: rest) !! S e).
  - case_decide; [|done]. by destruct rest.
Qed.

Lemma wrr_balanceN_nodes n r : nodes (BalanceN n r).2 = nodes r.
Proof.
  revert r. induction n as [|n IH]; intros r; simpl; [done|].
  pose proof (wrr_balance_nodes r) as Hb.
  destruct (Balance r) as [v r1]. specialize (IH r1).
  destruct (BalanceN n r1) as [vs r2]. simpl in *. congruence.
Qed.

Lemma wrr_balanceN_cursor_ok n r : cursor_ok r → cursor_ok (BalanceN n r).2.
Proof.
  revert r. induction n as [|n IH]; intros r Hok; simpl; [done|].
  pose proof (wrr_balance_cursor_ok r Hok) as Hb.
  destruct (Balance r) as [v r1]. specialize (IH r1 Hb).
  by destruct (BalanceN n r1) as [vs r2].
Qed.

(** Cursor and credit once the element at position [e] has used up its
    credit: the next element with its full weight, or no cursor at the
    end of the list. *)
Definition advance (l : list Node) (e : nat) : option nat * Z :=
  match l !! S e with
  | Some nxt => (Some (S e), Weight nxt)
  | None => (None, 0)
  end.

(** A node holding a credit of [c + 1] is returned [c + 1] times in a
    row; the cursor then moves on. *)
Lemma wrr_run_credit c r e v :
  nodes r !! e = Some v → cur r = Some e →
  reqCredit r = Z.of_nat (S c) → GoInt.is_int (reqCredit r) →
  BalanceN (S c) r =
    (replicate (S c) (Some v),
     {| nodes := nodes r; cur := (advance (nodes r) e).1;
        reqCredit := (advance (nodes r) e).2 |}).
Proof.
  revert r. induction c as [|c IH]; intros r Hv Hcur Hcr Hint.
  - simpl. unfold Balance, advance.
    destruct (nodes r) as [|front rest] eqn:Hn; [done|].
    rewrite Hcur, Hv, Hcr. change (Z.of_nat 1 - 1) with 0.
    change (GoInt.wrap64 0) with 0. rewrite decide_True by lia.
    by destruct ((front :: rest) !! S e).
  - change (BalanceN (S (S c)) r)
      with (let '(v, r1) := Balance r in
            let '(vs, r2) := BalanceN (S c) r1 in (v :: vs, r2)).
    assert (Hb : Balance r =
                 (Some v, {| nodes := nodes r; cur := Some e;
                             reqCredit := Z.of_nat (S c) |})).
    { unfold Balance.
      destruct (nodes r) as [|front rest] eqn:Hn; [done|].
      rewrite Hcur, Hv, Hcr.
      replace (Z.of_nat (S (S c)) - 1) with (Z.of_nat (S c)) by lia.
      rewrite GoInt.wrap64_id by (unfold GoInt.is_int in *; lia).
      by rewrite decide_False by lia. }
    rewrite Hb. rewrite IH; simpl; try done.
    unfold GoInt.is_int in *. lia.
Qed.

(** From a cursor on [v] with credit [c + 1], the rest of the pass: [v]
    for the remaining credit, then every later node for its weight; the
    cursor ends unset. *)
Lemma wrr_run_from post :
  ∀ pre v r c,
    nodes r = pre ++ v :: post → cur r = Some (length pre) →
    reqCredit r = Z.of_nat (S c) → GoInt.is_int (reqCredit r) →
    Forall (λ n, 1 ≤ Weight n ∧ GoInt.is_int (Weight n)) post →
    (BalanceN (S c + total post) r).1
      = replicate (S c) (Some v) ++ pass post ∧
    cur (BalanceN (S c + total post) r).2 = None.
Proof.
  induction post as [|v' post IH]; intros pre v r c Hn Hcur Hcr Hint Hpost;
    rewrite wrr_balanceN_add;
    rewrite (wrr_run_credit c r (length pre) v);
    try done; try (rewrite Hn; apply list_lookup_middle; done);
    unfold advance; rewrite Hn; cbn [fst snd].
  - rewrite lookup_ge_None_2 by (rewrite length_app; simpl; lia). done.
  - replace ((pre ++ v :: v' :: post) !! S (length pre)) with (Some v').
    2:{ symmetry. rewrite cons_middle, app_assoc.
        apply list_lookup_middle. rewrite length_app. simpl. lia. }
    apply Forall_cons in Hpost as [[Hw1 Hwi] Hpost].
    destruct (Z.to_nat (Weight v')) as [|c'] eqn:Hc'; [lia|].
    cbn [fst snd].
    change (total (v' :: post)) with (Z.to_nat (Weight v') + total post)%nat.
    rewrite Hc'.
    destruct (IH (pre ++ [v]) v'
                {| nodes := pre ++ v :: v' :: post;
                   cur := Some (S (length pre));
                   reqCredit := Weight v' |} c') as [IH1 IH2];
      [ by cbn; rewrite cons_middle, app_assoc
      | cbn; rewrite length_app; cbn; f_equal; lia
      | cbn; lia | done | done | ].
    rewrite IH1, IH2. split; [|done]. rewrite replicate_S. do 2 f_equal.
    unfold pass. rewrite bind_cons. by rewrite Hc'.
Qed.

(** A full pass from an unset cursor. *)
Lemma wrr_run_pass r :
  cur r = None →
  Forall (λ n, 1 ≤ Weight n ∧ GoInt.is_int (Weight n)) (nodes r) →
  (BalanceN (total (nodes r)) r).1 = pass (nodes r) ∧
  cur (BalanceN (total (nodes r)) r).2 = None.
Proof.
  intros Hcur Hall.
  destruct (nodes r) as [|front rest] eqn:Hn; [done|].
  apply Forall_cons in Hall as [[Hw1 Hwi] Hrest].
  change (total (front :: rest))
    with (Z.to_nat (Weight front) + total rest)%nat.
  unfold pass. rewrite bind_cons. fold (pass rest).
  destruct (Z.to_nat (Weight front)) as [|w] eqn:Hw; [lia|].
  change (S w + total rest)%nat with (S (w + total rest)).
  change (BalanceN (S (w + total rest)) r)
    with (let '(v, r1) := Balance r in
          let '(vs, r2) := BalanceN (w + total rest) r1 in (v :: vs, r2)).
  unfold Balance. rewrite Hn, Hcur.
  destruct (decide (Weight front ≤ 1)) as [Hone|Hmore].
  - assert (w = 0%nat) as -> by lia.
    destruct rest as [|nxt rest'].
    + simpl. done.
    + apply Forall_cons in Hrest as [[Hn1 Hni] Hrest'].
      destruct (Z.to_nat (Weight nxt)) as [|c] eqn:Hc; [lia|].
      destruct (wrr_run_from rest' [front] nxt
                  {| nodes := front :: nxt :: rest'; cur := Some 1%nat;
                     reqCredit := Weight nxt |} c) as [H1 H2];
        simpl; try done; try lia.
      change (total (nxt :: rest'))
        with (Z.to_nat (Weight nxt) + total rest')%nat.
      rewrite Hc.
      destruct (BalanceN (S c + total rest') _) as [vs r2].
      simpl in *. by subst vs.
  - destruct w as [|c]; [lia|].
    destruct (wrr_run_from rest [] front
                {| nodes := front :: rest; cur := Some 0%nat;
                   reqCredit := GoInt.wrap64 (Weight front - 1) |} c)
      as [H1 H2];
      [ done | done
      | cbn; rewrite GoInt.wrap64_id by (unfold GoInt.is_int in *; lia); lia
      | apply GoInt.wrap64_is_int | done | ].
    destruct (BalanceN (S c + total rest) _) as [vs r2].
    cbn [fst snd] in *. by subst vs.
Qed.

Lemma total_app l1 l2 : total (l1 ++ l2) = (total l1 + total l2)%nat.
Proof. induction l1 as [|x l1 IH]; simpl; [done|]. rewrite IH. lia. Qed.

Lemma pass_app l1 l2 : pass (l1 ++ l2) = pass l1 ++ pass l2.
Proof. unfold pass. apply bind_app. Qed.

Lemma pass_cons x l :
  pass (x :: l) = replicate (Z.to_nat (Weight x)) (Some x) ++ pass l.
Proof. reflexivity. Qed.

Lemma pass_length l : length (pass l) = total l.
Proof.
  induction l as [|x l IH]; [done|].
  rewrite pass_cons, length_app, length_replicate, IH. done.
Qed.

Lemma returns_of_pass v l :
  returns_of v (pass l) = (Z.to_nat (Weight v) * copies v l)%nat.
Proof.
  induction l as [|x l IH]; [unfold returns_of, copies; simpl; lia|].
  rewrite pass_cons, returns_of_app, returns_of_replicate, IH.
  unfold copies. rewrite filter_cons.
  destruct (decide (x = v)) as [->|Hne]; simpl; lia.
Qed.

(** A window of one pass length, started anywhere, returns each node as
    often as a full pass does. *)
Lemma wrr_window_count r v :
  cursor_ok r → Forall (λ n, 1 ≤ Weight n) (nodes r) →
  returns_of v (BalanceN (total (nodes r)) r).1
  = returns_of v (pass (nodes r)).
Proof.
  intros [Hint Hc] Hpos.
  assert (Hall : Forall (λ n, 1 ≤ Weight n ∧ GoInt.is_int (Weight n))
                   (nodes r)) by (by apply Forall_and).
  destruct (cur r) as [e|] eqn:Hcur.
  2:{ by rewrite (proj1 (wrr_run_pass r Hcur Hall)). }
  destruct (Hc e eq_refl) as (v0 & Hv0 & Hcr).
  pose proof (Forall_lookup_1 _ _ _ _ Hall Hv0) as [Hw1 Hwi].
  specialize (Hcr Hw1).
  pose proof (take_drop_middle _ _ _ Hv0) as Hsplit.
  set (pre := take e (nodes r)) in *. set (post := drop (S e) (nodes r)) in *.
  assert (Hpre : length pre = e).
  { unfold pre. rewrite length_take. apply lookup_lt_Some in Hv0. lia. }
  rewrite <- Hsplit in Hall.
  apply Forall_app in Hall as [Hallpre Hallpost].
  apply Forall_cons in Hallpost as [_ Hallpost].
  destruct (Z.to_nat (reqCredit r)) as [|c] eqn:Hcn; [lia|].
  destruct (wrr_run_from post pre v0 r c) as [H1 H2];
    [ done | by rewrite Hpre | lia
    | unfold GoInt.is_int in *; lia | done | ].
  set (R := (total pre + (Z.to_nat (Weight v0) - S c))%nat).
  assert (Htot : total (nodes r) = ((S c + total post) + R)%nat).
  { rewrite <- Hsplit, total_app. simpl. unfold R. lia. }
  rewrite Htot, wrr_balanceN_add. cbn [fst]. rewrite H1.
  set (r' := (BalanceN (S c + total post) r).2) in *.
  assert (Hn' : nodes r' = nodes r) by apply wrr_balanceN_nodes.
  assert (Hrest : (BalanceN R r').1
                  = pass pre ++ replicate (Z.to_nat (Weight v0) - S c)
                                          (Some v0)).
  { assert (Hall' : Forall (λ n, 1 ≤ Weight n ∧ GoInt.is_int (Weight n))
                      (nodes r')) by (rewrite Hn'; by apply Forall_and).
    pose proof (proj1 (wrr_run_pass r' H2 Hall')) as Hp.
    rewrite Hn' in Hp.
    replace (total (nodes r)) with (R + (S c + total post))%nat in Hp by lia.
    rewrite wrr_balanceN_add in Hp. cbn [fst] in Hp.
    apply (f_equal (take R)) in Hp.
    rewrite take_app_length' in Hp by (by rewrite wrr_balanceN_length).
    rewrite Hp, <- Hsplit, pass_app, pass_cons.
    unfold R. rewrite take_app_add' by (by rewrite pass_length).
    f_equal. rewrite take_app_le
      by (rewrite length_replicate; lia).
    rewrite take_replicate. f_equal. lia. }
  rewrite Hrest, <- Hsplit, pass_app, pass_cons.
  rewrite !returns_of_app, !returns_of_replicate.
  destruct (decide (v0 = v)); lia.
Qed.

End wrr_facts.

(** C1.  Weighted round-robin fairness.  Take any WRR balancer a program can
    hold, whose pool is stable and has weights of at least 1, and let any
    number [m] of [Balance] calls go by.  The next [W] calls, [W] being the
    sum of the weights, return each node [v] [Weight v] times for each of
    its occurrences in the pool: exactly [Weight v] times when the nodes of
    the pool are distinct.  When the window starts a pass (the cursor is
    unset, as in a fresh balancer), it is the pool in list order with each
    node repeated contiguously [Weight] times; the cursor is unset again
    afterwards, so that the next call returns the head of the list. *)
Theorem wrr_fairness (r : WRR.WRR) (m : nat) :
  WRR.reachable r →
  Forall (λ n, 1 ≤ Weight n) (WRR.nodes r) →
  let W := WRR.total (WRR.nodes r) in
  let r' := (WRR.BalanceN m r).2 in
  let window := (WRR.BalanceN W r').1 in
  WRR.nodes r' = WRR.nodes r ∧
  (∀ v, returns_of v window
        = (Z.to_nat (Weight v) * copies v (WRR.nodes r))%nat) ∧
  (NoDup (WRR.nodes r) →
   ∀ v, v ∈ WRR.nodes r → Z.of_nat (returns_of v window) = Weight v) ∧
  (WRR.cur r' = None →
   window = WRR.pass (WRR.nodes r) ∧
   WRR.cur (WRR.BalanceN W r').2 = None ∧
   (WRR.Balance (WRR.BalanceN W r').2).1 = head (WRR.nodes r)).
Proof.
  intros Hr Hpos. cbv zeta.
  apply wrr_reachable_cursor_ok in Hr.
  pose proof (wrr_balanceN_cursor_ok m r Hr) as Hok'.
  pose proof (wrr_balanceN_nodes m r) as Hn'.
  set (r' := (WRR.BalanceN m r).2) in *.
  assert (Hcount : ∀ v, returns_of v (WRR.BalanceN (WRR.total (WRR.nodes r)) r').1
                        = (Z.to_nat (Weight v) * copies v (WRR.nodes r))%nat).
  { intros v. rewrite <- Hn' at 1.
    rewrite wrr_window_count by (by rewrite ?Hn').
    by rewrite returns_of_pass, Hn'. }
  split_and!; [done|done| |].
  - intros Hnd v Hv. rewrite Hcount, (copies_NoDup v _ Hnd Hv).
    pose proof (proj1 (Forall_forall _ _) Hpos v Hv). simpl in *. lia.
  - intros Hcur.
    assert (Hall : Forall (λ n, 1 ≤ Weight n ∧ GoInt.is_int (Weight n))
                     (WRR.nodes r'))
      by (rewrite Hn'; apply Forall_and; split; [done|apply Hr]).
    destruct (wrr_run_pass r' Hcur Hall) as [Hp Hc]. rewrite Hn' in Hp, Hc.
    split_and!; [done..|].
    pose proof (wrr_balanceN_nodes (WRR.total (WRR.nodes r)) r') as Hn''.
    rewrite Hn' in Hn''.
    unfold WRR.Balance. rewrite Hn'', Hc.
    destruct (WRR.nodes r) as [|front rest]; [done|].
    case_decide; [|done]. by destruct rest.
Qed.

Module WRRExample.
Definition A := mkNode 1 (mkNodeKey "a" 80) 3.
Definition B := mkNode 2 (mkNodeKey "b" 80) 1.
Definition C := mkNode 3 (mkNodeKey "c" 80) 2.
Definition ops := [WRR.OpAdd A; WRR.OpAdd B; WRR.OpAdd C].
Definition pool := foldl WRR.step WRR.NewWRR ops.
End WRRExample.

Lemma wrr_fairness_witness :
  (WRR.BalanceN 7 WRRExample.pool).1
  = Some <$> [WRRExample.A; WRRExample.A; WRRExample.A; WRRExample.B;
              WRRExample.C; WRRExample.C; WRRExample.A] ∧
  Z.of_nat (returns_of WRRExample.C
              (WRR.BalanceN 6 (WRR.BalanceN 2 WRRExample.pool).2).1) = 2.
Proof.
  split; [reflexivity|].
  assert (Hr : WRR.reachable WRRExample.pool).
  { exists WRRExample.ops. split; [|reflexivity].
    do 3 (constructor; [cbn; unfold GoInt.is_int; lia|]). constructor. }
  assert (Hpos : Forall (λ n, 1 ≤ Weight n) (WRR.nodes WRRExample.pool))
    by (do 3 (constructor; [cbn; lia|]); constructor).
  destruct (wrr_fairness WRRExample.pool 2 Hr Hpos) as (_ & _ & H & _).
  refine (H _ WRRExample.C _).
  - apply (bool_decide_unpack _). vm_compute. exact I.
  - apply (bool_decide_unpack _). vm_compute. exact I.
Defined.

(* ================================================================== *)
(** * Least connections: entries detached from the heap *)
(* ================================================================== *)

Section lc_facts.
Import LC.

Ltac res_simpl := cbn [mbind res_bind mret res_ret negb].

Lemma wrap64_small z : 0 ≤ z < 2 ^ 63 → GoInt.wrap64 z = z.
Proof. intros Hz. apply GoInt.wrap64_id. unfold GoInt.is_int. lia. Qed.

Lemma wrap64_high z : 2 ^ 63 ≤ z < 2 ^ 64 → GoInt.wrap64 z < 0.
Proof.
  intros Hz. unfold GoInt.wrap64.
  replace (z + 2 ^ 63) with (z - 2 ^ 63 + 1 * 2 ^ 64) by lia.
  rewrite Z.mod_add, Z.mod_small by lia. lia.
Qed.

Lemma at_index_nat l (i : nat) p :
  nodes l !! i = Some p → at_index l (Z.of_nat i) = Ok p.
Proof.
  intros Hp. unfold at_index. rewrite decide_True by lia.
  by rewrite Nat2Z.id, Hp.
Qed.

Lemma deref_Some l p c : mem l !! p = Some c → deref l p = Ok c.
Proof. intros Hc. unfold deref. by rewrite Hc. Qed.

Lemma store_Some l p f c :
  mem l !! p = Some c →
  store l p f = Ok {| nodes := nodes l; mem := <[p := f c]> (mem l) |}.
Proof. intros Hc. unfold store. by rewrite (deref_Some _ _ _ Hc). Qed.

(** Every slot of the slice points to an allocated struct. *)
Definition cells_ok (l : LC) : Prop :=
  ∀ j q, nodes l !! j = Some q → is_Some (mem l !! q).

Lemma Less_ok l (a b : nat) :
  cells_ok l → (a < length (nodes l))%nat → (b < length (nodes l))%nat →
  ∃ r, Less l (Z.of_nat a) (Z.of_nat b) = Ok r.
Proof.
  intros Hok Ha Hb.
  destruct (lookup_lt_is_Some_2 _ _ Ha) as [pa Hpa].
  destruct (lookup_lt_is_Some_2 _ _ Hb) as [pb Hpb].
  destruct (Hok _ _ Hpa) as [ca Hca]. destruct (Hok _ _ Hpb) as [cb Hcb].
  unfold Less. rewrite (at_index_nat _ _ _ Hpa), (at_index_nat _ _ _ Hpb).
  cbn. rewrite (deref_Some _ _ _ Hca). cbn.
  rewrite (deref_Some _ _ _ Hcb). cbn. eauto.
Qed.

(** [Swap] exchanges two slots; it allocates and frees nothing, and it
    writes only to the structs of the two slots. *)
Lemma Swap_ok l (a b : nat) pa pb :
  cells_ok l → nodes l !! a = Some pa → nodes l !! b = Some pb →
  ∃ m', Swap l (Z.of_nat a) (Z.of_nat b)
        = Ok {| nodes := <[b := pa]> (<[a := pb]> (nodes l)); mem := m' |} ∧
        (∀ q, is_Some (m' !! q) ↔ is_Some (mem l !! q)) ∧
        (∀ q, q ≠ pa → q ≠ pb → m' !! q = mem l !! q).
Proof.
  intros Hok Hpa Hpb.
  pose proof (lookup_lt_Some _ _ _ Hpa) as Ha.
  pose proof (lookup_lt_Some _ _ _ Hpb) as Hb.
  unfold Swap. rewrite (at_index_nat _ _ _ Hpa), (at_index_nat _ _ _ Hpb).
  cbn. rewrite !Nat2Z.id. set (h := <[b := pa]> (<[a := pb]> (nodes l))).
  assert (Hin : ∀ j q, h !! j = Some q → q = pa ∨ q = pb ∨ nodes l !! j = Some q).
  { intros j q. unfold h. rewrite !list_lookup_insert_Some.
    intros [(_ & <- & _)|(_ & [(_ & <- & _)|(_ & ?)])]; eauto. }
  assert (Hlen : length h = length (nodes l))
    by (unfold h; by rewrite !length_insert).
  destruct (lookup_lt_is_Some_2 h a) as [qa Hqa]; [lia|].
  destruct (lookup_lt_is_Some_2 h b) as [qb Hqb]; [lia|].
  assert (Hqa' : qa = pa ∨ qa = pb).
  { destruct (Hin _ _ Hqa) as [?|[?|?]]; [by left|by right|]. left. congruence. }
  assert (Hqb' : qb = pa ∨ qb = pb).
  { destruct (Hin _ _ Hqb) as [?|[?|?]]; [by left|by right|]. right. congruence. }
  assert (Hca : is_Some (mem l !! qa))
    by (destruct Hqa' as [->| ->]; eauto).
  destruct Hca as [ca Hca].
  rewrite (at_index_nat {| nodes := h; mem := mem l |} a qa Hqa). cbn.
  rewrite (store_Some {| nodes := h; mem := mem l |} qa _ ca Hca). cbn.
  set (m1 := <[qa := set_index (Z.of_nat a) ca]> (mem l)).
  rewrite (at_index_nat {| nodes := h; mem := m1 |} b qb Hqb). cbn.
  assert (Hcb : is_Some (m1 !! qb)).
  { unfold m1. apply lookup_insert_is_Some'. right.
    destruct Hqb' as [->| ->]; eauto. }
  destruct Hcb as [cb Hcb].
  rewrite (store_Some {| nodes := h; mem := m1 |} qb _ cb Hcb). cbn.
  eexists. split; [reflexivity|]. split.
  - intros q. unfold m1. rewrite !lookup_insert_is_Some'.
    split; [|by eauto]. intros [<-|[<-|?]]; [|by eauto|done].
    destruct Hqb' as [->| ->]; eauto.
  - intros q Hq1 Hq2. unfold m1.
    rewrite !lookup_insert_ne; [done|..];
      [destruct Hqa' as [->| ->]|destruct Hqb' as [->| ->]]; done.
Qed.

(** While [heap.Remove] restores the heap order below position [N], the
    entry [p] to remove waits in slot [N] and occurs nowhere else. *)
Definition parked (N p : nat) (l : LC) : Prop :=
  length (nodes l) = S N ∧ GoInt.is_int (Z.of_nat (S N)) ∧
  nodes l !! N = Some p ∧
  (∀ j, (j < N)%nat → nodes l !! j ≠ Some p) ∧
  cells_ok l.

Lemma Swap_parked N p l (a b : nat) :
  parked N p l → (a < N)%nat → (b < N)%nat →
  ∃ l', Swap l (Z.of_nat a) (Z.of_nat b) = Ok l' ∧ parked N p l'.
Proof.
  intros (Hlen & Hint & Hp & Hnp & Hok) Ha Hb.
  destruct (lookup_lt_is_Some_2 (nodes l) a) as [pa Hpa]; [lia|].
  destruct (lookup_lt_is_Some_2 (nodes l) b) as [pb Hpb]; [lia|].
  destruct (Swap_ok l a b pa pb Hok Hpa Hpb) as (m' & Hs & Hdom & _).
  eexists. split; [exact Hs|].
  assert (Hpa' : pa ≠ p) by (intros ->; by apply (Hnp a)).
  assert (Hpb' : pb ≠ p) by (intros ->; by apply (Hnp b)).
  unfold parked, cells_ok. cbn. split_and!.
  - by rewrite !length_insert.
  - done.
  - rewrite !list_lookup_insert_ne by lia. done.
  - intros j Hj. rewrite !list_lookup_insert_Some.
    intros [(_ & ? & _)|(_ & [(_ & ? & _)|(_ & ?)])]; [done|done|].
    by apply (Hnp j).
  - intros j q. rewrite !list_lookup_insert_Some. rewrite Hdom.
    intros [(_ & <- & _)|(_ & [(_ & <- & _)|(_ & ?)])]; eauto.
Qed.

(** ** The sift loops of container/heap

    [up] and [down] only ever call [Less] and [Swap] below the bound [N]:
    they return, and they keep whatever [Swap] keeps. *)
Section sift.
Variables (P : LC → Prop) (N : nat).
Hypothesis P_cells : ∀ l, P l → cells_ok l.
Hypothesis P_len :
  ∀ l, P l → (N ≤ length (nodes l))%nat ∧ GoInt.is_int (Z.of_nat N).
Hypothesis P_swap :
  ∀ l (a b : nat), P l → (a < N)%nat → (b < N)%nat →
                   ∃ l', Swap l (Z.of_nat a) (Z.of_nat b) = Ok l' ∧ P l'.

Lemma down_loop_inv fuel :
  ∀ l (i : nat),
    P l → (i < N)%nat → (N - i ≤ fuel)%nat →
    ∃ l' i', down_loop fuel l (Z.of_nat i) (Z.of_nat N) = Ok (l', i') ∧
             P l' ∧ Z.of_nat i ≤ i'.
Proof.
  induction fuel as [|fuel IH]; intros l i Hpk Hi Hfuel; [lia|].
  pose proof (P_cells l Hpk) as Hok.
  pose proof (P_len l Hpk) as [Hlen Hint].
  unfold GoInt.is_int in Hint.
  cbn [down_loop].
  destruct (decide (2 * Z.of_nat i + 1 < 2 ^ 63)) as [Hsmall|Hbig].
  2:{ rewrite decide_True; [eauto 6 with lia|].
      right. apply wrap64_high. lia. }
  rewrite (wrap64_small (2 * Z.of_nat i + 1)) by lia.
  case_decide as Hstop; [eauto 6 with lia|].
  rewrite (wrap64_small (2 * Z.of_nat i + 1 + 1)) by lia.
  replace (2 * Z.of_nat i + 1) with (Z.of_nat (2 * i + 1)) in * by lia.
  replace (Z.of_nat (2 * i + 1) + 1) with (Z.of_nat (2 * i + 2)) by lia.
  set (lt2 := if decide (Z.of_nat (2 * i + 2) < Z.of_nat N)
              then Less l (Z.of_nat (2 * i + 2)) (Z.of_nat (2 * i + 1))
              else Ok false).
  assert (Hlt2 : ∃ b2, lt2 = Ok b2 ∧
                       (b2 = true → (2 * i + 2 < N)%nat)).
  { unfold lt2. case_decide as Hj2; [|by exists false].
    destruct (Less_ok l (2 * i + 2) (2 * i + 1) Hok) as [b2 Hb2]; [lia..|].
    exists b2. split; [done|lia]. }
  destruct Hlt2 as (b2 & -> & Hb2). res_simpl.
  set (j := if b2 then (2 * i + 2)%nat else (2 * i + 1)%nat).
  replace (if b2 then Z.of_nat (2 * i + 2) else Z.of_nat (2 * i + 1))
    with (Z.of_nat j) by (unfold j; by destruct b2).
  assert (Hj : (i < j < N)%nat).
  { unfold j. destruct b2; [specialize (Hb2 eq_refl)|]; lia. }
  destruct (Less_ok l j i Hok) as [b Hb]; [lia..|].
  rewrite Hb. res_simpl. destruct b; res_simpl; [|eauto 6 with lia].
  destruct (P_swap l i j Hpk) as (l1 & Hs & Hpk1); [lia..|].
  rewrite Hs. res_simpl.
  destruct (IH l1 j Hpk1) as (l' & i' & Hd & Hpk' & Hle); [lia..|].
  exists l', i'. split_and!; [done|done|lia].
Qed.

Lemma up_inv fuel :
  ∀ l (j : nat),
    P l → (j < N)%nat → (j < fuel)%nat →
    ∃ l', up fuel l (Z.of_nat j) = Ok l' ∧ P l'.
Proof.
  induction fuel as [|fuel IH]; intros l j Hpk Hj Hfuel; [lia|].
  pose proof (P_cells l Hpk) as Hok.
  pose proof (P_len l Hpk) as [Hlen Hint].
  unfold GoInt.is_int in Hint.
  cbn [up].
  rewrite GoInt.wrap64_id by (unfold GoInt.is_int; lia).
  destruct j as [|j'].
  { change (Z.of_nat 0 - 1) with (-1). change (Z.quot (-1) 2) with 0.
    rewrite decide_True by done. eauto. }
  replace (Z.of_nat (S j') - 1) with (Z.of_nat j') by lia.
  replace (Z.quot (Z.of_nat j') 2) with (Z.of_nat (j' / 2)).
  2:{ rewrite Z.quot_div_nonneg by lia. by rewrite Nat2Z.inj_div. }
  pose proof (Nat.Div0.div_le_upper_bound j' 2 j' ltac:(lia)) as Hdiv.
  rewrite decide_False by lia.
  destruct (Less_ok l (S j') (j' / 2) Hok) as [b Hb]; [lia..|].
  rewrite Hb. res_simpl. destruct b; res_simpl; [|eauto].
  destruct (P_swap l (j' / 2) (S j') Hpk) as (l1 & Hs & Hpk1);
    [lia..|].
  rewrite Hs. res_simpl. apply IH; [done|lia..].
Qed.

End sift.

Lemma parked_len N p l :
  parked N p l → (N ≤ length (nodes l))%nat ∧ GoInt.is_int (Z.of_nat N).
Proof.
  intros (Hlen & Hint & _). unfold GoInt.is_int in *. lia.
Qed.

Lemma parked_cells N p l : parked N p l → cells_ok l.
Proof. by intros (_ & _ & _ & _ & Hok). Qed.

Lemma down_loop_parked N p fuel l (i : nat) :
  parked N p l → (i < N)%nat → (N - i ≤ fuel)%nat →
  ∃ l' i', down_loop fuel l (Z.of_nat i) (Z.of_nat N) = Ok (l', i') ∧
           parked N p l' ∧ Z.of_nat i ≤ i'.
Proof.
  apply (down_loop_inv (parked N p) N (parked_cells N p) (parked_len N p)).
  intros l0 a b. apply Swap_parked.
Qed.

Lemma up_parked N p fuel l (j : nat) :
  parked N p l → (j < N)%nat → (j < fuel)%nat →
  ∃ l', up fuel l (Z.of_nat j) = Ok l' ∧ parked N p l'.
Proof.
  apply (up_inv (parked N p) N (parked_cells N p) (parked_len N p)).
  intros l0 a b. apply Swap_parked.
Qed.

Lemma Pop_parked N p l :
  parked N p l →
  ∃ c, mem l !! p = Some c ∧
       Pop l = Ok (p, {| nodes := take N (nodes l);
                         mem := <[p := set_index (-1) c]> (mem l) |}).
Proof.
  intros (Hlen & Hint & Hp & Hnp & Hok).
  destruct (Hok _ _ Hp) as [c Hc]. exists c. split; [done|].
  unfold Pop, Len. rewrite Hlen.
  replace (Z.of_nat (S N) - 1) with (Z.of_nat N) by lia.
  rewrite (at_index_nat _ _ _ Hp). res_simpl.
  rewrite (store_Some _ _ _ _ Hc). res_simpl. cbn [nodes mem].
  by rewrite Nat2Z.id.
Qed.

Lemma wf_cells_ok l : wf l → cells_ok l.
Proof. intros [_ Hwf] j q Hq. destruct (Hwf _ _ Hq) as (c & Hc & _). eauto. Qed.

Lemma wf_unique l j j' q :
  wf l → nodes l !! j = Some q → nodes l !! j' = Some q → j = j'.
Proof.
  intros [_ Hwf] Hj Hj'.
  destruct (Hwf _ _ Hj) as (c & Hc & Hi).
  destruct (Hwf _ _ Hj') as (c' & Hc' & Hi'). simplify_eq. lia.
Qed.

Lemma find_entry_Some m k h p :
  find_entry m k h = Ok (Some p) → ∃ i, h !! i = Some p.
Proof.
  induction h as [|q h IH]; cbn; [done|].
  destruct (m !! q) as [c|]; [|done].
  case_decide.
  - intros [= <-]. by exists 0%nat.
  - intros Hf. destruct (IH Hf) as [i Hi]. by exists (S i).
Qed.

(** [heap.Fix] at index -1 touches nothing. *)
Lemma heap_Fix_detached fuel l :
  (0 < fuel)%nat → heap_Fix fuel l (-1) = Ok l.
Proof.
  intros Hfuel. destruct fuel as [|fuel]; [lia|].
  unfold heap_Fix, down. cbn [down_loop up].
  change (GoInt.wrap64 (2 * -1 + 1)) with (-1).
  rewrite decide_True by lia. res_simpl.
  rewrite bool_decide_false by lia. res_simpl.
  change (Z.quot (GoInt.wrap64 (-1 - 1)) 2) with (-1).
  by rewrite decide_True.
Qed.

(** The observer of a detached entry only decrements that entry. *)
Lemma monitor_detached fuel p l c :
  (0 < fuel)%nat → mem l !! p = Some c → index c = -1 →
  monitorRequestFinish fuel p l
  = Ok {| nodes := nodes l;
          mem := <[p := set_reqs (GoInt.wrap64 (reqs c - 1)) c]> (mem l) |}.
Proof.
  intros Hfuel Hc Hidx. unfold monitorRequestFinish.
  rewrite (deref_Some _ _ _ Hc). res_simpl.
  rewrite (store_Some _ _ _ _ Hc). res_simpl.
  erewrite deref_Some by (cbn; apply lookup_insert_eq).
  res_simpl. cbn [index set_reqs]. rewrite Hidx.
  by apply heap_Fix_detached.
Qed.

(** ** The invariant along the methods *)

(** [l] has the slots, the entries and the allocated structs of [l0]. *)
Definition shape (l0 l : LC) : Prop :=
  heap_inv l ∧
  length (nodes l) = length (nodes l0) ∧
  (∀ q, q ∈ nodes l ↔ q ∈ nodes l0) ∧
  (∀ q, is_Some (mem l !! q) ↔ is_Some (mem l0 !! q)).

Lemma shape_refl l : heap_inv l → shape l l.
Proof. by intros Hl. Qed.

Lemma set_index_id c : set_index (index c) c = c.
Proof. by destruct c. Qed.

Lemma Swap_shape l0 l (a b : nat) :
  shape l0 l → (a < length (nodes l))%nat → (b < length (nodes l))%nat →
  ∃ l', Swap l (Z.of_nat a) (Z.of_nat b) = Ok l' ∧ shape l0 l'.
Proof.
  intros ([Hwf Hout] & Hlen & Hel & Hdom) Ha Hb.
  destruct (lookup_lt_is_Some_2 _ _ Ha) as [pa Hpa].
  destruct (lookup_lt_is_Some_2 _ _ Hb) as [pb Hpb].
  destruct (proj2 Hwf _ _ Hpa) as (ca & Hca & Hia).
  destruct (proj2 Hwf _ _ Hpb) as (cb & Hcb & Hib).
  unfold Swap. rewrite (at_index_nat _ _ _ Hpa), (at_index_nat _ _ _ Hpb).
  res_simpl. rewrite !Nat2Z.id.
  destruct (decide (a = b)) as [->|Hab].
  - assert (pa = pb) as -> by congruence.
    rewrite !(list_insert_id _ _ _ Hpb).
    rewrite (at_index_nat {| nodes := nodes l; mem := mem l |} b pb Hpb).
    res_simpl.
    rewrite (store_Some {| nodes := nodes l; mem := mem l |} pb _ cb Hcb).
    res_simpl. cbn [nodes mem].
    assert (Hid : set_index (Z.of_nat b) cb = cb)
      by (rewrite <- Hib; apply set_index_id).
    rewrite Hid, (insert_id _ _ _ Hcb).
    rewrite (at_index_nat {| nodes := nodes l; mem := mem l |} b pb Hpb).
    res_simpl.
    rewrite (store_Some {| nodes := nodes l; mem := mem l |} pb _ cb Hcb).
    cbn [nodes mem]. rewrite Hid, (insert_id _ _ _ Hcb).
    eexists. split; [reflexivity|]. by destruct l.
  - assert (Hpab : pa ≠ pb)
      by (intros ->; by pose proof (wf_unique l a b pb Hwf Hpa Hpb)).
    set (h := <[b := pa]> (<[a := pb]> (nodes l))).
    assert (Hha : h !! a = Some pb).
    { unfold h. rewrite list_lookup_insert_ne by done.
      by rewrite list_lookup_insert_eq. }
    assert (Hhb : h !! b = Some pa).
    { unfold h. rewrite list_lookup_insert_eq; [done|].
      by rewrite length_insert. }
    assert (Hh : ∀ j q, h !! j = Some q ↔
              (j = b ∧ q = pa) ∨ (j = a ∧ q = pb) ∨
              (j ≠ a ∧ j ≠ b ∧ nodes l !! j = Some q)).
    { intros j q. unfold h. rewrite !list_lookup_insert_Some.
      rewrite length_insert. split.
      - intros [(<- & <- & _)|(? & [(<- & <- & _)|(? & ?)])]; eauto.
      - intros [(-> & ->)|[(-> & ->)|(? & ? & ?)]]; eauto 8. }
    rewrite (at_index_nat {| nodes := h; mem := mem l |} a pb Hha).
    res_simpl.
    rewrite (store_Some {| nodes := h; mem := mem l |} pb _ cb Hcb).
    res_simpl. cbn [nodes mem].
    set (m1 := <[pb := set_index (Z.of_nat a) cb]> (mem l)).
    rewrite (at_index_nat {| nodes := h; mem := m1 |} b pa Hhb).
    res_simpl.
    assert (Hca1 : m1 !! pa = Some ca)
      by (unfold m1; by rewrite lookup_insert_ne).
    rewrite (store_Some {| nodes := h; mem := m1 |} pa _ ca Hca1).
    cbn [nodes mem].
    set (m2 := <[pa := set_index (Z.of_nat b) ca]> m1).
    eexists. split; [reflexivity|].
    assert (Hm2 : ∀ q, q ≠ pa → q ≠ pb → m2 !! q = mem l !! q).
    { intros q ? ?. unfold m2, m1. by rewrite !lookup_insert_ne. }
    assert (Hel' : ∀ q, q ∈ h ↔ q ∈ nodes l).
    { intros q. rewrite !list_elem_of_lookup. split.
      - intros [j Hj]. apply Hh in Hj as [(-> & ->)|[(-> & ->)|(? & ? & ?)]];
          eauto.
      - intros [j Hj]. destruct (decide (j = a)) as [->|?].
        { exists b. apply Hh. left. split; congruence. }
        destruct (decide (j = b)) as [->|?].
        { exists a. apply Hh. right. left. split; congruence. }
        exists j. apply Hh. eauto 6. }
    unfold shape, heap_inv, wf, Len. cbn [nodes mem].
    assert (Hlh : length h = length (nodes l))
      by (unfold h; by rewrite !length_insert).
    split_and!.
    + rewrite Hlh. apply Hwf.
    + intros j q Hj.
      apply Hh in Hj as [(-> & ->)|[(-> & ->)|(Hja & Hjb & Hj)]].
      * exists (set_index (Z.of_nat b) ca). split; [|done].
        unfold m2. by rewrite lookup_insert_eq.
      * exists (set_index (Z.of_nat a) cb). split; [|done].
        unfold m2, m1. rewrite lookup_insert_ne by done.
        by rewrite lookup_insert_eq.
      * rewrite Hm2; [by apply Hwf| |]; intros ->.
        -- by pose proof (wf_unique l j a pa Hwf Hj Hpa).
        -- by pose proof (wf_unique l j b pb Hwf Hj Hpb).
    + intros q c Hq Hnin.
      assert (q ≠ pa)
        by (intros ->; apply Hnin, list_elem_of_lookup; eauto).
      assert (q ≠ pb)
        by (intros ->; apply Hnin, list_elem_of_lookup; eauto).
      rewrite Hm2 in Hq by done. apply (Hout q c Hq). by rewrite <- Hel'.
    + by rewrite Hlh.
    + intros q. by rewrite Hel'.
    + intros q. rewrite <- Hdom. unfold m2, m1.
      rewrite !lookup_insert_is_Some'. split; [|by eauto].
      intros [<-|[<-|?]]; eauto.
Qed.

Lemma heap_inv_cells l : heap_inv l → cells_ok l.
Proof. intros [Hwf _]. by apply wf_cells_ok. Qed.

Lemma shape_cells l0 l : shape l0 l → cells_ok l.
Proof. intros [Hinv _]. by apply heap_inv_cells. Qed.

Lemma shape_len l0 l :
  shape l0 l →
  (length (nodes l0) ≤ length (nodes l))%nat ∧
  GoInt.is_int (Z.of_nat (length (nodes l0))).
Proof.
  intros ([[Hint _] _] & Hlen & _). unfold Len in Hint.
  rewrite <- Hlen. split; [lia|done].
Qed.

Lemma shape_trans l0 l1 l2 : shape l0 l1 → shape l1 l2 → shape l0 l2.
Proof.
  intros (_ & Hl1 & He1 & Hd1) (Hi & Hl2 & He2 & Hd2).
  split_and!; [done|congruence|..].
  - intros q. by rewrite He2.
  - intros q. by rewrite Hd2.
Qed.

Lemma Swap_shape_below l0 l (a b : nat) :
  shape l0 l → (a < length (nodes l0))%nat → (b < length (nodes l0))%nat →
  ∃ l', Swap l (Z.of_nat a) (Z.of_nat b) = Ok l' ∧ shape l0 l'.
Proof.
  intros Hs Ha Hb. pose proof Hs as (_ & Hlen & _).
  apply Swap_shape; [done|lia..].
Qed.

(** [heap.Fix] at a slot of the heap returns and keeps the invariant. *)
Lemma heap_Fix_shape fuel l (i : nat) :
  heap_inv l → (i < length (nodes l))%nat → (length (nodes l) < fuel)%nat →
  ∃ l', heap_Fix fuel l (Z.of_nat i) = Ok l' ∧ shape l l'.
Proof.
  intros Hinv Hi Hfuel. unfold heap_Fix, down, Len.
  destruct (down_loop_inv (shape l) (length (nodes l)) (shape_cells l)
              (shape_len l) (Swap_shape_below l) fuel l i)
    as (l1 & i' & -> & Hs1 & _); [by apply shape_refl|lia..|].
  res_simpl. destruct (bool_decide (i' > Z.of_nat i)); res_simpl; [eauto|].
  apply (up_inv (shape l) (length (nodes l)) (shape_cells l)
           (shape_len l) (Swap_shape_below l)); [done|lia..].
Qed.

(** Writing [reqs] moves nothing. *)
Lemma store_reqs_shape l p c n :
  heap_inv l → mem l !! p = Some c →
  shape l {| nodes := nodes l; mem := <[p := set_reqs n c]> (mem l) |}.
Proof.
  intros [[Hint Hwf] Hout] Hc.
  unfold shape, heap_inv, wf, Len. cbn [nodes mem]. split_and!; try done.
  - intros i q Hq. destruct (Hwf _ _ Hq) as (cq & Hcq & Hi).
    destruct (decide (q = p)) as [->|Hne].
    + rewrite lookup_insert_eq. eexists. split; [done|]. cbn. congruence.
    + rewrite lookup_insert_ne by done. eauto.
  - intros q cq. destruct (decide (q = p)) as [->|Hne].
    + rewrite lookup_insert_eq. intros [= <-] Hnin. cbn. by eapply Hout.
    + rewrite lookup_insert_ne by done. apply Hout.
  - intros q. rewrite lookup_insert_is_Some'. split; [|by eauto].
    intros [<-|?]; eauto.
Qed.

Lemma Balance_shape fuel l :
  heap_inv l → (length (nodes l) < fuel)%nat →
  ∃ r l', Balance fuel l = Ok (r, l') ∧ shape l l'.
Proof.
  intros Hinv Hfuel. unfold Balance, Len.
  case_decide as Hempty; [by eauto using shape_refl|].
  destruct (lookup_lt_is_Some_2 (nodes l) 0) as [p Hp]; [lia|].
  destruct (heap_inv_cells l Hinv _ _ Hp) as [c Hc].
  pose proof (at_index_nat l 0 p Hp) as Hat.
  change (Z.of_nat 0) with 0 in Hat. rewrite Hat. res_simpl.
  rewrite (deref_Some _ _ _ Hc). res_simpl.
  rewrite (store_Some _ _ _ _ Hc). res_simpl.
  pose proof (store_reqs_shape l p c (GoInt.wrap64 (reqs c + 1)) Hinv Hc)
    as Hs1.
  destruct (heap_Fix_shape fuel _ 0 (proj1 Hs1)) as (l2 & HF & Hs2);
    [cbn; lia..|].
  change (Z.of_nat 0) with 0 in HF. rewrite HF. res_simpl.
  eauto using shape_trans.
Qed.

Lemma monitor_shape fuel p l l' :
  heap_inv l → (length (nodes l) < fuel)%nat →
  monitorRequestFinish fuel p l = Ok l' → shape l l'.
Proof.
  intros Hinv Hfuel. unfold monitorRequestFinish.
  destruct (mem l !! p) as [c|] eqn:Hc.
  2:{ assert (Hd : deref l p = Panic) by (unfold deref; by rewrite Hc).
      rewrite Hd. by res_simpl. }
  rewrite (deref_Some _ _ _ Hc). res_simpl.
  rewrite (store_Some _ _ _ _ Hc). res_simpl.
  pose proof (store_reqs_shape l p c (GoInt.wrap64 (reqs c - 1)) Hinv Hc)
    as Hs1.
  erewrite deref_Some by (cbn; apply lookup_insert_eq). res_simpl.
  cbn [index set_reqs].
  destruct (decide (p ∈ nodes l)) as [Hin|Hnin].
  - apply list_elem_of_lookup in Hin as [i Hi].
    destruct (proj2 (proj1 Hinv) _ _ Hi) as (c' & Hc' & Hidx).
    assert (c' = c) as -> by congruence. rewrite Hidx.
    destruct (heap_Fix_shape fuel _ i (proj1 Hs1)) as (l2 & -> & Hs2);
      [cbn; by eapply lookup_lt_Some|done|].
    intros [= <-]. eauto using shape_trans.
  - rewrite (proj2 Hinv p c Hc Hnin).
    rewrite heap_Fix_detached by lia. by intros [= <-].
Qed.

(** What a method may do to the slice and to the allocated structs: no
    struct is freed, and an entry of the slice was one before or is newly
    allocated. *)
Definition grows (l l' : LC) : Prop :=
  heap_inv l' ∧
  (∀ q, q ∈ nodes l' → q ∈ nodes l ∨ mem l !! q = None) ∧
  (∀ q, is_Some (mem l !! q) → is_Some (mem l' !! q)).

Lemma shape_grows l l' : shape l l' → grows l l'.
Proof.
  intros (Hinv & _ & Hel & Hdom). split_and!; [done|..].
  - intros q Hq. left. by apply Hel.
  - intros q Hq. by apply Hdom.
Qed.

(** [heap.Remove] at the slot of [p] returns [p], detached, and keeps the
    invariant. *)
Lemma heap_Remove_inv l (i : nat) p fuel :
  heap_inv l → nodes l !! i = Some p → (length (nodes l) < fuel)%nat →
  ∃ l', heap_Remove fuel l (Z.of_nat i) = Ok (p, l') ∧
        detached p l' ∧ grows l l'.
Proof.
  intros Hinv Hp Hfuel. pose proof (proj1 Hinv) as Hwf.
  pose proof (lookup_lt_Some _ _ _ Hp) as Hi.
  destruct (length (nodes l)) as [|N] eqn:Hlen; [lia|].
  pose proof (wf_cells_ok l Hwf) as Hok.
  assert (Hint : GoInt.is_int (Z.of_nat (S N))).
  { destruct Hwf as [Hint _]. unfold Len in Hint. by rewrite Hlen in Hint. }
  set (P := λ l', parked N p l' ∧ shape l l').
  assert (P_cells : ∀ l', P l' → cells_ok l') by (intros l' [H _]; apply H).
  assert (P_len : ∀ l', P l' → (N ≤ length (nodes l'))%nat ∧
                                GoInt.is_int (Z.of_nat N))
    by (intros l' [H _]; by eapply parked_len).
  assert (P_swap : ∀ l' (a b : nat), P l' → (a < N)%nat → (b < N)%nat →
            ∃ l'', Swap l' (Z.of_nat a) (Z.of_nat b) = Ok l'' ∧ P l'').
  { intros l' a b [Hpk Hs] Ha Hb.
    destruct (Swap_parked N p l' a b Hpk Ha Hb) as (l'' & HS & Hpk').
    destruct (Swap_shape_below l l' a b Hs) as (l''' & HS' & Hs');
      [lia..|].
    exists l''. split; [done|]. split; [done|]. congruence. }
  unfold heap_Remove, Len. rewrite Hlen.
  replace (Z.of_nat (S N) - 1) with (Z.of_nat N) by lia.
  assert (Hmid : ∃ l3,
    (if decide (Z.of_nat N ≠ Z.of_nat i)
     then l1 ← Swap l (Z.of_nat i) (Z.of_nat N);
          '(l2, moved) ← down fuel l1 (Z.of_nat i) (Z.of_nat N);
          if negb moved then up fuel l2 (Z.of_nat i) else Ok l2
     else Ok l) = Ok l3 ∧ P l3).
  { case_decide as Hne.
    - destruct (lookup_lt_is_Some_2 (nodes l) N) as [pl Hpl]; [lia|].
      destruct (Swap_ok l i N p pl Hok Hp Hpl) as (m' & Hs & Hdom & _).
      destruct (Swap_shape l l i N (shape_refl l Hinv))
        as (l1' & Hs' & Hshape1); [lia..|].
      rewrite Hs in Hs'. injection Hs' as <-.
      rewrite Hs. res_simpl.
      set (l1 := {| nodes := <[N:=p]> (<[i:=pl]> (nodes l)); mem := m' |})
        in *.
      assert (Hpk1 : parked N p l1).
      { unfold parked, cells_ok, l1. cbn. split_and!.
        - by rewrite !length_insert.
        - done.
        - rewrite list_lookup_insert_eq; [done|]. rewrite length_insert. lia.
        - intros j Hj. rewrite list_lookup_insert_ne by lia.
          rewrite list_lookup_insert_Some.
          intros [(Hji & Hplp & _)|(Hji & Hjp)].
          + subst pl. pose proof (wf_unique l N i p Hwf Hpl Hp). lia.
          + by pose proof (wf_unique l j i p Hwf Hjp Hp).
        - intros j q. rewrite !list_lookup_insert_Some, Hdom.
          intros [(_ & <- & _)|(_ & [(_ & <- & _)|(_ & ?)])]; eauto. }
      destruct (down_loop_inv P N P_cells P_len P_swap fuel l1 i)
        as (l2 & i' & Hd & HP2 & _); [done|lia..|].
      unfold down. rewrite Hd. res_simpl.
      destruct (bool_decide (i' > Z.of_nat i)); res_simpl; [eauto|].
      apply (up_inv P N P_cells P_len P_swap fuel l2 i HP2); lia.
    - exists l. split; [done|]. split; [|by apply shape_refl].
      assert (N = i) as -> by lia.
      unfold parked. split_and!; try done.
      intros j Hj Hjp. pose proof (wf_unique l j i p Hwf Hjp Hp). lia. }
  destruct Hmid as (l3 & -> & Hpk3 & Hs3). res_simpl.
  destruct (Pop_parked N p l3 Hpk3) as (c & Hc & ->).
  eexists. split; [reflexivity|].
  destruct Hpk3 as (Hlen3 & _ & Hp3 & Hnp3 & Hok3).
  destruct Hs3 as ([[_ Hwf3] Hout3] & _ & Hel3 & Hdom3).
  assert (Hnin : p ∉ take N (nodes l3)).
  { rewrite elem_of_take. intros (j & Hj & Hlt). by apply (Hnp3 j). }
  split; [split; [done|]; cbn; eexists; by rewrite lookup_insert_eq|].
  unfold grows, heap_inv, wf, Len. cbn [nodes mem]. split_and!.
  - rewrite length_take. unfold GoInt.is_int in *. lia.
  - intros j q Hj. apply lookup_take_Some in Hj as [Hj Hlt].
    rewrite lookup_insert_ne by (intros <-; by apply (Hnp3 j)).
    by apply Hwf3.
  - intros q cq. destruct (decide (q = p)) as [->|Hne].
    + rewrite lookup_insert_eq. by intros [= <-] _.
    + rewrite lookup_insert_ne by done. intros Hq Hq'.
      apply (Hout3 q cq Hq). rewrite list_elem_of_lookup. intros [j Hj].
      apply Hq', elem_of_take. exists j. split; [done|].
      pose proof (lookup_lt_Some _ _ _ Hj).
      destruct (decide (j = N)) as [->|?]; [congruence|lia].
  - intros q Hq. left. apply Hel3. apply elem_of_take in Hq as (j & Hj & _).
    by eapply list_elem_of_lookup_2.
  - intros q Hq. rewrite lookup_insert_is_Some'. right. by apply Hdom3.
Qed.

(** [DeleteNode] of a key held by the heap entry [p] detaches [p]. *)
Lemma DeleteNode_detaches l k p fuel :
  heap_inv l → find_entry (mem l) k (nodes l) = Ok (Some p) →
  (length (nodes l) < fuel)%nat →
  ∃ l', DeleteNode fuel k l = Ok l' ∧ detached p l' ∧ grows l l'.
Proof.
  intros Hinv Hf Hfuel. unfold DeleteNode. rewrite Hf. res_simpl.
  destruct (find_entry_Some _ _ _ _ Hf) as [i Hi].
  destruct (proj2 (proj1 Hinv) _ _ Hi) as (c & Hc & Hidx).
  rewrite (deref_Some _ _ _ Hc). res_simpl. rewrite Hidx.
  destruct (heap_Remove_inv l i p fuel Hinv Hi Hfuel) as (l' & -> & Hd & Hg).
  res_simpl. eauto.
Qed.

Lemma grows_refl l : heap_inv l → grows l l.
Proof. intros Hinv. by apply shape_grows, shape_refl. Qed.

Lemma AddNode_grows fuel n l :
  heap_inv l → GoInt.is_int (Len l + 1) → (length (nodes l) < fuel)%nat →
  ∃ l', AddNode fuel n l = Ok l' ∧ grows l l'.
Proof.
  intros [[Hint Hwf] Hout] Hint1 Hfuel.
  unfold AddNode, heap_Push, Push.
  set (nwr := fresh (dom (mem l))).
  assert (Hfresh : mem l !! nwr = None)
    by (apply not_elem_of_dom, is_fresh).
  set (c0 := {| node := n; reqs := 0; index := -1 |}).
  rewrite (store_Some _ nwr _ c0) by (cbn; apply lookup_insert_eq).
  res_simpl. cbn [nodes mem]. unfold Len at 1 2. cbn [nodes mem].
  set (l2 := {| nodes := nodes l ++ [nwr];
                mem := <[nwr := set_index (Z.of_nat (length (nodes l))) c0]>
                         (<[nwr := c0]> (mem l)) |}).
  assert (Hnin : nwr ∉ nodes l).
  { rewrite list_elem_of_lookup. intros [j Hj].
    destruct (Hwf _ _ Hj) as (c & Hc & _). congruence. }
  assert (Hinv2 : heap_inv l2).
  { unfold heap_inv, wf, Len, l2. cbn [nodes mem]. split_and!.
    - rewrite length_app. cbn. unfold Len in Hint1.
      by replace (Z.of_nat (length (nodes l) + 1))
        with (Z.of_nat (length (nodes l)) + 1) by lia.
    - intros j q Hj. apply lookup_app_Some in Hj as [Hj|[Hge Hj]].
      + assert (q ≠ nwr)
          by (intros ->; apply Hnin; by eapply list_elem_of_lookup_2).
        rewrite !lookup_insert_ne by done. by apply Hwf.
      + apply list_lookup_singleton_Some in Hj as [Hj <-].
        rewrite lookup_insert_eq. eexists. split; [done|]. cbn. lia.
    - intros q c Hq Hq'. apply not_elem_of_app in Hq' as [Hq1 Hq2].
      apply not_elem_of_cons in Hq2 as [Hne _].
      rewrite !lookup_insert_ne in Hq by done. by eapply Hout. }
  assert (Hlen2 : length (nodes l2) = S (length (nodes l)))
    by (unfold l2; cbn; rewrite length_app; cbn; lia).
  replace (Z.of_nat (length (nodes l ++ [nwr])) - 1)
    with (Z.of_nat (length (nodes l)))
    by (rewrite length_app; cbn; lia).
  destruct (up_inv (shape l2) (length (nodes l2)) (shape_cells l2)
              (shape_len l2) (Swap_shape_below l2) fuel l2
              (length (nodes l)))
    as (l' & -> & Hs'); [by apply shape_refl|lia..|].
  eexists. split; [reflexivity|].
  destruct Hs' as (Hinv' & _ & Hel & Hdom). split_and!; [done|..].
  - intros q Hq. apply Hel in Hq. unfold l2 in Hq. cbn in Hq.
    apply elem_of_app in Hq as [?|Hq]; [by left|].
    apply list_elem_of_singleton in Hq as ->. by right.
  - intros q Hq. apply Hdom. unfold l2. cbn.
    rewrite !lookup_insert_is_Some'. eauto.
Qed.

(** Every step keeps the invariant and only ever adds fresh entries. *)
Lemma exec_grows fuel o l l' :
  heap_inv l → (S (length (nodes l)) < fuel)%nat →
  GoInt.is_int (Len l + 1) →
  exec fuel o l = Ok l' → grows l l'.
Proof.
  intros Hinv Hfuel Hint. destruct o as [n|k| |p]; cbn [exec].
  - destruct (AddNode_grows fuel n l Hinv Hint) as (l'' & -> & Hg); [lia|].
    by intros [= <-].
  - destruct (find_entry (mem l) k (nodes l)) as [[p|]| |] eqn:Hf.
    + destruct (DeleteNode_detaches l k p fuel Hinv Hf)
        as (l'' & -> & _ & Hg); [lia|]. by intros [= <-].
    + unfold DeleteNode. rewrite Hf. res_simpl.
      intros [= <-]. by apply grows_refl.
    + unfold DeleteNode. rewrite Hf. by res_simpl.
    + unfold DeleteNode. rewrite Hf. by res_simpl.
  - destruct (Balance_shape fuel l Hinv) as (r & l'' & -> & Hs); [lia|].
    res_simpl. intros [= <-]. by apply shape_grows.
  - intros Hm. apply shape_grows.
    apply (monitor_shape fuel p l l' Hinv); [lia|done].
Qed.

Lemma grows_detached l l' p : grows l l' → detached p l → detached p l'.
Proof.
  intros ([_ Hout] & Hel & Hdom) (Hnin & c & Hc & _).
  assert (Hnin' : p ∉ nodes l').
  { intros Hin. destruct (Hel p Hin); [done|congruence]. }
  split; [done|].
  destruct (Hdom p) as [c' Hc']; [by eauto|].
  exists c'. split; [done|]. by eapply Hout.
Qed.

Lemma reaches_inv l0 l :
  reaches l0 l → heap_inv l0 →
  heap_inv l ∧ ∀ p, detached p l0 → detached p l.
Proof.
  induction 1 as [l|l0 l o fuel l' Hr IH Hfuel Hint Hex]; intros Hinv0.
  - done.
  - destruct (IH Hinv0) as [Hinv Hdet].
    pose proof (exec_grows fuel o l l' Hinv Hfuel Hint Hex) as Hg.
    split; [apply Hg|]. intros p Hp. eapply grows_detached; eauto.
Qed.

Lemma NewLC_inv : heap_inv NewLC.
Proof.
  unfold heap_inv, wf, NewLC, Len. cbn. split_and!; done.
Qed.

Lemma reachable_inv l : reachable l → heap_inv l.
Proof. intros Hr. by apply (reaches_inv NewLC l Hr NewLC_inv). Qed.

End lc_facts.

(** C5.  Least connections: deleting a node with a dispatch in flight.
    Take any LC balancer a program can hold and a key whose heap entry is
    [p].  [DeleteNode] returns (no panic) and detaches [p]: [p] has left
    the slice and its index is -1.  Whatever the balancer goes through
    afterwards, [p] stays detached, and when a completion observer holding
    [p] fires it returns (no panic) with the slice as it was, slot by slot,
    and with every struct as it was except that of [p], whose [reqs] is
    decremented while its node and its index stay. *)
Theorem lc_delete_in_flight (l : LC.LC) (k : NodeKey) (p fuel : nat) :
  LC.reachable l →
  LC.find_entry (LC.mem l) k (LC.nodes l) = Ok (Some p) →
  (length (LC.nodes l) < fuel)%nat →
  ∃ l1,
    LC.DeleteNode fuel k l = Ok l1 ∧
    LC.detached p l1 ∧
    ∀ l2,
      LC.reaches l1 l2 →
      LC.detached p l2 ∧
      ∀ fuel2,
        (0 < fuel2)%nat →
        ∃ c l3,
          LC.mem l2 !! p = Some c ∧
          LC.monitorRequestFinish fuel2 p l2 = Ok l3 ∧
          LC.nodes l3 = LC.nodes l2 ∧
          LC.mem l3 !! p
          = Some {| LC.node := LC.node c;
                    LC.reqs := GoInt.wrap64 (LC.reqs c - 1);
                    LC.index := -1 |} ∧
          (∀ q, q ≠ p → LC.mem l3 !! q = LC.mem l2 !! q) ∧
          (∀ q, q ∈ LC.nodes l3 → LC.mem l3 !! q = LC.mem l2 !! q).
Proof.
  intros Hr Hf Hfuel. pose proof (reachable_inv l Hr) as Hinv.
  destruct (DeleteNode_detaches l k p fuel Hinv Hf Hfuel)
    as (l1 & HD & Hdet & Hg).
  exists l1. split_and!; [done..|].
  intros l2 Hr2.
  destruct (reaches_inv l1 l2 Hr2 (proj1 Hg)) as [Hinv2 Hdet2].
  specialize (Hdet2 p Hdet). split; [done|].
  intros fuel2 Hfuel2. destruct Hdet2 as (Hnin & c & Hc & Hidx).
  exists c. eexists. split; [done|].
  rewrite (monitor_detached fuel2 p l2 c Hfuel2 Hc Hidx).
  split; [reflexivity|]. cbn [LC.nodes LC.mem]. split_and!.
  - done.
  - rewrite lookup_insert_eq. unfold LC.set_reqs. by rewrite Hidx.
  - intros q Hq. by rewrite lookup_insert_ne.
  - intros q Hq. rewrite lookup_insert_ne; [done|]. by intros ->.
Qed.

Module LCExample.
Definition A := mkNode 1 (mkNodeKey "a" 80) 1.
Definition B := mkNode 2 (mkNodeKey "b" 80) 1.
Definition run (o : LC.op) (l : LC.LC) : LC.LC :=
  match LC.exec 5 o l with Ok l' => l' | _ => l end.
(** Two nodes, one dispatch (it goes to [A], the entry at address 0). *)
Definition s1 := run (LC.OpAdd A) LC.NewLC.
Definition s2 := run (LC.OpAdd B) s1.
Definition s3 := run LC.OpBalance s2.
End LCExample.

Lemma lc_reach_example : LC.reachable LCExample.s3.
Proof.
  unfold LC.reachable.
  eapply (LC.reaches_step _ LCExample.s2 LC.OpBalance 5);
    [|vm_compute; lia|vm_compute; split; congruence|vm_compute; reflexivity].
  eapply (LC.reaches_step _ LCExample.s1 (LC.OpAdd LCExample.B) 5);
    [|vm_compute; lia|vm_compute; split; congruence|vm_compute; reflexivity].
  eapply (LC.reaches_step _ LC.NewLC (LC.OpAdd LCExample.A) 5);
    [|vm_compute; lia|vm_compute; split; congruence|vm_compute; reflexivity].
  apply LC.reaches_refl.
Defined.

Lemma lc_delete_in_flight_witness :
  ∃ l1, LC.DeleteNode 5 (nodeKey LCExample.A) LCExample.s3 = Ok l1 ∧
        LC.detached 0%nat l1.
Proof.
  destruct (lc_delete_in_flight LCExample.s3 (nodeKey LCExample.A) 0 5
              lc_reach_example)
    as (l1 & H1 & H2 & _); [vm_compute; reflexivity|vm_compute; lia|].
  exists l1. exact (conj H1 H2).
Defined.

(* ================================================================== *)
(** * The balancers as instances of the interface *)
(* ================================================================== *)

Section balancer_instances.

Lemma rr_members_add n (b b' : RR.RR) :
  Ok (RR.AddNode n b) = Ok b' →
  ∀ v, v ∈ RR.nodes b' → v = n ∨ v ∈ RR.nodes b.
Proof.
  intros [= <-] v. cbn. rewrite elem_of_app, list_elem_of_singleton. tauto.
Qed.

Lemma rr_members_delete k (b b' : RR.RR) :
  Ok (RR.DeleteNode k b) = Ok b' → ∀ v, v ∈ RR.nodes b' → v ∈ RR.nodes b.
Proof.
  intros [= <-] v. unfold RR.DeleteNode.
  destruct (find_key k (RR.nodes b)); [|done].
  cbn. apply list_elem_of_delete_inv.
Qed.

Lemma rr_members_balance (b : RR.RR) o b' :
  Ok (RR.Balance b) = Ok (o, b') →
  (∀ v, o = Some v → v ∈ RR.nodes b) ∧
  (∀ v, v ∈ RR.nodes b' → v ∈ RR.nodes b).
Proof.
  intros [= Hb]. unfold RR.Balance in Hb.
  destruct (RR.nodes b) as [|v0 l] eqn:Hn.
  { injection Hb as <- <-. by rewrite Hn. }
  destruct ((v0 :: l) !! default 0%nat (RR.cur b)) as [w|] eqn:Hw.
  - injection Hb as <- <-. split.
    + intros v [= <-]. by eapply list_elem_of_lookup_2.
    + done.
  - injection Hb as <- <-. by rewrite Hn.
Qed.

#[global] Instance RR_Balancer : Balancer RR.RR := {|
  bAddNode n b := Ok (RR.AddNode n b);
  bDeleteNode k b := Ok (RR.DeleteNode k b);
  bBalance b := Ok (RR.Balance b);
  members := RR.nodes;
  members_add := rr_members_add;
  members_delete := rr_members_delete;
  members_balance := rr_members_balance
|}.

Lemma wrr_members_add n (b b' : WRR.WRR) :
  Ok (WRR.AddNode n b) = Ok b' →
  ∀ v, v ∈ WRR.nodes b' → v = n ∨ v ∈ WRR.nodes b.
Proof.
  intros [= <-] v. cbn. rewrite elem_of_app, list_elem_of_singleton. tauto.
Qed.

Lemma wrr_members_delete k (b b' : WRR.WRR) :
  Ok (WRR.DeleteNode k b) = Ok b' → ∀ v, v ∈ WRR.nodes b' → v ∈ WRR.nodes b.
Proof.
  intros [= <-] v. unfold WRR.DeleteNode.
  destruct (find_key k (WRR.nodes b)); [|done].
  destruct (if decide (WRR.cur b = Some n) then _ else _) as [c cr].
  cbn. apply list_elem_of_delete_inv.
Qed.

Lemma wrr_balance_returns (b : WRR.WRR) v :
  (WRR.Balance b).1 = Some v → v ∈ WRR.nodes b.
Proof.
  unfold WRR.Balance. destruct (WRR.nodes b) as [|front rest]; [done|].
  destruct (WRR.cur b) as [e|].
  - destruct ((front :: rest) !! e) as [w|] eqn:Hw; [|done].
    assert (w ∈ front :: rest) by (by eapply list_elem_of_lookup_2).
    case_decide; [destruct ((front :: rest) !! S e)|]; by intros [= <-].
  - case_decide; [destruct rest|]; intros [= <-]; apply list_elem_of_here.
Qed.

Lemma wrr_members_balance (b : WRR.WRR) o b' :
  Ok (WRR.Balance b) = Ok (o, b') →
  (∀ v, o = Some v → v ∈ WRR.nodes b) ∧
  (∀ v, v ∈ WRR.nodes b' → v ∈ WRR.nodes b).
Proof.
  intros [= Hb]. split.
  - intros v ->. apply wrr_balance_returns. by rewrite Hb.
  - pose proof (wrr_balance_nodes b) as Hn. rewrite Hb in Hn. cbn in Hn.
    by rewrite Hn.
Qed.

#[global] Instance WRR_Balancer : Balancer WRR.WRR := {|
  bAddNode n b := Ok (WRR.AddNode n b);
  bDeleteNode k b := Ok (WRR.DeleteNode k b);
  bBalance b := Ok (WRR.Balance b);
  members := WRR.nodes;
  members_add := wrr_members_add;
  members_delete := wrr_members_delete;
  members_balance := wrr_members_balance
|}.

End balancer_instances.

(* ================================================================== *)
(** * Node groups: admission to the balancer is gated by the probe *)
(* ================================================================== *)

Section group_facts.
Import Group.
Context {B : Type} `{Balancer B}.

Lemma stateOf_setState (ng : NodeGroup B) n' s n :
  stateOf (setState ng n' s) n
  = if decide (addr n' = addr n) then s else stateOf ng n.
Proof.
  unfold stateOf, setState. cbn. case_decide as Ha.
  - by rewrite Ha, lookup_insert_eq.
  - by rewrite lookup_insert_ne.
Qed.

Lemma stateOf_addr (ng : NodeGroup B) n n' :
  addr n' = addr n → stateOf ng n' = stateOf ng n.
Proof. unfold stateOf. by intros ->. Qed.

(** The group's [AddNode] leaves the balancer alone. *)
Lemma AddNode_balancer n (ng : NodeGroup B) :
  balancer (AddNode n ng) = balancer ng.
Proof.
  destruct n as [n|]; [|done]. unfold AddNode, startNodeHealthChecker.
  by destruct (healthCheckerCancel _).
Qed.

Lemma AddNode_healthy n' (ng : NodeGroup B) n :
  healthy (stateOf (AddNode n' ng) n) = healthy (stateOf ng n).
Proof.
  destruct n' as [n'|]; [|done]. unfold AddNode, startNodeHealthChecker.
  destruct (healthCheckerCancel _); [done|].
  rewrite stateOf_setState. case_decide as Ha; [|done].
  cbn. f_equal. by apply (stateOf_addr (setNodes ng _)).
Qed.

(** Not admitted yet: unhealthy and outside the balancing pool. *)
Definition waiting (n : Node) (ng : NodeGroup B) : Prop :=
  healthy (stateOf ng n) = false ∧ n ∉ members (balancer ng).

Lemma step_waiting n (ng ng1 : NodeGroup B) e :
  waiting n ng → ¬ probed_ok (addr n) e → step ng e = Ok ng1 →
  waiting n ng1.
Proof.
  intros [Hh Hm] He. destruct e as [n'|k|n' o|]; cbn [step].
  - intros Heq.
    assert (ng1 = AddNode (Some n') ng) as -> by congruence. split.
    + by rewrite AddNode_healthy.
    + by rewrite AddNode_balancer.
  - unfold DeleteNode.
    destruct (stopNodeHealthChecker ng (nodes ng !! k)) as [ng'| |] eqn:Hs;
      [|done..].
    cbn [mbind res_bind].
    destruct (bDeleteNode k (balancer ng')) as [b| |] eqn:Hb; [|done..].
    cbn [mbind res_bind]. intros [= <-].
    assert (Hw' : waiting n ng').
    { unfold stopNodeHealthChecker in Hs.
      destruct (nodes ng !! k) as [n'|]; [|done].
      destruct (healthCheckerCancel (stateOf ng n')) eqn:Hc;
        injection Hs as <-; [|done].
      split; [|done]. rewrite stateOf_setState.
      case_decide as Ha; [|done]. cbn. by rewrite (stateOf_addr ng n n'). }
    destruct Hw' as [Hh' Hm']. split; [done|]. cbn.
    intros Hin. by apply Hm', (members_delete k _ b Hb).
  - unfold checkNodeHealth. destruct (nodes ng !! nodeKey n'); [|by intros [= <-]].
    destruct (healthy (stateOf ng n') && negb (probe_ok o)) eqn:Hdown.
    { destruct (bDeleteNode (nodeKey n') _) as [b| |] eqn:Hb; [|done..].
      cbn [mbind res_bind]. intros [= <-]. split.
      - unfold setBalancer. change (stateOf _ n)
          with (stateOf (setState ng n' {| healthy := false;
                  healthCheckerCancel :=
                    healthCheckerCancel (stateOf ng n') |}) n).
        rewrite stateOf_setState. by case_decide.
      - cbn. intros Hin. by apply Hm, (members_delete _ _ b Hb). }
    destruct (negb (healthy (stateOf ng n')) && probe_ok o) eqn:Hup;
      [|by intros [= <-]].
    apply andb_prop in Hup as [_ Hok].
    assert (Hne : addr n' ≠ addr n) by (intros Ha; apply He; by split).
    destruct (bAddNode n' _) as [b| |] eqn:Hb; [|done..].
    cbn [mbind res_bind]. intros [= <-]. split.
    + unfold setBalancer. change (stateOf _ n)
        with (stateOf (setState ng n' {| healthy := true;
                healthCheckerCancel :=
                  healthCheckerCancel (stateOf ng n') |}) n).
      rewrite stateOf_setState. by rewrite decide_False.
    + cbn. intros Hin.
      destruct (members_add n' _ b Hb n Hin) as [->|?]; done.
  - unfold roundTrip.
    destruct (bBalance (balancer ng)) as [[o b]| |] eqn:Hb; [|done..].
    cbn [mbind res_bind]. intros [= <-]. split; [done|]. cbn.
    intros Hin. by apply Hm, (members_balance _ _ _ Hb).
Qed.

Lemma run_waiting n tr :
  ∀ ng ng' : NodeGroup B,
    waiting n ng → Forall (λ e, ¬ probed_ok (addr n) e) tr →
    run ng tr = Ok ng' → waiting n ng'.
Proof.
  induction tr as [|e tr IH]; intros ng ng' Hw Hall; cbn [run].
  - by intros [= <-].
  - apply Forall_cons in Hall as [He Hall].
    destruct (step ng e) as [ng1| |] eqn:Hs; [|done..].
    cbn [mbind res_bind]. apply IH; [|done].
    by eapply step_waiting.
Qed.

End group_facts.

(** C3.  Health-gated admission.  Take a node group over any balancer and a
    node [n] that is unhealthy and outside the balancing pool, as every node
    is when it is built ([zeroState]) and handed to a new group.  Whatever
    happens to the group ([AddNode], [DeleteNode], probes of any node,
    requests), as long as no probe of [n] has come back without error and
    with status 200, [n] stays unhealthy and outside the pool, and no
    [roundTrip] selects it.  The group's [AddNode] itself leaves the
    balancer as it is and the node unhealthy. *)
Theorem health_gated_admission {B : Type} `{Balancer B}
    (ng0 ng : Group.NodeGroup B) (tr : list Group.event) (n : Node) :
  Group.healthy (Group.stateOf ng0 n) = false →
  n ∉ members (Group.balancer ng0) →
  Forall (λ e, ¬ Group.probed_ok (addr n) e) tr →
  Group.run ng0 tr = Ok ng →
  Group.healthy (Group.stateOf ng n) = false ∧
  (n ∉ members (Group.balancer ng)) ∧
  (∀ o ng', Group.roundTrip ng = Ok (o, ng') → o ≠ Some n) ∧
  Group.balancer (Group.AddNode (Some n) ng) = Group.balancer ng ∧
  Group.healthy (Group.stateOf (Group.AddNode (Some n) ng) n) = false ∧
  Group.healthy Group.zeroState = false.
Proof.
  intros Hh Hm Hall Hrun.
  destruct (run_waiting n tr ng0 ng (conj Hh Hm) Hall Hrun) as [Hh' Hm'].
  split_and!; [done|done| | | |done].
  - intros o ng'. unfold Group.roundTrip.
    destruct (bBalance (Group.balancer ng)) as [[o' b]| |] eqn:Hb; [|done..].
    cbn. intros Heq Ho. subst o.
    assert (o' = Some n) as -> by congruence.
    exact (Hm' (proj1 (members_balance _ _ _ Hb) n eq_refl)).
  - apply AddNode_balancer.
  - by rewrite AddNode_healthy.
Qed.

Module GroupExample.
Definition A := mkNode 1 (mkNodeKey "a" 80) 1.
(** A group as [routerControl] builds it, before its nodes are added. *)
Definition g0 : Group.NodeGroup RR.RR :=
  {| Group.Name := "g"; Group.HTTPS := false;
     Group.HealthCheck := Group.mkHealthCheckConfig "/" 5 3;
     Group.balancer := RR.NewRR; Group.nodes := ∅; Group.state := ∅ |}.
(** The node is added; its probe answers 500, then fails; a request. *)
Definition tr : list Group.event :=
  [Group.EvAddNode A; Group.EvProbe A (Group.ProbeStatus 500);
   Group.EvProbe A Group.ProbeErr; Group.EvRoundTrip].
Definition g1 : Group.NodeGroup RR.RR :=
  match Group.run g0 tr with Ok g => g | _ => g0 end.
End GroupExample.

Lemma health_gated_admission_witness :
  Group.run GroupExample.g0 GroupExample.tr = Ok GroupExample.g1 ∧
  GroupExample.A ∉ members (Group.balancer GroupExample.g1).
Proof.
  assert (Hrun : Group.run GroupExample.g0 GroupExample.tr
                 = Ok GroupExample.g1) by (vm_compute; reflexivity).
  split; [exact Hrun|].
  refine (proj1 (proj2 (health_gated_admission GroupExample.g0
            GroupExample.g1 GroupExample.tr GroupExample.A _ _ _ Hrun))).
  - vm_compute. reflexivity.
  - apply not_elem_of_nil.
  - repeat apply Forall_cons_2; [| | | |apply Forall_nil_2];
      cbn; intros Hp; try exact Hp; destruct Hp as [_ Hp]; discriminate Hp.
Defined.

(** C10.  Deleting a key the group does not hold.  [ng.nodes[nk]] is then
    a nil [*Node], [stopNodeHealthChecker] locks its [healthMu], and the
    group's [DeleteNode] panics.  The balancers' [DeleteNode] are
    different: on a key that no node of the pool has, RR, WRR and LC return
    with the balancer as it was. *)
Theorem group_delete_missing_key {B : Type} `{Balancer B}
    (ng : Group.NodeGroup B) (nk : NodeKey) :
  Group.nodes ng !! nk = None →
  Group.DeleteNode nk ng = Panic ∧
  Group.stopNodeHealthChecker ng (Group.nodes ng !! nk) = Panic ∧
  (∀ r, find_key nk (RR.nodes r) = None → RR.DeleteNode nk r = r) ∧
  (∀ r, find_key nk (WRR.nodes r) = None → WRR.DeleteNode nk r = r) ∧
  (∀ l fuel, LC.find_entry (LC.mem l) nk (LC.nodes l) = Ok None →
             LC.DeleteNode fuel nk l = Ok l).
Proof.
  intros Hnk. unfold Group.DeleteNode. rewrite Hnk. split_and!; try done.
  - intros r Hf. unfold RR.DeleteNode. by rewrite Hf.
  - intros r Hf. unfold WRR.DeleteNode. by rewrite Hf.
  - intros l fuel Hf. unfold LC.DeleteNode. by rewrite Hf.
Qed.

Lemma group_delete_missing_key_witness :
  Group.DeleteNode (mkNodeKey "b" 80) GroupExample.g0 = Panic.
Proof.
  refine (proj1 (group_delete_missing_key GroupExample.g0
                   (mkNodeKey "b" 80) _)).
  vm_compute. reflexivity.
Defined.

(* ================================================================== *)
(** * The health probe: its request and the configuration behind it *)
(* ================================================================== *)

Section probe_facts.
Import Group.

Definition no_delim (c : ascii) : bool := negb (is_delim c).
Definition no_query (c : ascii) : bool := negb (ends_path c).

Lemma after_scheme_scheme https rest :
  after_scheme (scheme_of https +:+ "://" +:+ rest) = Some rest.
Proof. by destruct https. Qed.

Lemma after_authority_app a b :
  string_all no_delim a = true →
  after_authority (a +:+ b) = after_authority b.
Proof.
  induction a as [|c a IH]; simpl; [done|].
  intros [Hc Ha]%andb_prop. unfold no_delim in Hc.
  destruct (is_delim c); [done|]. by apply IH.
Qed.

Lemma until_query_id s : string_all no_query s = true → until_query s = s.
Proof.
  induction s as [|c s IH]; simpl; [done|].
  intros [Hc Hs]%andb_prop. unfold no_query in Hc.
  destruct (ends_path c); [done|]. by rewrite IH.
Qed.

Lemma pretty_N_char_no_delim x : no_delim (pretty_N_char x) = true.
Proof. unfold pretty_N_char. by repeat case_match. Qed.

Lemma pretty_N_go_no_delim x s :
  string_all no_delim s = true → string_all no_delim (pretty_N_go x s) = true.
Proof.
  revert s. induction (N.lt_wf_0 x) as [x _ IH]; intros s Hs.
  assert (x = 0 ∨ 0 < x)%N as [->|?] by lia.
  - by rewrite pretty_N_go_0.
  - rewrite pretty_N_go_step by done. apply IH.
    { by apply N.div_lt. }
    cbn. by rewrite pretty_N_char_no_delim.
Qed.

(** A port number prints as decimal digits. *)
Lemma pretty_N_no_delim (x : N) : string_all no_delim (pretty x) = true.
Proof.
  unfold pretty, pretty_N. case_decide; [done|].
  by apply pretty_N_go_no_delim.
Qed.

Lemma seconds_exact x :
  0 ≤ x * Second < 2 ^ 63 → seconds x = x * Second.
Proof. intros Hx. unfold seconds. apply GoInt.wrap64_id. unfold GoInt.is_int. lia. Qed.

End probe_facts.

(** The parts of the probe URL.  For a host free of ["/"], ["?"] and
    ["#"] and a path free of ["?"] and ["#"], what follows the scheme is
    [host:port/path], and the path component of the URL is ["/"] followed
    by the configured path, which is never the configured path itself.
    The scheme is https exactly when the group's [HTTPS] flag is set, and
    the timeout is [Timeout] seconds whenever that product is a
    non-negative [int64]. *)
Lemma healthURL_parts (https : bool) (hc : Group.HealthCheckConfig) (n : Node) :
  Group.string_all no_delim (Host (nodeKey n)) = true →
  Group.string_all no_query (Group.Path hc) = true →
  (Group.scheme_of https = "https" ↔ https = true) ∧
  (Group.scheme_of https = "http" ↔ https = false) ∧
  Group.after_scheme (Group.healthURL https hc n)
  = Some (Host (nodeKey n) +:+ ":" +:+ pretty (Port (nodeKey n))
          +:+ "/" +:+ Group.Path hc) ∧
  Group.url_path (Group.healthURL https hc n) = "/" +:+ Group.Path hc ∧
  Group.url_path (Group.healthURL https hc n) ≠ Group.Path hc ∧
  (0 ≤ Group.Timeout hc * Group.Second < 2 ^ 63 →
   Group.healthTimeout hc = Group.Timeout hc * Group.Second).
Proof.
  intros Hhost Hpath.
  assert (Hp : Group.url_path (Group.healthURL https hc n)
               = "/" +:+ Group.Path hc).
  { unfold Group.url_path, Group.healthURL. rewrite after_scheme_scheme.
    rewrite (after_authority_app _ _ Hhost).
    change (":" +:+ pretty (Port (nodeKey n)) +:+ "/" +:+ Group.Path hc)
      with (String ":" (pretty (Port (nodeKey n)) +:+ "/" +:+ Group.Path hc)).
    cbn [Group.after_authority]. change (Group.is_delim ":") with false.
    cbv iota. rewrite (after_authority_app _ _ (pretty_N_no_delim _)).
    change ("/" +:+ Group.Path hc) with (String "/" (Group.Path hc)).
    cbn [Group.after_authority Group.until_query].
    change (Group.is_delim "/") with true. cbv iota.
    cbn [Group.until_query]. change (Group.ends_path "/") with false.
    cbv iota. by rewrite until_query_id. }
  split_and!.
  - by destruct https.
  - by destruct https.
  - apply after_scheme_scheme.
  - exact Hp.
  - rewrite Hp. intros Heq. apply (f_equal String.length) in Heq.
    change ("/" +:+ Group.Path hc) with (String "/" (Group.Path hc)) in Heq.
    cbn [String.length] in Heq. lia.
  - apply seconds_exact.
Qed.

(** C2 (what the code does).  A [health_check] object that the
    configuration leaves unset reaches the group as it is, with no default
    filled in: the interval is 0 and [time.NewTicker] panics in the
    health-check goroutine; the timeout is 0 seconds, not 3, and the
    request that [http.NewRequestWithContext] builds is bounded by it.
    Only the path behaves as the documented default: the empty path makes
    the probe URL end in ["/"]. *)
Theorem health_check_defaults_not_applied :
  let hc := Lb.routerHealthCheck Lb.unsetHealthCheck in
  hc = Group.mkHealthCheckConfig "" 0 0 ∧
  Group.healthTicker hc = Panic ∧
  Group.healthTicker (Group.mkHealthCheckConfig "/" 5 3) = Ok 5000000000 ∧
  Group.healthTimeout hc = 0 ∧
  Group.healthURL false hc GroupExample.A = "http://a:80/" ∧
  Group.url_path (Group.healthURL false hc GroupExample.A) = "/" ∧
  ∀ lib : Group.NetHTTP,
    Group.healthRequest false hc GroupExample.A
    = if Group.NewRequestWithContext "GET" "http://a:80/"
      then Ok (Group.mkProbeRequest "GET" "http://a:80/" 0)
      else Panic.
Proof. cbv zeta. split_and!; [vm_compute; reflexivity..|]. intros lib. reflexivity. Qed.

(** C4 (what the code does).  The format of the probe URL puts a ["/"]
    before the configured path, whatever the path is.  With the path
    ["/health"] the URL is ["http://a:80//health"]: the function panics
    when [http.NewRequestWithContext] refuses it, and otherwise sends a
    GET, bounded by 3 seconds, whose path component is ["//health"] and
    not the configured path.  With the path ["/"], which the doc comment
    of [HealthCheckConfig] gives as the default, the probe goes to
    ["http://a:80//"]. *)
Theorem probe_path_gets_extra_slash :
  let hc := Group.mkHealthCheckConfig "/health" 5 3 in
  let u := "http://a:80//health" in
  Group.healthURL false hc GroupExample.A = u ∧
  Group.url_path u = "//health" ∧
  Group.url_path u ≠ Group.Path hc ∧
  (∀ lib : Group.NetHTTP,
     Group.healthRequest false hc GroupExample.A
     = if Group.NewRequestWithContext "GET" u
       then Ok (Group.mkProbeRequest "GET" u 3000000000)
       else Panic) ∧
  Group.healthURL false (Group.mkHealthCheckConfig "/" 5 3) GroupExample.A
  = "http://a:80//" ∧
  Group.url_path "http://a:80//" = "//".
Proof.
  cbv zeta. split_and!; try (intros; vm_compute; reflexivity).
  vm_compute. discriminate.
Qed.

(* ================================================================== *)
(** * The evaluator: conditions *)
(* ================================================================== *)

Section condition_facts.
Import Evaluator.
Context `{GoLib}.

(** No case of the [switch] reads the [Not] flag. *)
Lemma evaluateCondType_flipNot r c :
  evaluateCondType r (flipNot c) = evaluateCondType r c.
Proof. reflexivity. Qed.

Lemma neq_is_xor (a b : bool) : negb (Bool.eqb a b) = xorb a b.
Proof. by destruct a, b. Qed.

Lemma evaluateCondition_inv r c ret err r1 :
  evaluateCondition r c = Ok ((ret, err), r1) →
  ∃ base, evaluateCondType r c = Ok ((base, err), r1) ∧
          ret = xorb base (Not c).
Proof.
  unfold evaluateCondition.
  destruct (evaluateCondType r c) as [[[base err'] r']| |]; [|done..].
  cbn. intros [= <- <- <-]. exists base. by rewrite neq_is_xor.
Qed.

End condition_facts.

(** C9.  Whenever evaluating the condition [c] on the request [r] ends
    without error, its result is the result of the predicate that the
    condition's type selects, XOR the [Not] flag.  The predicate does not
    read the flag, so that [c] with its flag flipped evaluates without
    error too, on the same request afterwards, to the opposite result. *)
Theorem condition_not_xor `{Evaluator.GoLib}
    (r : Evaluator.Request) (c : Evaluator.Condition) (ret : bool)
    (r1 : Evaluator.Request) :
  Evaluator.evaluateCondition r c = Ok ((ret, None), r1) →
  ∃ base,
    Evaluator.evaluateCondType r c = Ok ((base, None), r1) ∧
    ret = xorb base (Evaluator.Not c) ∧
    Evaluator.evaluateCondition r (Evaluator.flipNot c)
    = Ok ((negb ret, None), r1) ∧
    ∀ ret' err' r2,
      Evaluator.evaluateCondition r (Evaluator.flipNot c)
      = Ok ((ret', err'), r2) →
      err' = None ∧ ret' ≠ ret.
Proof.
  intros He. destruct (evaluateCondition_inv r c ret None r1 He)
    as (base & Hb & ->).
  assert (Hflip : Evaluator.evaluateCondition r (Evaluator.flipNot c)
                  = Ok ((negb (xorb base (Evaluator.Not c)), None), r1)).
  { unfold Evaluator.evaluateCondition.
    rewrite evaluateCondType_flipNot, Hb. cbn.
    by destruct base, (Evaluator.Not c). }
  exists base. split_and!; [done..|].
  intros ret' err' r2. rewrite Hflip. intros [= <- <- <-].
  split; [done|]. by destruct (xorb base (Evaluator.Not c)).
Qed.

Module EvalExample.
Import Evaluator.

Definition lowerChar (c : ascii) : ascii :=
  let n := nat_of_ascii c in
  if ((65 <=? n) && (n <=? 90))%nat then ascii_of_nat (n + 32) else c.

Fixpoint lower (s : string) : string :=
  match s with
  | EmptyString => EmptyString
  | String c s' => String (lowerChar c) (lower s')
  end.

(** A library for the examples: it lower-cases the ASCII letters.  The
    examples use no regular expression, no form and no CIDR block; for
    these it answers with an error. *)
#[local] Instance lib : GoLib := {|
  IPAddr := string;
  IPNet := string;
  ToLower := lower;
  MatchString := λ _ _, (false, Some "regexp: not available");
  ParseForm := λ r, (Some "form: not available", r);
  ParseCIDR := λ _, inr "invalid CIDR address";
  ParseIP := λ s, s;
  Contains := λ _ _, false
|}.

(** A GET of [/X] that arrived on the listener [:81]. *)
Definition req : Request :=
  {| EscapedPath := "/X"; URLQuery := ∅; Body := BodyData "";
     PostForm := None; HeaderMap := ∅; RemoteAddr := "10.0.0.1:4242";
     ArrivalListener := Some ":81" |}.

Definition pathX : Condition := mkCondition false Path "" Equal "/x".
Definition ipEqual : Condition := mkCondition false IP "" Equal "10.0.0.0/8".
Definition forward : Action := mkAction "group" (mkReject 0 "") "".

(** Its only condition compares an IP with [Equal], which [evaluateCondIP]
    refuses. *)
Definition broken : Rule := mkRule 1 1 ":81" [ipEqual] forward "".
(** A rule without conditions. *)
Definition catchAll : Rule := mkRule 2 2 ":81" [] forward "".

End EvalExample.

Lemma condition_not_xor_witness :
  Evaluator.evaluateCondition (H := EvalExample.lib) EvalExample.req
    (Evaluator.flipNot EvalExample.pathX)
  = Ok ((false, None), EvalExample.req).
Proof.
  destruct (condition_not_xor (H := EvalExample.lib) EvalExample.req
              EvalExample.pathX true EvalExample.req)
    as (base & _ & _ & Hflip & _).
  - vm_compute. reflexivity.
  - exact Hflip.
Defined.

(* ================================================================== *)
(** * The evaluator: the rule list *)
(* ================================================================== *)

Section rule_list_facts.
Import Evaluator.

(** Non-decreasing priority. *)
Definition by_priority (a b : Rule) : Prop := Priority a ≤ Priority b.

Lemma insertStable_elem x l y :
  y ∈ insertStable x l → y = x ∨ y ∈ l.
Proof.
  induction l as [|z l IH]; cbn.
  - rewrite list_elem_of_singleton. tauto.
  - case_decide.
    + rewrite !elem_of_cons. intros [->|Hin]; [tauto|].
      destruct (IH Hin); tauto.
    + rewrite !elem_of_cons. tauto.
Qed.

Lemma insertStable_sorted x l :
  StronglySorted by_priority l → StronglySorted by_priority (insertStable x l).
Proof.
  induction 1 as [|y l Hl IH Hy]; cbn.
  - repeat constructor.
  - case_decide as Hlt.
    + constructor; [done|]. apply Forall_forall. intros z Hz.
      destruct (insertStable_elem _ _ _ Hz) as [->|Hz'].
      * unfold by_priority. lia.
      * by apply (proj1 (Forall_forall _ _) Hy).
    + constructor; [by constructor|]. constructor.
      * unfold by_priority. lia.
      * eapply Forall_impl; [exact Hy|]. unfold by_priority. intros z. lia.
Qed.

Lemma SliceStable_sorted l : StronglySorted by_priority (SliceStable l).
Proof.
  induction l as [|x l IH]; [constructor|].
  change (SliceStable (x :: l)) with (insertStable x (SliceStable l)).
  by apply insertStable_sorted.
Qed.

(** Stability: among the rules of one priority, the inserted rule comes
    first and the others keep their order. *)
Lemma insertStable_of_priority p x l :
  of_priority p (insertStable x l) = of_priority p (x :: l).
Proof.
  unfold of_priority. induction l as [|y l IH]; cbn; [done|].
  case_decide as Hlt; [|done].
  rewrite filter_cons, IH, !filter_cons.
  destruct (decide (Priority y = p)), (decide (Priority x = p)); try done.
  lia.
Qed.

Lemma SliceStable_of_priority p l :
  of_priority p (SliceStable l) = of_priority p l.
Proof.
  induction l as [|x l IH]; [done|].
  change (SliceStable (x :: l)) with (insertStable x (SliceStable l)).
  rewrite insertStable_of_priority. unfold of_priority in *.
  by rewrite !filter_cons, IH.
Qed.

Lemma DeleteRule_sorted r l :
  StronglySorted by_priority l → StronglySorted by_priority (DeleteRule r l).
Proof.
  induction 1 as [|y l Hl IH Hy]; cbn; [constructor|].
  case_decide; [done|]. constructor; [done|].
  apply Forall_forall. intros z Hz.
  apply (proj1 (Forall_forall _ _) Hy).
  clear -Hz. induction l as [|w l IHl]; cbn in Hz; [done|].
  case_decide; [by right|].
  apply elem_of_cons in Hz as [->|Hz]; [by left|right; by apply IHl].
Qed.

Lemma DeleteRule_of_priority_ne p r l :
  Priority r ≠ p → of_priority p (DeleteRule r l) = of_priority p l.
Proof.
  intros Hne. unfold of_priority.
  induction l as [|y l IH]; cbn [DeleteRule]; [done|].
  case_decide as Hy.
  - subst y. by rewrite filter_cons, decide_False.
  - by rewrite !filter_cons, IH.
Qed.

Lemma DeleteRule_of_priority_eq r l :
  of_priority (Priority r) (DeleteRule r l)
  = DeleteRule r (of_priority (Priority r) l).
Proof.
  unfold of_priority. induction l as [|y l IH]; cbn [DeleteRule]; [done|].
  case_decide as Hy.
  - subst y. rewrite filter_cons, decide_True by done.
    cbn [DeleteRule]. by rewrite decide_True.
  - rewrite !filter_cons. case_decide as Hp; [|done].
    cbn [DeleteRule]. by rewrite decide_False, IH.
Qed.

Lemma DeleteRule_of_priority p r l l' :
  of_priority p l = of_priority p l' →
  of_priority p (DeleteRule r l) = of_priority p (DeleteRule r l').
Proof.
  intros Heq. destruct (decide (Priority r = p)) as [<-|Hne].
  - by rewrite !DeleteRule_of_priority_eq, Heq.
  - by rewrite !DeleteRule_of_priority_ne.
Qed.

End rule_list_facts.

(** C8.  After any sequence of [AddRule] and [DeleteRule] calls on a new
    evaluator, the rule list is sorted by non-decreasing priority, and for
    every priority the rules of that priority stand in the list in the
    order in which they were added.  [evaluateRequest] walks the list from
    its head, so that it considers them in that order. *)
Theorem rules_stably_sorted (ops : list Evaluator.op) :
  let e := foldl Evaluator.step [] ops in
  StronglySorted by_priority e ∧
  ∀ p, Evaluator.of_priority p e
       = Evaluator.of_priority p (Evaluator.added ops).
Proof.
  cbv zeta. induction ops as [|o ops IH] using rev_ind.
  - split; [constructor|done].
  - destruct IH as [IHs IHp]. unfold Evaluator.added in *.
    rewrite !foldl_app. cbn [foldl].
    destruct o as [r|r]; cbn [Evaluator.step].
    + split; [apply SliceStable_sorted|]. intros p.
      unfold Evaluator.AddRule. rewrite SliceStable_of_priority.
      unfold Evaluator.of_priority in *. by rewrite !filter_app, IHp.
    + split; [by apply DeleteRule_sorted|]. intros p.
      by apply DeleteRule_of_priority.
Qed.

(* ================================================================== *)
(** * The evaluator: rule matching *)
(* ================================================================== *)

Section matching_facts.
Import Evaluator.
Context `{GoLib}.

Lemma evaluateConditions_cons r c cs :
  evaluateConditions r (c :: cs)
  = '((ret, err), r1) ← evaluateCondition r c;
    match err with
    | Some e => Ok ((false, Some e), r1)
    | None => if negb ret then Ok ((false, None), r1)
              else evaluateConditions r1 cs
    end.
Proof. reflexivity. Qed.

Lemma evaluateConditions_true r cs r1 :
  evaluateConditions r cs = Ok ((true, None), r1) ↔ conds_true r cs r1.
Proof.
  split.
  - revert r. induction cs as [|c cs IH]; intros r.
    + intros [= <-]. constructor.
    + rewrite evaluateConditions_cons.
      destruct (evaluateCondition r c) as [[[ret [e|]] r']| |] eqn:Hc;
        cbn; try done.
      destruct ret; cbn; [|done]. intros Hrest.
      econstructor; [exact Hc|by apply IH].
  - induction 1 as [r|r c r' cs r2 Hc _ IH]; [done|].
    rewrite evaluateConditions_cons, Hc. cbn. exact IH.
Qed.

Lemma evaluateConditions_false r cs r1 :
  evaluateConditions r cs = Ok ((false, None), r1) ↔ conds_false r cs r1.
Proof.
  split.
  - revert r. induction cs as [|c cs IH]; intros r.
    + intros [=].
    + rewrite evaluateConditions_cons.
      destruct (evaluateCondition r c) as [[[ret [e|]] r']| |] eqn:Hc;
        cbn; try done.
      destruct ret; cbn.
      * intros Hrest. eapply conds_false_later; [exact Hc|by apply IH].
      * intros [= <-]. by apply conds_false_here.
  - induction 1 as [r c cs r' Hc|r c r' cs r2 Hc _ IH];
      rewrite evaluateConditions_cons, Hc; cbn; [done|exact IH].
Qed.

Lemma evaluateConditions_error r cs b e r1 :
  evaluateConditions r cs = Ok ((b, Some e), r1) ↔
  b = false ∧ conds_error r cs e r1.
Proof.
  split.
  - revert r. induction cs as [|c cs IH]; intros r.
    + intros [=].
    + rewrite evaluateConditions_cons.
      destruct (evaluateCondition r c) as [[[ret [e'|]] r']| |] eqn:Hc;
        cbn; try done.
      * intros [= <- <- <-]. split; [done|].
        by eapply conds_error_here.
      * destruct ret; cbn; [|done]. intros Hrest.
        destruct (IH _ Hrest) as [-> Herr]. split; [done|].
        eapply conds_error_later; [exact Hc|done].
  - intros [-> Herr].
    induction Herr as [r c cs ret e r' Hc|r c r' cs e r2 Hc _ IH];
      rewrite evaluateConditions_cons, Hc; cbn; [done|exact IH].
Qed.

Lemma evaluateRequest_cons r rule rules :
  evaluateRequest r (rule :: rules)
  = match ArrivalListener r with
    | None => evaluateRequest r rules
    | Some lnr =>
        if decide (lnr ≠ Listener rule) then evaluateRequest r rules
        else
          '((allCondsTrue, err), r1) ← evaluateConditions r (Conditions rule);
          match err with
          | Some e => Ok ((zeroAction, Some e), r1)
          | None => if (allCondsTrue : bool)
                    then Ok ((action rule, None), r1)
                    else evaluateRequest r1 rules
          end
    end.
Proof. reflexivity. Qed.

Lemma evaluateRequest_skip r rule rules :
  ¬ on_listener r rule →
  evaluateRequest r (rule :: rules) = evaluateRequest r rules.
Proof.
  unfold on_listener. intros Hno. rewrite evaluateRequest_cons.
  destruct (ArrivalListener r) as [lnr|]; [|done].
  rewrite decide_True; [done|]. congruence.
Qed.

Lemma evaluateRequest_on r rule rules :
  on_listener r rule →
  evaluateRequest r (rule :: rules)
  = '((allCondsTrue, err), r1) ← evaluateConditions r (Conditions rule);
    match err with
    | Some e => Ok ((zeroAction, Some e), r1)
    | None => if (allCondsTrue : bool)
              then Ok ((action rule, None), r1)
              else evaluateRequest r1 rules
    end.
Proof.
  unfold on_listener. intros Hon. rewrite evaluateRequest_cons, Hon.
  by rewrite decide_False by (intros Hne; by apply Hne).
Qed.

Lemma evaluateRequest_selects r rules out r' :
  evaluateRequest r rules = Ok (out, r') ↔ selects r rules out r'.
Proof.
  split.
  - revert r. induction rules as [|rule rules IH]; intros r.
    + intros [= <- <-]. constructor.
    + destruct (decide (ArrivalListener r = Some (Listener rule)))
        as [Hon|Hno].
      2:{ rewrite evaluateRequest_skip by done. intros Hrest.
          apply selects_skip; [done|by apply IH]. }
      rewrite evaluateRequest_on by done.
      destruct (evaluateConditions r (Conditions rule))
        as [[[b [e|]] r1]| |] eqn:Hc; cbn; try done.
      * intros [= <- <-]. apply selects_error; [done|].
        by apply (evaluateConditions_error r _ b e r1).
      * destruct b.
        -- intros [= <- <-]. apply selects_match; [done|].
           by apply evaluateConditions_true.
        -- intros Hrest. eapply selects_fail; [done| |by apply IH].
           by apply evaluateConditions_false.
  - induction 1 as [r|r rule rules out r' Hno _ IH
                    |r rule rules r1 out r' Hon Hc _ IH
                    |r rule rules r1 Hon Hc|r rule rules e r1 Hon Hc].
    + done.
    + by rewrite evaluateRequest_skip.
    + rewrite evaluateRequest_on by done.
      apply evaluateConditions_false in Hc. rewrite Hc. cbn. exact IH.
    + rewrite evaluateRequest_on by done.
      apply evaluateConditions_true in Hc. by rewrite Hc.
    + rewrite evaluateRequest_on by done.
      assert (Hc' : evaluateConditions r (Conditions rule)
                    = Ok ((false, Some e), r1))
        by (by apply evaluateConditions_error).
      by rewrite Hc'.
Qed.

Lemma evaluateRequest_all_skipped r rules :
  Forall (λ rule, ¬ on_listener r rule) rules →
  evaluateRequest r rules = Ok ((noRuleAction, None), r).
Proof.
  induction 1 as [|rule rules Hno _ IH]; [done|].
  by rewrite evaluateRequest_skip.
Qed.

End matching_facts.

(** C7, as stated, fails: the request arrived on the listener of the only
    rule, whose condition cannot be evaluated.  No rule matches, yet the
    outcome is not the reject action without error: it is the error of
    the condition, with the empty action. *)
Lemma evaluateRequest_error_counterexample :
  Evaluator.evaluateRequest (H := EvalExample.lib) EvalExample.req
    [EvalExample.broken]
  = Ok ((Evaluator.zeroAction,
         Some "evaluator/condition: invalid operation for IP type"),
        EvalExample.req) ∧
  (∀ r1, ¬ Evaluator.conds_true (H := EvalExample.lib) EvalExample.req
             (Evaluator.Conditions EvalExample.broken) r1) ∧
  Evaluator.evaluateRequest (H := EvalExample.lib) EvalExample.req
    [EvalExample.broken; EvalExample.catchAll]
  ≠ Ok ((Evaluator.action EvalExample.catchAll, None), EvalExample.req).
Proof.
  split_and!.
  - vm_compute. reflexivity.
  - intros r1 Ht. apply evaluateConditions_true in Ht.
    vm_compute in Ht. discriminate Ht.
  - vm_compute. discriminate.
Qed.

(** C7 (amended).  [evaluateRequest] returns exactly what the rule pass
    [selects]: it goes through the rules in list order; it skips every
    rule whose listener is not the request's arrival-listener tag, hence
    all of them when the tag is absent; it returns, without error, the
    action of the first remaining rule whose conditions all evaluate to
    true; if a condition it evaluates on the way fails with an error, it
    returns that error with the empty action instead; and when it reaches
    the end of the list it returns, without error, the reject action with
    status code 500 and message "no rule was satisfied". *)
Theorem evaluateRequest_spec `{Evaluator.GoLib}
    (r : Evaluator.Request) (rules : list Evaluator.Rule) :
  (∀ out r', Evaluator.evaluateRequest r rules = Ok (out, r') ↔
             Evaluator.selects r rules out r') ∧
  (Evaluator.ArrivalListener r = None →
   Evaluator.evaluateRequest r rules = Ok ((Evaluator.noRuleAction, None), r)) ∧
  (Forall (λ rule, ¬ Evaluator.on_listener r rule) rules →
   Evaluator.evaluateRequest r rules = Ok ((Evaluator.noRuleAction, None), r)) ∧
  (∀ pre rule post r1,
     rules = pre ++ rule :: post →
     Forall (λ rule, ¬ Evaluator.on_listener r rule) pre →
     Evaluator.on_listener r rule →
     Evaluator.conds_true r (Evaluator.Conditions rule) r1 →
     Evaluator.evaluateRequest r rules
     = Ok ((Evaluator.action rule, None), r1)) ∧
  Evaluator.noRuleAction
  = Evaluator.mkAction "" (Evaluator.mkReject 500 "no rule was satisfied") "".
Proof.
  split_and!; [|..|done].
  - intros out r'. apply evaluateRequest_selects.
  - intros Hno. apply evaluateRequest_all_skipped.
    apply Forall_forall. intros rule _. unfold Evaluator.on_listener.
    by rewrite Hno.
  - apply evaluateRequest_all_skipped.
  - intros pre rule post r1 -> Hpre Hon Ht.
    induction Hpre as [|x pre Hx _ IH]; cbn [app].
    + rewrite evaluateRequest_on by done.
      apply evaluateConditions_true in Ht. by rewrite Ht.
    + by rewrite evaluateRequest_skip.
Qed.

(** The listener filter at work: the rule on [:81] takes the request that
    arrived there (paths compare without case), and is skipped for the
    same request arriving on [:80]. *)
Example evaluateRequest_listener_example :
  let rule := Evaluator.mkRule 3 1 ":81" [EvalExample.pathX]
                EvalExample.forward "" in
  let on80 := Evaluator.mkRequest "/X" ∅ (Evaluator.BodyData "") None ∅
                "10.0.0.1:4242" (Some ":80") in
  Evaluator.evaluateRequest (H := EvalExample.lib) EvalExample.req [rule]
  = Ok ((EvalExample.forward, None), EvalExample.req) ∧
  Evaluator.evaluateRequest (H := EvalExample.lib) on80 [rule]
  = Ok ((Evaluator.noRuleAction, None), on80).
Proof. cbv zeta. split; vm_compute; reflexivity. Qed.

(* ================================================================== *)
(** * Least connections as an instance of the balancer interface *)
(* ================================================================== *)

Section lc_instance.
Import LC.

(** The nodes of the pool: those of the structs the slice points to. *)
Definition pool (l : LC) : list Node :=
  omap (λ p, node <$> mem l !! p) (nodes l).

Lemma elem_of_pool l v :
  v ∈ pool l ↔ ∃ p c, p ∈ nodes l ∧ mem l !! p = Some c ∧ node c = v.
Proof.
  unfold pool. rewrite list_elem_of_omap. split.
  - intros (p & Hp & Hv). destruct (mem l !! p) as [c|] eqn:Hc; [|done].
    injection Hv as <-. eauto.
  - intros (p & c & Hp & Hc & <-). exists p. by rewrite Hc.
Qed.

(** [l'] has no entry and no node that [l] has not. *)
Definition keeps (l l' : LC) : Prop :=
  (∀ p, p ∈ nodes l' → p ∈ nodes l) ∧
  (∀ p c', mem l' !! p = Some c' →
           ∃ c, mem l !! p = Some c ∧ node c = node c').

Lemma keeps_refl l : keeps l l.
Proof. split; eauto. Qed.

Lemma keeps_trans l1 l2 l3 : keeps l1 l2 → keeps l2 l3 → keeps l1 l3.
Proof.
  intros [Hn1 Hm1] [Hn2 Hm2]. split; [by eauto|].
  intros p c3 Hc3. destruct (Hm2 _ _ Hc3) as (c2 & Hc2 & <-).
  destruct (Hm1 _ _ Hc2) as (c1 & Hc1 & <-). eauto.
Qed.

Lemma keeps_pool l l' v : keeps l l' → v ∈ pool l' → v ∈ pool l.
Proof.
  intros [Hn Hm]. rewrite !elem_of_pool.
  intros (p & c' & Hp & Hc' & <-).
  destruct (Hm _ _ Hc') as (c & Hc & Heq). eauto 6.
Qed.

Ltac res_simpl := cbn [mbind res_bind mret res_ret negb].

(** From [m ≫= f = Ok x] to the value of [m]. *)
Ltac bind_inv H x E :=
  match type of H with
  | mbind _ ?m = Ok _ =>
      destruct m as [x| |] eqn:E; cbn [mbind res_bind] in H;
      [|discriminate H..]
  end.

Lemma at_index_elem l i p : at_index l i = Ok p → p ∈ nodes l.
Proof.
  unfold at_index. case_decide; [|done].
  destruct (nodes l !! Z.to_nat i) as [q|] eqn:Hq; [|done].
  intros [= <-]. by eapply list_elem_of_lookup_2.
Qed.

Lemma store_keeps l p f l' :
  (∀ c, node (f c) = node c) → store l p f = Ok l' →
  nodes l' = nodes l ∧ keeps l l'.
Proof.
  intros Hf. unfold store, deref.
  destruct (mem l !! p) as [c|] eqn:Hc; [|done]. res_simpl.
  intros [= <-]. split; [done|]. split; [done|]. cbn.
  intros q c'. destruct (decide (q = p)) as [->|Hne].
  - rewrite lookup_insert_eq. intros [= <-]. eauto.
  - rewrite lookup_insert_ne by done. eauto.
Qed.

Lemma Swap_keeps l i j l' : Swap l i j = Ok l' → keeps l l'.
Proof.
  unfold Swap. intros Hs.
  bind_inv Hs pi Epi. bind_inv Hs pj Epj.
  bind_inv Hs qi Eqi. bind_inv Hs l2 El2. bind_inv Hs qj Eqj.
  apply at_index_elem in Epi, Epj.
  apply store_keeps in El2 as [Hn2 Hk2]; [|done].
  apply store_keeps in Hs as [Hn3 Hk3]; [|done].
  eapply keeps_trans; [|exact Hk3]. eapply keeps_trans; [|exact Hk2].
  split; [|by eauto]. cbn. intros p Hp.
  apply list_elem_of_lookup in Hp as [k Hk].
  apply list_lookup_insert_Some in Hk as [(_ & <- & _)|(_ & Hk)]; [done|].
  apply list_lookup_insert_Some in Hk as [(_ & <- & _)|(_ & Hk)]; [done|].
  by eapply list_elem_of_lookup_2.
Qed.

Lemma up_keeps fuel : ∀ l j l', up fuel l j = Ok l' → keeps l l'.
Proof.
  induction fuel as [|fuel IH]; intros l j l'; cbn [up]; [done|].
  case_decide; [intros [= <-]; apply keeps_refl|].
  intros Hu. bind_inv Hu less Eless.
  destruct less; cbn [negb] in Hu; [|injection Hu as <-; apply keeps_refl].
  bind_inv Hu l1 El1. apply Swap_keeps in El1.
  eapply keeps_trans; [exact El1|by eapply IH].
Qed.

Lemma down_loop_keeps fuel :
  ∀ l i n l' i', down_loop fuel l i n = Ok (l', i') → keeps l l'.
Proof.
  induction fuel as [|fuel IH]; intros l i n l' i'; cbn [down_loop]; [done|].
  case_decide; [intros [= <- <-]; apply keeps_refl|].
  intros Hd. bind_inv Hd less2 Eless2. bind_inv Hd less Eless.
  destruct less; cbn [negb] in Hd; [|injection Hd as <- <-; apply keeps_refl].
  bind_inv Hd l1 El1. apply Swap_keeps in El1.
  eapply keeps_trans; [exact El1|by eapply IH].
Qed.

Lemma sift_keeps fuel l i n l' :
  ('(l2, moved) ← down fuel l i n;
   if negb moved then up fuel l2 i else Ok l2) = Ok l' →
  keeps l l'.
Proof.
  unfold down. intros Hf.
  destruct (down_loop fuel l i n) as [[l1 i']| |] eqn:Hd;
    cbn [mbind res_bind] in Hf; [|done..].
  apply down_loop_keeps in Hd.
  destruct (bool_decide (i' > i)); cbn [negb] in Hf.
  - by injection Hf as <-.
  - eapply keeps_trans; [exact Hd|by eapply up_keeps].
Qed.

Lemma heap_Fix_keeps fuel l i l' : heap_Fix fuel l i = Ok l' → keeps l l'.
Proof. apply sift_keeps. Qed.

Lemma Pop_keeps l p l' : Pop l = Ok (p, l') → keeps l l'.
Proof.
  unfold Pop. intros HP. bind_inv HP item Eitem. bind_inv HP l1 El1.
  injection HP as <- <-.
  apply store_keeps in El1 as [Hn1 [_ Hk1]]; [|done].
  split; [|done]. cbn. rewrite Hn1. intros q Hq.
  apply elem_of_take in Hq as (k & Hk & _). by eapply list_elem_of_lookup_2.
Qed.

Lemma heap_Remove_keeps fuel l i p l' :
  heap_Remove fuel l i = Ok (p, l') → keeps l l'.
Proof.
  unfold heap_Remove. intros HR. bind_inv HR l3 El3.
  apply Pop_keeps in HR. eapply keeps_trans; [|exact HR].
  case_decide; [|injection El3 as <-; apply keeps_refl].
  bind_inv El3 l1 El1. apply Swap_keeps in El1.
  eapply keeps_trans; [exact El1|by eapply sift_keeps].
Qed.

Lemma DeleteNode_keeps fuel k l l' :
  DeleteNode fuel k l = Ok l' → keeps l l'.
Proof.
  unfold DeleteNode. intros HD. bind_inv HD found Ef.
  destruct found as [v|]; [|injection HD as <-; apply keeps_refl].
  bind_inv HD c Ec.
  destruct (heap_Remove fuel l (index c)) as [[p l1]| |] eqn:HR;
    cbn [mbind res_bind] in HD; [|done..].
  injection HD as <-. by eapply heap_Remove_keeps.
Qed.

Lemma Balance_keeps fuel l o l' :
  Balance fuel l = Ok (o, l') →
  (∀ v p, o = Some (v, p) → v ∈ pool l) ∧ keeps l l'.
Proof.
  unfold Balance. case_decide.
  { intros [= <- <-]. split; [done|apply keeps_refl]. }
  intros HB. bind_inv HB selected Esel. bind_inv HB c Ec.
  bind_inv HB l1 El1. bind_inv HB l2 El2. injection HB as <- <-.
  apply store_keeps in El1 as [_ Hk1]; [|done].
  apply heap_Fix_keeps in El2. split; [|by eapply keeps_trans].
  intros v p [= <- <-]. apply elem_of_pool. exists selected, c.
  split_and!; [by eapply at_index_elem| |done].
  unfold deref in Ec. by destruct (mem l !! selected) as [c'|]; simplify_eq.
Qed.

Lemma AddNode_pool fuel n l l' v :
  AddNode fuel n l = Ok l' → v ∈ pool l' → v = n ∨ v ∈ pool l.
Proof.
  unfold AddNode, heap_Push, Push. intros HA.
  bind_inv HA l2 El2. bind_inv El2 l1 El1. injection El2 as <-.
  apply up_keeps in HA. intros Hv. apply (keeps_pool _ _ _ HA) in Hv.
  set (nwr := fresh (dom (mem l))) in *.
  unfold store, deref in El1. cbn [mem nodes] in El1.
  rewrite lookup_insert_eq in El1. cbn [mbind res_bind] in El1.
  injection El1 as <-. cbn [nodes mem] in Hv.
  apply elem_of_pool in Hv as (p & c & Hp & Hc & <-). cbn [nodes mem] in *.
  destruct (decide (p = nwr)) as [->|Hne].
  - rewrite lookup_insert_eq in Hc. injection Hc as <-. by left.
  - rewrite !lookup_insert_ne in Hc by done. right.
    apply elem_of_pool. exists p, c. split_and!; [|done..].
    apply elem_of_app in Hp as [?|Hp]; [done|].
    by apply list_elem_of_singleton in Hp.
Qed.

(** Fuel beyond the slice length, enough for the sift loops. *)
Definition enough (l : LC) : nat := S (S (length (nodes l))).

Lemma lc_members_add n (b b' : LC) :
  AddNode (enough b) n b = Ok b' → ∀ v, v ∈ pool b' → v = n ∨ v ∈ pool b.
Proof. intros HA v. by eapply AddNode_pool. Qed.

Lemma lc_members_delete k (b b' : LC) :
  DeleteNode (enough b) k b = Ok b' → ∀ v, v ∈ pool b' → v ∈ pool b.
Proof. intros HD v. eapply keeps_pool. by eapply DeleteNode_keeps. Qed.

(** [Balance] as the interface has it: the node alone. *)
Definition balanceNode (l : LC) : res (option Node * LC) :=
  match Balance (enough l) l with
  | Ok (sel, l1) => Ok (fst <$> sel, l1)
  | Panic => Panic
  | OutOfFuel => OutOfFuel
  end.

Lemma lc_members_balance (b : LC) o b' :
  balanceNode b = Ok (o, b') →
  (∀ v, o = Some v → v ∈ pool b) ∧ (∀ v, v ∈ pool b' → v ∈ pool b).
Proof.
  unfold balanceNode. intros HB.
  destruct (Balance (enough b) b) as [[sel b1]| |] eqn:HBal; [|done..].
  injection HB as <- <-. destruct (Balance_keeps _ _ _ _ HBal) as [Hsel Hk].
  split; [|intros v; by eapply keeps_pool].
  intros v Hv. destruct sel as [[v' p]|]; [|done].
  injection Hv as <-. by eapply Hsel.
Qed.

#[global] Instance LC_Balancer : Balancer LC := {|
  bAddNode n b := AddNode (enough b) n b;
  bDeleteNode k b := DeleteNode (enough b) k b;
  bBalance := balanceNode;
  members := pool;
  members_add := lc_members_add;
  members_delete := lc_members_delete;
  members_balance := lc_members_balance
|}.

End lc_instance.

(** Two idle nodes and two requests in flight at once: the first goes to
    [A], the second to [B], which then has the fewer requests. *)
Example lc_single_flight :
  match LC.Balance 5 LCExample.s2 with
  | Ok (Some (a, _), l3) =>
      match LC.Balance 5 l3 with
      | Ok (Some (b, _), l4) =>
          a = LCExample.A ∧ b = LCExample.B ∧
          pool l4 = [LCExample.B; LCExample.A]
      | _ => False
      end
  | _ => False
  end.
Proof. vm_compute. repeat split. Qed.

(* ================================================================== *)
(** * Deleting the node under the cursor *)
(* ================================================================== *)

(** RR, pool [A, B, C] with the cursor on [B]: deleting [B] moves the
    cursor to [C]; deleting the tail [C] under the cursor wraps it to the
    head. *)
Example rr_delete_cursor :
  let r1 := (RR.Balance RRExample.pool).2 in
  let r2 := (RR.BalanceN 2 RRExample.pool).2 in
  (RR.BalanceN 3 (RR.DeleteNode (nodeKey RRExample.B) r1)).1
  = Some <$> [RRExample.C; RRExample.A; RRExample.C] ∧
  (RR.BalanceN 3 (RR.DeleteNode (nodeKey RRExample.C) r2)).1
  = Some <$> [RRExample.A; RRExample.B; RRExample.A].
Proof. cbv zeta. split; vm_compute; reflexivity. Qed.

(** WRR, weights [A = 3, B = 1, C = 2], one request served (the cursor is
    on [A] with credit 2): deleting [A] moves the cursor to [B] with the
    credit of [B]. *)
Example wrr_delete_cursor :
  let r1 := (WRR.Balance WRRExample.pool).2 in
  (WRR.BalanceN 4 (WRR.DeleteNode (nodeKey WRRExample.A) r1)).1
  = Some <$> [WRRExample.B; WRRExample.C; WRRExample.C; WRRExample.B].
Proof. cbv zeta. vm_compute. reflexivity. Qed.

(* ================================================================== *)
(** * Round-robin and weighted round-robin: the contract of [Balance],
      and what [DeleteNode] does to the order of service *)
(* ================================================================== *)

Section delete_facts.

Lemma find_key_None_filter k (l : list Node) :
  find_key k l = None → filter (λ v, nodeKey v ≠ k) l = l.
Proof.
  induction l as [|v l IH]; cbn [find_key]; [done|].
  destruct (decide (k = nodeKey v)) as [->|Hne]; [done|].
  destruct (find_key k l); [done|]. intros _.
  rewrite filter_cons, decide_True by congruence. by rewrite IH.
Qed.

Lemma find_key_None_notin k (l : list Node) :
  k ∉ nodeKey <$> l → find_key k l = None.
Proof.
  induction l as [|v l IH]; cbn [find_key]; [done|].
  rewrite fmap_cons, not_elem_of_cons. intros [Hne Hnin].
  rewrite decide_False by done. by rewrite IH.
Qed.

(** With distinct keys in the pool, unlinking the first node of key [k]
    leaves the nodes of the other keys, in their order. *)
Lemma find_key_delete_filter k (l : list Node) :
  NoDup (nodeKey <$> l) →
  match find_key k l with Some e => delete e l | None => l end
  = filter (λ v, nodeKey v ≠ k) l.
Proof.
  induction l as [|v l IH]; cbn [find_key]; [done|].
  rewrite fmap_cons, NoDup_cons. intros [Hv Hl].
  rewrite filter_cons.
  destruct (decide (k = nodeKey v)) as [->|Hne].
  - rewrite decide_False by (intros Hn; by apply Hn). cbn.
    symmetry. by apply find_key_None_filter, find_key_None_notin.
  - rewrite decide_True by congruence. specialize (IH Hl).
    destruct (find_key k l) as [e|]; rewrite <- IH; reflexivity.
Qed.

Lemma find_key_Some k (l : list Node) e :
  find_key k l = Some e →
  ∃ v, l !! e = Some v ∧ nodeKey v = k ∧
       ∀ j w, (j < e)%nat → l !! j = Some w → nodeKey w ≠ k.
Proof.
  revert e. induction l as [|v l IH]; intros e; cbn; [done|].
  destruct (decide (k = nodeKey v)) as [->|Hne].
  - intros [= <-]. exists v. split_and!; [done..|]. intros j w Hj. lia.
  - destruct (find_key k l) as [e'|]; cbn; [|done]. intros [= <-].
    destruct (IH e' eq_refl) as (w & Hw & Hk & Hbefore).
    exists w. split_and!; [done..|].
    intros [|j] u Hj; cbn; [by intros [= <-]|].
    apply Hbefore. lia.
Qed.

End delete_facts.

(** X1.  The contract of the interface for round-robin: on every balancer
    a program can hold, [Balance] returns nil exactly when the pool is
    empty; a node it returns is a node of the pool; and the pool is left
    as it was. *)
Theorem rr_balance_contract (r : RR.RR) :
  RR.reachable r →
  ((RR.Balance r).1 = None ↔ RR.nodes r = []) ∧
  (∀ v, (RR.Balance r).1 = Some v → v ∈ RR.nodes r) ∧
  RR.nodes (RR.Balance r).2 = RR.nodes r.
Proof.
  intros Hr. apply rr_reachable_cursor_ok in Hr.
  destruct (decide (RR.nodes r = [])) as [Hnil|Hne].
  - unfold RR.Balance. rewrite Hnil. cbn. by rewrite Hnil.
  - destruct (rr_balance_spec r Hr Hne) as (H1 & H2 & _).
    pose proof (rr_start_lt r Hr Hne) as Hlt.
    destruct (lookup_lt_is_Some_2 _ _ Hlt) as [v Hv].
    rewrite H1, Hv. split_and!; [done| |done].
    intros w [= <-]. by eapply list_elem_of_lookup_2.
Qed.

Lemma rr_balance_contract_witness :
  (RR.Balance RRExample.pool).1 = None ↔ RR.nodes RRExample.pool = [].
Proof.
  refine (proj1 (rr_balance_contract RRExample.pool _)).
  by exists RRExample.ops.
Defined.

(** X2.  Deleting a node does not disturb the order of service.  On a
    balancer a program can hold, with at least two nodes, let [e] be the
    position of the node that [DeleteNode k] unlinks.  The next [Balance]
    returns the node that was due, the one at the cursor; when that node is
    the one deleted, it returns its successor in the list, the head of the
    list following the tail. *)
Theorem rr_delete_keeps_order (r : RR.RR) (k : NodeKey) (e : nat) :
  RR.reachable r →
  find_key k (RR.nodes r) = Some e →
  (2 ≤ length (RR.nodes r))%nat →
  RR.nodes (RR.DeleteNode k r) = delete e (RR.nodes r) ∧
  (RR.Balance (RR.DeleteNode k r)).1
  = RR.nodes r !! (if decide (RR.start r = e)
                   then (S e mod length (RR.nodes r))%nat
                   else RR.start r).
Proof.
  intros Hr He Hlen. apply rr_reachable_cursor_ok in Hr.
  pose proof (find_key_lt _ _ _ He) as Hlt.
  pose proof (rr_delete_cursor_ok k r Hr) as Hok'.
  assert (Hn' : RR.nodes (RR.DeleteNode k r) = delete e (RR.nodes r))
    by (unfold RR.DeleteNode; by rewrite He).
  split; [done|].
  assert (Hne' : RR.nodes (RR.DeleteNode k r) ≠ []).
  { intros Hnil. apply (f_equal length) in Hnil.
    rewrite Hn', length_delete in Hnil by (apply lookup_lt_is_Some; lia).
    cbn in Hnil. lia. }
  rewrite (proj1 (rr_balance_spec _ Hok' Hne')), Hn'.
  unfold RR.start, RR.DeleteNode. rewrite He. cbn [RR.cur RR.nodes].
  unfold RR.cursor_ok in Hr.
  destruct (RR.cur r) as [c|] eqn:Hc; cbn [default].
  - specialize (Hr c eq_refl).
    destruct (decide (Some c = Some e)) as [[= ->]|Hce].
    + rewrite (decide_True (P := e = e)) by done.
      rewrite decide_False by lia.
      destruct (decide (S e = length (RR.nodes r))) as [Hlast|Hmid].
      * cbn. rewrite decide_False by lia. cbn.
        rewrite Hlast, Nat.Div0.mod_same.
        rewrite list_lookup_delete_lt by lia. done.
      * cbn. rewrite decide_True by lia. cbn.
        rewrite Nat.mod_small by lia.
        rewrite list_lookup_delete_ge by lia. done.
    + rewrite (decide_False (P := c = e)) by congruence. cbn.
      assert (c ≠ e) by congruence.
      case_decide; cbn.
      * rewrite list_lookup_delete_ge by lia.
        by replace (S (pred c)) with c by lia.
      * rewrite list_lookup_delete_lt by lia. done.
  - rewrite decide_False by done. cbn.
    destruct (decide (0%nat = e)) as [<-|Hne].
    + rewrite list_lookup_delete_ge by lia.
      by rewrite Nat.mod_small by lia.
    + rewrite list_lookup_delete_lt by lia. done.
Qed.

Lemma rr_delete_keeps_order_witness :
  RR.nodes (RR.DeleteNode (nodeKey RRExample.B) (RR.Balance RRExample.pool).2)
  = delete 1%nat (RR.nodes (RR.Balance RRExample.pool).2) ∧
  (RR.Balance
     (RR.DeleteNode (nodeKey RRExample.B) (RR.Balance RRExample.pool).2)).1
  = RR.nodes (RR.Balance RRExample.pool).2
      !! (if decide (RR.start (RR.Balance RRExample.pool).2 = 1%nat)
          then (2 mod length (RR.nodes (RR.Balance RRExample.pool).2))%nat
          else RR.start (RR.Balance RRExample.pool).2).
Proof.
  apply (rr_delete_keeps_order (RR.Balance RRExample.pool).2
           (nodeKey RRExample.B) 1).
  - by exists (RRExample.ops ++ [RR.OpBalance]).
  - vm_compute. reflexivity.
  - vm_compute. lia.
Defined.

(** X3.  With distinct keys in the pool, [DeleteNode k] of RR and of WRR
    leaves exactly the nodes whose key is not [k], in their order: no node
    of key [k] is left, and no other node is lost. *)
Theorem delete_node_distinct_keys (k : NodeKey) (r : RR.RR) (w : WRR.WRR) :
  NoDup (nodeKey <$> RR.nodes r) →
  NoDup (nodeKey <$> WRR.nodes w) →
  RR.nodes (RR.DeleteNode k r)
  = filter (λ v, nodeKey v ≠ k) (RR.nodes r) ∧
  WRR.nodes (WRR.DeleteNode k w)
  = filter (λ v, nodeKey v ≠ k) (WRR.nodes w).
Proof.
  intros Hr Hw. split.
  - rewrite <- (find_key_delete_filter k _ Hr). unfold RR.DeleteNode.
    by destruct (find_key k (RR.nodes r)).
  - rewrite <- (find_key_delete_filter k _ Hw). unfold WRR.DeleteNode.
    destruct (find_key k (WRR.nodes w)) as [e|]; [|done].
    by destruct (if decide (WRR.cur w = Some e) then _ else _).
Qed.

Lemma delete_node_distinct_keys_witness :
  RR.nodes (RR.DeleteNode (nodeKey RRExample.B) RRExample.pool)
  = filter (λ v, nodeKey v ≠ nodeKey RRExample.B) (RR.nodes RRExample.pool) ∧
  WRR.nodes (WRR.DeleteNode (nodeKey RRExample.B) WRRExample.pool)
  = filter (λ v, nodeKey v ≠ nodeKey RRExample.B) (WRR.nodes WRRExample.pool).
Proof.
  apply (delete_node_distinct_keys (nodeKey RRExample.B)
           RRExample.pool WRRExample.pool);
    apply (bool_decide_unpack _); vm_compute; exact I.
Defined.

(** X4.  The contract of the interface for weighted round-robin: on every
    balancer a program can hold, [Balance] returns nil exactly when the
    pool is empty; a node it returns is a node of the pool; and the pool is
    left as it was. *)
Theorem wrr_balance_contract (r : WRR.WRR) :
  WRR.reachable r →
  ((WRR.Balance r).1 = None ↔ WRR.nodes r = []) ∧
  (∀ v, (WRR.Balance r).1 = Some v → v ∈ WRR.nodes r) ∧
  WRR.nodes (WRR.Balance r).2 = WRR.nodes r.
Proof.
  intros Hr. apply wrr_reachable_cursor_ok in Hr as [_ Hc].
  split_and!; [|apply wrr_balance_returns|apply wrr_balance_nodes].
  unfold WRR.Balance.
  destruct (WRR.nodes r) as [|front rest] eqn:Hn; [done|].
  split; [|done].
  destruct (WRR.cur r) as [e|].
  - destruct (Hc e eq_refl) as (v & -> & _).
    case_decide; [by destruct ((front :: rest) !! S e)|done].
  - case_decide; [by destruct rest|done].
Qed.

Lemma wrr_balance_contract_witness :
  (WRR.Balance WRRExample.pool).1 = None ↔ WRR.nodes WRRExample.pool = [].
Proof.
  refine (proj1 (wrr_balance_contract WRRExample.pool _)).
  exists WRRExample.ops. split; [|reflexivity].
  do 3 (constructor; [cbn; unfold GoInt.is_int; lia|]). constructor.
Defined.

(** X5.  Deleting the node under the cursor of a weighted round-robin
    balancer hands the turn to its successor in the list (the head of the
    list following the tail) with a full credit: whatever credit the
    deleted node had left, the next [Weight] calls of [Balance] all return
    the successor. *)
Theorem wrr_delete_under_cursor (r : WRR.WRR) (k : NodeKey) (e : nat)
    (nxt : Node) :
  WRR.reachable r →
  WRR.cur r = Some e →
  find_key k (WRR.nodes r) = Some e →
  (2 ≤ length (WRR.nodes r))%nat →
  WRR.nodes r !! (S e mod length (WRR.nodes r))%nat = Some nxt →
  1 ≤ Weight nxt →
  WRR.reqCredit (WRR.DeleteNode k r) = Weight nxt ∧
  (WRR.BalanceN (Z.to_nat (Weight nxt)) (WRR.DeleteNode k r)).1
  = replicate (Z.to_nat (Weight nxt)) (Some nxt).
Proof.
  intros Hr Hcur He Hlen Hnxt Hw.
  apply wrr_reachable_cursor_ok in Hr as [Hint _].
  pose proof (find_key_lt _ _ _ He) as Hlt.
  pose proof (Forall_lookup_1 _ _ _ _ Hint Hnxt) as Hwi. cbn in Hwi.
  set (e' := if decide (S e = length (WRR.nodes r)) then 0%nat else e).
  assert (HD : WRR.DeleteNode k r
               = {| WRR.nodes := delete e (WRR.nodes r);
                    WRR.cur := Some e'; WRR.reqCredit := Weight nxt |}).
  { unfold WRR.DeleteNode, e'. rewrite He, Hcur.
    rewrite decide_True by done. rewrite decide_False by lia.
    destruct (decide (S e = length (WRR.nodes r))) as [Hlast|Hmid].
    - rewrite Hlast, Nat.Div0.mod_same in Hnxt. rewrite Hnxt. cbn.
      by rewrite decide_False by lia.
    - rewrite Nat.mod_small in Hnxt by lia. rewrite Hnxt. cbn.
      by rewrite decide_True by lia. }
  assert (Hv' : delete e (WRR.nodes r) !! e' = Some nxt).
  { unfold e'. destruct (decide (S e = length (WRR.nodes r))) as [Hlast|Hmid].
    - rewrite Hlast, Nat.Div0.mod_same in Hnxt.
      rewrite list_lookup_delete_lt by lia. done.
    - rewrite Nat.mod_small in Hnxt by lia.
      rewrite list_lookup_delete_ge by lia. done. }
  rewrite HD. split; [done|].
  destruct (Z.to_nat (Weight nxt)) as [|c] eqn:Hc; [lia|].
  rewrite (wrr_run_credit c _ e' nxt); [done|done|done|cbn; lia|done].
Qed.

Module WRRDeleteExample.
(** [WRRExample.pool] after one request: the cursor is on [A], which has
    two of its three requests left. *)
Definition r1 : WRR.WRR := (WRR.Balance WRRExample.pool).2.
End WRRDeleteExample.

Lemma wrr_delete_under_cursor_witness :
  WRR.reqCredit (WRR.DeleteNode (nodeKey WRRExample.A) WRRDeleteExample.r1)
  = Weight WRRExample.B ∧
  (WRR.BalanceN (Z.to_nat (Weight WRRExample.B))
     (WRR.DeleteNode (nodeKey WRRExample.A) WRRDeleteExample.r1)).1
  = replicate (Z.to_nat (Weight WRRExample.B)) (Some WRRExample.B).
Proof.
  apply (wrr_delete_under_cursor WRRDeleteExample.r1
           (nodeKey WRRExample.A) 0 WRRExample.B).
  - exists (WRRExample.ops ++ [WRR.OpBalance]). split; [|reflexivity].
    do 3 (constructor; [cbn; unfold GoInt.is_int; lia|]).
    constructor; [exact I|constructor].
  - reflexivity.
  - reflexivity.
  - vm_compute. lia.
  - reflexivity.
  - vm_compute. discriminate.
Defined.

(** X6.  Deleting a node that is not under the cursor of a weighted
    round-robin balancer leaves the credit as it was and the cursor on the
    node it stood on.  With the cursor set, the next [Balance] returns the
    node it would have returned without the deletion.  With the cursor
    unset (a new balancer, or the end of a pass) the cursor stays unset,
    and the next [Balance] returns the head of the pool that is left: the
    former head, as without the deletion, unless the head is the node
    deleted, and then the node behind it (nil when there is none). *)
Theorem wrr_delete_elsewhere (r : WRR.WRR) (k : NodeKey) (e : nat) :
  WRR.reachable r →
  find_key k (WRR.nodes r) = Some e →
  WRR.cur r ≠ Some e →
  WRR.reqCredit (WRR.DeleteNode k r) = WRR.reqCredit r ∧
  WRR.cur (WRR.DeleteNode k r) ≫= (WRR.nodes (WRR.DeleteNode k r) !!.)
  = WRR.cur r ≫= (WRR.nodes r !!.) ∧
  (is_Some (WRR.cur r) →
   (WRR.Balance (WRR.DeleteNode k r)).1 = (WRR.Balance r).1) ∧
  (WRR.cur r = None →
   WRR.cur (WRR.DeleteNode k r) = None ∧
   (WRR.Balance r).1 = WRR.nodes r !! 0%nat ∧
   (WRR.Balance (WRR.DeleteNode k r)).1
   = WRR.nodes r !! (if decide (e = 0%nat) then 1%nat else 0%nat)).
Proof.
  intros Hr He Hce.
  apply wrr_reachable_cursor_ok in Hr as [_ Hc].
  pose proof (find_key_lt _ _ _ He) as Hlt.
  destruct (WRR.cur r) as [c|] eqn:Hcur.
  - destruct (Hc c eq_refl) as (v & Hv & _).
    pose proof (lookup_lt_Some _ _ _ Hv) as Hcl.
    assert (c ≠ e) by congruence.
    set (c' := if decide (e < c)%nat then pred c else c).
    assert (HD : WRR.DeleteNode k r
                 = {| WRR.nodes := delete e (WRR.nodes r);
                      WRR.cur := Some c';
                      WRR.reqCredit := WRR.reqCredit r |}).
    { unfold WRR.DeleteNode. rewrite He, Hcur.
      by rewrite decide_False by congruence. }
    assert (Hv' : delete e (WRR.nodes r) !! c' = Some v).
    { unfold c'. case_decide.
      - rewrite list_lookup_delete_ge by lia.
        by replace (S (pred c)) with c by lia.
      - rewrite list_lookup_delete_lt by lia. done. }
    rewrite HD. cbn [WRR.nodes WRR.cur WRR.reqCredit mbind option_bind].
    split_and!; [done|by rewrite Hv, Hv'| |done].
    intros _. unfold WRR.Balance. cbn [WRR.nodes WRR.cur WRR.reqCredit].
    rewrite Hcur, Hv, Hv'.
    destruct (WRR.nodes r) as [|front rest] eqn:Hn; [done|].
    destruct (delete e (front :: rest)) as [|front' rest'] eqn:Hd; [done|].
    case_decide.
    + by destruct ((front' :: rest') !! S c'), ((front :: rest) !! S c).
    + done.
  - assert (HD : WRR.DeleteNode k r
                 = {| WRR.nodes := delete e (WRR.nodes r);
                      WRR.cur := None;
                      WRR.reqCredit := WRR.reqCredit r |}).
    { unfold WRR.DeleteNode. rewrite He, Hcur.
      by rewrite decide_False by done. }
    assert (Hhead : ∀ w, WRR.cur w = None →
                         (WRR.Balance w).1 = WRR.nodes w !! 0%nat).
    { intros w Hw. unfold WRR.Balance. rewrite Hw.
      destruct (WRR.nodes w) as [|front rest]; [done|].
      case_decide; [by destruct rest|done]. }
    rewrite HD. cbn [WRR.nodes WRR.cur WRR.reqCredit mbind option_bind].
    split_and!; [done|done|by intros [? [=]]|].
    intros _. split_and!; [done|by apply Hhead|].
    rewrite Hhead by done. cbn [WRR.nodes].
    case_decide as He0.
    + subst e. by rewrite list_lookup_delete_ge by lia.
    + by rewrite list_lookup_delete_lt by lia.
Qed.

Lemma wrr_delete_elsewhere_witness :
  WRR.reqCredit (WRR.DeleteNode (nodeKey WRRExample.C) WRRDeleteExample.r1)
  = WRR.reqCredit WRRDeleteExample.r1 ∧
  (WRR.Balance (WRR.DeleteNode (nodeKey WRRExample.C) WRRDeleteExample.r1)).1
  = (WRR.Balance WRRDeleteExample.r1).1.
Proof.
  assert (Hr : WRR.reachable WRRDeleteExample.r1).
  { exists (WRRExample.ops ++ [WRR.OpBalance]). split; [|reflexivity].
    do 3 (constructor; [cbn; unfold GoInt.is_int; lia|]).
    constructor; [exact I|constructor]. }
  assert (He : find_key (nodeKey WRRExample.C) (WRR.nodes WRRDeleteExample.r1)
               = Some 2%nat) by reflexivity.
  assert (Hce : WRR.cur WRRDeleteExample.r1 ≠ Some 2%nat)
    by (vm_compute; discriminate).
  destruct (wrr_delete_elsewhere WRRDeleteExample.r1
              (nodeKey WRRExample.C) 2 Hr He Hce) as (Hcredit & _ & Hset & _).
  split; [exact Hcredit|]. apply Hset. vm_compute. eexists. reflexivity.
Defined.

(** With the cursor unset, deleting the head of the pool hands the next
    request to the node behind it: [WRRExample.pool] gives [A] to the next
    request, and [B] once [A] is deleted. *)
Example wrr_delete_head_unset :
  WRR.cur WRRExample.pool = None ∧
  (WRR.Balance WRRExample.pool).1 = Some WRRExample.A ∧
  (WRR.Balance (WRR.DeleteNode (nodeKey WRRExample.A) WRRExample.pool)).1
  = Some WRRExample.B.
Proof. vm_compute. repeat split. Qed.

(* ================================================================== *)
(** * Node groups: deletion, repeated probes and re-admission *)
(* ================================================================== *)

Section group_more_facts.
Import Group.
Context {B : Type} `{Balancer B}.

Lemma stopNodeHealthChecker_inv (ng ng1 : NodeGroup B) (on : option Node) :
  stopNodeHealthChecker ng on = Ok ng1 →
  ∃ n, on = Some n ∧ nodes ng1 = nodes ng ∧ balancer ng1 = balancer ng ∧
       healthCheckerCancel (stateOf ng1 n)
       = (λ _, true) <$> healthCheckerCancel (stateOf ng n) ∧
       healthy (stateOf ng1 n) = healthy (stateOf ng n).
Proof.
  destruct on as [n|]; [|done]. cbn [stopNodeHealthChecker].
  destruct (healthCheckerCancel (stateOf ng n)) as [c|] eqn:Hc.
  - intros [= <-]. exists n. rewrite stateOf_setState.
    rewrite decide_True by done. by rewrite Hc.
  - intros [= <-]. exists n. by rewrite Hc.
Qed.

Lemma DeleteNode_inv nk (ng ng' : NodeGroup B) :
  DeleteNode nk ng = Ok ng' →
  ∃ n0 ng1 b,
    nodes ng !! nk = Some n0 ∧
    stopNodeHealthChecker ng (Some n0) = Ok ng1 ∧
    bDeleteNode nk (balancer ng) = Ok b ∧
    ng' = setNodes (setBalancer ng1 b) (delete nk (nodes ng)).
Proof.
  unfold DeleteNode.
  destruct (stopNodeHealthChecker ng (nodes ng !! nk)) as [ng1| |] eqn:Hs;
    [|done..].
  cbn [mbind res_bind].
  destruct (stopNodeHealthChecker_inv _ _ _ Hs) as (n0 & Hn0 & Hn & Hb & _).
  rewrite Hn0 in Hs. rewrite Hb, Hn.
  destruct (bDeleteNode nk (balancer ng)) as [b| |] eqn:Hd; [|done..].
  cbn [mbind res_bind]. intros [= <-]. by exists n0, ng1, b.
Qed.

Lemma nodeKey_eta (n : Node) :
  {| Host := Host (nodeKey n); Port := Port (nodeKey n) |} = nodeKey n.
Proof. by destruct n as [a [h p] w]. Qed.

Lemma AddNode_lookup (ng : NodeGroup B) (n : Node) :
  nodes (AddNode (Some n) ng) !! nodeKey n = Some n.
Proof.
  unfold AddNode, startNodeHealthChecker. rewrite nodeKey_eta.
  destruct (healthCheckerCancel _); cbn [nodes setNodes setState];
    by rewrite lookup_insert_eq.
Qed.

Lemma AddNode_running (ng : NodeGroup B) (n : Node) :
  is_Some (healthCheckerCancel (stateOf (AddNode (Some n) ng) n)).
Proof.
  unfold AddNode, startNodeHealthChecker.
  destruct (healthCheckerCancel (stateOf (setNodes ng _) n)) as [c|] eqn:Hc0.
  - rewrite Hc0. eauto.
  - rewrite stateOf_setState, decide_True by done. cbn. eauto.
Qed.

End group_more_facts.

(** X7.  The group's [DeleteNode] returns only for a key that the group
    holds.  It then has cancelled the health checker of the node, handed
    the key to the balancer's [DeleteNode], and removed the key from the
    group; and a probe of that node which completes afterwards finds the
    key gone and leaves the group, its balancer included, as it is. *)
Theorem group_delete_then_probe {B : Type} `{Balancer B}
    (ng ng' : Group.NodeGroup B) (nk : NodeKey) :
  Group.DeleteNode nk ng = Ok ng' →
  ∃ n0,
    Group.nodes ng !! nk = Some n0 ∧
    Group.nodes ng' = delete nk (Group.nodes ng) ∧
    bDeleteNode nk (Group.balancer ng) = Ok (Group.balancer ng') ∧
    Group.healthCheckerCancel (Group.stateOf ng' n0) ≠ Some false ∧
    ∀ n o, nodeKey n = nk → Group.checkNodeHealth n o ng' = Ok ng'.
Proof.
  intros HD.
  destruct (DeleteNode_inv nk ng ng' HD) as (n0 & ng1 & b & Hn0 & Hs & Hb & ->).
  destruct (stopNodeHealthChecker_inv _ _ _ Hs)
    as (n & [= <-] & Hn & _ & Hc & _).
  exists n0. split_and!; [done|done|done| |].
  - change (Group.stateOf (Group.setNodes (Group.setBalancer ng1 b) _) n0)
      with (Group.stateOf ng1 n0).
    rewrite Hc. by destruct (Group.healthCheckerCancel (Group.stateOf ng n0)).
  - intros n o <-. unfold Group.checkNodeHealth. cbn [Group.nodes Group.setNodes].
    by rewrite lookup_delete_eq.
Qed.

Module GroupDeleteExample.
(** [GroupExample.g0] with the node [A] added. *)
Definition g1 : Group.NodeGroup RR.RR :=
  Group.AddNode (Some GroupExample.A) GroupExample.g0.
Definition g2 : Group.NodeGroup RR.RR :=
  match Group.DeleteNode (nodeKey GroupExample.A) g1 with
  | Ok g => g
  | _ => g1
  end.
End GroupDeleteExample.

Lemma group_delete_then_probe_witness :
  ∃ n0,
    Group.nodes GroupDeleteExample.g1 !! nodeKey GroupExample.A = Some n0 ∧
    Group.nodes GroupDeleteExample.g2
    = delete (nodeKey GroupExample.A) (Group.nodes GroupDeleteExample.g1) ∧
    bDeleteNode (nodeKey GroupExample.A)
      (Group.balancer GroupDeleteExample.g1)
    = Ok (Group.balancer GroupDeleteExample.g2) ∧
    Group.healthCheckerCancel (Group.stateOf GroupDeleteExample.g2 n0)
    ≠ Some false ∧
    ∀ n o, nodeKey n = nodeKey GroupExample.A →
           Group.checkNodeHealth n o GroupDeleteExample.g2
           = Ok GroupDeleteExample.g2.
Proof.
  apply (group_delete_then_probe GroupDeleteExample.g1 GroupDeleteExample.g2
           (nodeKey GroupExample.A)).
  vm_compute. reflexivity.
Defined.

(** X8.  The health check is edge-triggered.  For a node of the group, a
    completed probe leaves the node's [healthy] flag equal to the verdict
    of the probe (no error and status 200).  The balancer is touched only
    when the flag changes: its [AddNode] is called when an unhealthy node
    passes, its [DeleteNode] when a healthy node fails, and a probe whose
    verdict agrees with the flag changes nothing.  In particular the same
    answer a second time changes nothing. *)
Theorem probe_edge_triggered {B : Type} `{Balancer B}
    (ng ng1 : Group.NodeGroup B) (n : Node) (o : Group.probe) :
  is_Some (Group.nodes ng !! nodeKey n) →
  Group.checkNodeHealth n o ng = Ok ng1 →
  Group.healthy (Group.stateOf ng1 n) = Group.probe_ok o ∧
  Group.nodes ng1 = Group.nodes ng ∧
  (Group.healthy (Group.stateOf ng n) = Group.probe_ok o → ng1 = ng) ∧
  (Group.healthy (Group.stateOf ng n) = false → Group.probe_ok o = true →
   bAddNode n (Group.balancer ng) = Ok (Group.balancer ng1)) ∧
  (Group.healthy (Group.stateOf ng n) = true → Group.probe_ok o = false →
   bDeleteNode (nodeKey n) (Group.balancer ng) = Ok (Group.balancer ng1)) ∧
  Group.checkNodeHealth n o ng1 = Ok ng1.
Proof.
  intros [n' Hn'] Hc.
  assert (Hmain :
    Group.healthy (Group.stateOf ng1 n) = Group.probe_ok o ∧
    Group.nodes ng1 = Group.nodes ng ∧
    (Group.healthy (Group.stateOf ng n) = Group.probe_ok o → ng1 = ng) ∧
    (Group.healthy (Group.stateOf ng n) = false → Group.probe_ok o = true →
     bAddNode n (Group.balancer ng) = Ok (Group.balancer ng1)) ∧
    (Group.healthy (Group.stateOf ng n) = true → Group.probe_ok o = false →
     bDeleteNode (nodeKey n) (Group.balancer ng) = Ok (Group.balancer ng1))).
  { unfold Group.checkNodeHealth in Hc. rewrite Hn' in Hc.
    destruct (Group.healthy (Group.stateOf ng n)) eqn:Hh,
             (Group.probe_ok o) eqn:Ho; cbn [andb negb] in Hc.
    - injection Hc as <-. by rewrite Hh.
    - cbn [Group.balancer Group.setState] in Hc.
      destruct (bDeleteNode (nodeKey n) (Group.balancer ng)) as [b| |] eqn:Hb;
        cbn [mbind res_bind] in Hc; [|done..].
      injection Hc as <-. split_and!; try done.
      change (Group.stateOf (Group.setBalancer ?g _) n)
        with (Group.stateOf g n).
      rewrite stateOf_setState. by rewrite decide_True.
    - cbn [Group.balancer Group.setState] in Hc.
      destruct (bAddNode n (Group.balancer ng)) as [b| |] eqn:Hb;
        cbn [mbind res_bind] in Hc; [|done..].
      injection Hc as <-. split_and!; try done.
      change (Group.stateOf (Group.setBalancer ?g _) n)
        with (Group.stateOf g n).
      rewrite stateOf_setState. by rewrite decide_True.
    - injection Hc as <-. by rewrite Hh. }
  destruct Hmain as (Hh1 & Hn1 & Hsame & Hadd & Hdel).
  split_and!; try done.
  unfold Group.checkNodeHealth. rewrite Hn1, Hn', Hh1.
  by destruct (Group.probe_ok o).
Qed.

Lemma probe_edge_triggered_witness :
  Group.healthy
    (Group.stateOf
       (Group.setBalancer
          (Group.setState GroupDeleteExample.g1 GroupExample.A
             {| Group.healthy := true;
                Group.healthCheckerCancel := Some false |})
          (RR.AddNode GroupExample.A RR.NewRR))
       GroupExample.A)
  = Group.probe_ok (Group.ProbeStatus 200).
Proof.
  refine (proj1 (probe_edge_triggered GroupDeleteExample.g1 _ GroupExample.A
                   (Group.ProbeStatus 200) _ _)).
  - vm_compute. eauto.
  - vm_compute. reflexivity.
Defined.

(** X9.  A node that was deleted from its group and is added again is not
    probed any more.  [DeleteNode] cancels the health checker and leaves the
    cancel function in the node; [AddNode] of the same node finds it there
    and starts no checker.  The node is back in the group, with a cancelled
    checker and the [healthy] flag it had, and the balancer is as
    [DeleteNode] left it. *)
Theorem group_readd_after_delete {B : Type} `{Balancer B}
    (ng ng2 : Group.NodeGroup B) (n : Node) :
  Group.DeleteNode (nodeKey n) (Group.AddNode (Some n) ng) = Ok ng2 →
  Group.nodes ng2 !! nodeKey n = None ∧
  Group.nodes (Group.AddNode (Some n) ng2) !! nodeKey n = Some n ∧
  Group.healthCheckerCancel (Group.stateOf (Group.AddNode (Some n) ng2) n)
  = Some true ∧
  Group.healthy (Group.stateOf (Group.AddNode (Some n) ng2) n)
  = Group.healthy (Group.stateOf ng n) ∧
  Group.balancer (Group.AddNode (Some n) ng2) = Group.balancer ng2.
Proof.
  intros HD.
  destruct (DeleteNode_inv _ _ _ HD) as (n0 & ng1 & b & Hn0 & Hs & Hb & ->).
  assert (n0 = n) as -> by (rewrite AddNode_lookup in Hn0; congruence).
  destruct (stopNodeHealthChecker_inv _ _ _ Hs)
    as (n' & [= <-] & Hn & _ & Hc & Hh).
  destruct (AddNode_running ng n) as [c0 Hc0]. rewrite Hc0 in Hc. cbn in Hc.
  set (ng2 := Group.setNodes (Group.setBalancer ng1 b) _) in *.
  assert (Hc2 : Group.healthCheckerCancel (Group.stateOf ng2 n) = Some true)
    by exact Hc.
  split_and!.
  - unfold ng2. cbn. by rewrite lookup_delete_eq.
  - apply AddNode_lookup.
  - unfold Group.AddNode, Group.startNodeHealthChecker.
    change (Group.stateOf (Group.setNodes ng2 ?m) n)
      with (Group.stateOf ng2 n).
    rewrite Hc2.
    change (Group.stateOf (Group.setNodes ng2 ?m) n)
      with (Group.stateOf ng2 n). done.
  - rewrite AddNode_healthy.
    change (Group.stateOf ng2 n) with (Group.stateOf ng1 n).
    by rewrite Hh, AddNode_healthy.
  - apply AddNode_balancer.
Qed.

Lemma group_readd_after_delete_witness :
  Group.healthCheckerCancel
    (Group.stateOf (Group.AddNode (Some GroupExample.A) GroupDeleteExample.g2)
       GroupExample.A)
  = Some true.
Proof.
  refine (proj1 (proj2 (proj2
            (group_readd_after_delete GroupExample.g0 GroupDeleteExample.g2
               GroupExample.A _)))).
  vm_compute. reflexivity.
Defined.

(** X10.  Adding the same node twice is adding it once: the second
    [AddNode] finds the cancel function of the running health checker and
    starts no second one, and the group's map holds the node under its key
    once. *)
Theorem group_add_idempotent {B : Type} `{Balancer B}
    (ng : Group.NodeGroup B) (n : Node) :
  Group.AddNode (Some n) (Group.AddNode (Some n) ng)
  = Group.AddNode (Some n) ng ∧
  Group.nodes (Group.AddNode (Some n) ng) !! nodeKey n = Some n ∧
  is_Some (Group.healthCheckerCancel
             (Group.stateOf (Group.AddNode (Some n) ng) n)).
Proof.
  pose proof (AddNode_running ng n) as Hrun.
  pose proof (AddNode_lookup ng n) as Hin.
  split_and!; [|done..].
  destruct Hrun as [c Hc].
  set (ng1 := Group.AddNode (Some n) ng) in *.
  unfold Group.AddNode at 1. unfold Group.startNodeHealthChecker.
  change (Group.stateOf (Group.setNodes ng1 ?m) n)
    with (Group.stateOf ng1 n).
  rewrite Hc, nodeKey_eta. unfold Group.setNodes.
  rewrite (insert_id _ _ _ Hin). by destruct ng1.
Qed.

(* ================================================================== *)
(** * The evaluator: conditions without a verdict, listeners, and the
      rule list as a multiset *)
(* ================================================================== *)

Section evaluator_more_facts.
Import Evaluator.
Context `{GoLib}.

Lemma negb_eqb_false (b : bool) : negb (Bool.eqb false b) = b.
Proof. by destruct b. Qed.

(** No condition changes the arrival-listener tag of the request, as long
    as [ParseForm] does not. *)
Lemma evaluateCondition_listener r c out r1 :
  (∀ r0, ArrivalListener (ParseForm r0).2 = ArrivalListener r0) →
  evaluateCondition r c = Ok (out, r1) →
  ArrivalListener r1 = ArrivalListener r.
Proof.
  intros Hpf. unfold evaluateCondition.
  destruct (evaluateCondType r c) as [[[ret err] r']| |] eqn:Ht; [|done..].
  cbn [mbind res_bind]. intros [= _ <-].
  unfold evaluateCondType in Ht.
  repeat case_decide.
  - unfold evaluateCondPath in Ht. by simplify_eq.
  - unfold evaluateCondQuery in Ht.
    destruct (URLQuery r !! Key c) as [[|v vv]|];
      cbn [first_value mbind res_bind] in Ht; by simplify_eq.
  - unfold evaluateCondBodyString in Ht.
    destruct (Body r); by simplify_eq.
  - unfold evaluateCondBodyForm in Ht. specialize (Hpf r).
    destruct (ParseForm r) as [[e|] r0]; cbn in Hpf.
    + by simplify_eq.
    + destruct (PostForm r0 ≫= _) as [[|v vv]|];
        cbn [first_value mbind res_bind] in Ht; by simplify_eq.
  - unfold evaluateCondHeader in Ht.
    destruct (HeaderMap r !! Key c) as [[|v vv]|];
      cbn [first_value mbind res_bind] in Ht; by simplify_eq.
  - unfold evaluateCondIP in Ht. case_decide; [by simplify_eq|].
    destruct (ParseCIDR (Value c)); by simplify_eq.
  - by simplify_eq.
Qed.

Lemma evaluateConditions_listener cs :
  (∀ r0, ArrivalListener (ParseForm r0).2 = ArrivalListener r0) →
  ∀ r out r1, evaluateConditions r cs = Ok (out, r1) →
              ArrivalListener r1 = ArrivalListener r.
Proof.
  intros Hpf. induction cs as [|c cs IH]; intros r out r1.
  - by intros [= _ <-].
  - rewrite evaluateConditions_cons.
    destruct (evaluateCondition r c) as [[[ret err] r']| |] eqn:Hc; [|done..].
    cbn [mbind res_bind].
    pose proof (evaluateCondition_listener _ _ _ _ Hpf Hc) as Hl.
    destruct err as [e|]; [by intros [= _ <-]|].
    destruct ret; cbn [negb]; [|by intros [= _ <-]].
    intros Hrest. rewrite <- Hl. by eapply IH.
Qed.

Lemma evaluateRequest_filter (lnr : option string) rules :
  (∀ r0, ArrivalListener (ParseForm r0).2 = ArrivalListener r0) →
  ∀ r, ArrivalListener r = lnr →
       evaluateRequest r rules
       = evaluateRequest r
           (filter (λ rule, lnr = Some (Listener rule)) rules).
Proof.
  intros Hpf. induction rules as [|rule rules IH]; intros r Hl; [done|].
  rewrite filter_cons. case_decide as Hon.
  - assert (Hon' : on_listener r rule) by (unfold on_listener; congruence).
    rewrite !evaluateRequest_on by done.
    destruct (evaluateConditions r (Conditions rule))
      as [[[b err] r1]| |] eqn:Hc; [|done..].
    cbn [mbind res_bind]. destruct err as [e|]; [done|].
    destruct b; [done|]. apply IH.
    rewrite <- Hl. by eapply evaluateConditions_listener.
  - rewrite evaluateRequest_skip by (unfold on_listener; congruence).
    by apply IH.
Qed.

Lemma insertStable_perm x l : insertStable x l ≡ₚ x :: l.
Proof.
  induction l as [|y l IH]; cbn [insertStable]; [done|].
  case_decide; [|done]. rewrite IH. apply Permutation_swap.
Qed.

Lemma SliceStable_perm l : SliceStable l ≡ₚ l.
Proof.
  induction l as [|x l IH]; [done|].
  change (SliceStable (x :: l)) with (insertStable x (SliceStable l)).
  by rewrite insertStable_perm, IH.
Qed.

Lemma DeleteRule_notin r l : r ∉ l → DeleteRule r l = l.
Proof.
  induction l as [|y l IH]; cbn [DeleteRule]; [done|].
  rewrite not_elem_of_cons. intros [Hne Hnin].
  rewrite decide_False by done. by rewrite IH.
Qed.

Lemma DeleteRule_perm r l : r ∈ l → r :: DeleteRule r l ≡ₚ l.
Proof.
  induction l as [|y l IH]; cbn [DeleteRule].
  - intros Hin. by apply elem_of_nil in Hin.
  - case_decide as Hy; [by subst y|].
    rewrite elem_of_cons. intros [->|Hin]; [done|].
    rewrite Permutation_swap. by rewrite IH.
Qed.

Lemma insertStable_head y l :
  Forall (by_priority y) l → insertStable y l = y :: l.
Proof.
  destruct 1 as [|z l Hz _]; cbn [insertStable]; [done|].
  unfold by_priority in Hz. by rewrite decide_False by lia.
Qed.

(** In a sorted list, deleting a rule and inserting another commute. *)
Lemma DeleteRule_insertStable r y l :
  y ≠ r → StronglySorted by_priority l →
  DeleteRule r (insertStable y l) = insertStable y (DeleteRule r l).
Proof.
  intros Hne. induction 1 as [|z l Hl IH Hz]; cbn [insertStable DeleteRule].
  - by rewrite decide_False.
  - repeat (case_decide || cbn [DeleteRule insertStable]);
      subst; try done; try lia.
    + by rewrite IH.
    + symmetry. apply insertStable_head.
      eapply Forall_impl; [exact Hz|]. unfold by_priority. intros w. lia.
Qed.

Lemma AddRule_DeleteRule r e :
  StronglySorted by_priority e → r ∉ e → DeleteRule r (AddRule r e) = e.
Proof.
  unfold AddRule, SliceStable. rewrite foldr_app. cbn [foldr insertStable].
  induction 1 as [|y e He IH Hy]; intros Hnin; cbn [foldr].
  - cbn [DeleteRule]. by rewrite decide_True.
  - apply not_elem_of_cons in Hnin as [Hne Hnin].
    rewrite DeleteRule_insertStable.
    + rewrite IH by done. by apply insertStable_head.
    + done.
    + change (foldr insertStable [r] e)
        with (foldr insertStable (foldr insertStable [] [r]) e).
      rewrite <- foldr_app. apply SliceStable_sorted.
Qed.

Lemma rules_sorted (ops : list op) :
  StronglySorted by_priority (foldl step [] ops).
Proof.
  induction ops as [|o ops IH] using rev_ind; [constructor|].
  rewrite foldl_app. cbn [foldl].
  destruct o as [r|r]; cbn [step];
    [apply SliceStable_sorted|by apply DeleteRule_sorted].
Qed.

End evaluator_more_facts.

(** X11.  A Query or Header condition whose key the request does not
    carry gives no verdict of its own: whatever its operation and its
    value (an operation that is not one of the string operations
    included), the condition evaluates without error to its [Not] flag,
    and the request is as it was.  A negated condition on a missing key is
    therefore satisfied. *)
Theorem condition_missing_key `{Evaluator.GoLib}
    (r : Evaluator.Request) (c : Evaluator.Condition) :
  (Evaluator.Type_ c = Evaluator.Query ∧
   Evaluator.URLQuery r !! Evaluator.Key c = None) ∨
  (Evaluator.Type_ c = Evaluator.Header ∧
   Evaluator.HeaderMap r !! Evaluator.Key c = None) →
  Evaluator.evaluateCondition r c = Ok ((Evaluator.Not c, None), r).
Proof.
  unfold Evaluator.evaluateCondition, Evaluator.evaluateCondType.
  intros [[Ht Hk]|[Ht Hk]]; rewrite Ht.
  - rewrite decide_False by done. rewrite decide_True by done.
    unfold Evaluator.evaluateCondQuery. rewrite Hk. cbn [mbind res_bind].
    by rewrite negb_eqb_false.
  - do 4 rewrite decide_False by done. rewrite decide_True by done.
    unfold Evaluator.evaluateCondHeader. rewrite Hk. cbn [mbind res_bind].
    by rewrite negb_eqb_false.
Qed.

Lemma condition_missing_key_witness :
  Evaluator.evaluateCondition (H := EvalExample.lib) EvalExample.req
    (Evaluator.mkCondition true Evaluator.Query "q" Evaluator.Range "x")
  = Ok ((true, None), EvalExample.req).
Proof.
  apply (condition_missing_key (H := EvalExample.lib) EvalExample.req
           (Evaluator.mkCondition true Evaluator.Query "q"
              Evaluator.Range "x")).
  left. split; reflexivity.
Defined.

(** X12.  A condition whose type is none of the six the evaluator knows
    falls through the [switch]: it evaluates without error to its [Not]
    flag and leaves the request as it was. *)
Theorem condition_unknown_type `{Evaluator.GoLib}
    (r : Evaluator.Request) (c : Evaluator.Condition) :
  Evaluator.Type_ c < 0 ∨ 5 < Evaluator.Type_ c →
  Evaluator.evaluateCondition r c = Ok ((Evaluator.Not c, None), r).
Proof.
  intros Ht.
  unfold Evaluator.evaluateCondition, Evaluator.evaluateCondType,
    Evaluator.Path, Evaluator.Query, Evaluator.BodyString,
    Evaluator.BodyForm, Evaluator.Header, Evaluator.IP.
  do 6 rewrite decide_False by lia. cbn [mbind res_bind].
  by rewrite negb_eqb_false.
Qed.

Lemma condition_unknown_type_witness :
  Evaluator.evaluateCondition (H := EvalExample.lib) EvalExample.req
    (Evaluator.mkCondition true 6 "" Evaluator.Equal "")
  = Ok ((true, None), EvalExample.req).
Proof.
  apply (condition_unknown_type (H := EvalExample.lib) EvalExample.req
           (Evaluator.mkCondition true 6 "" Evaluator.Equal "")).
  right. reflexivity.
Defined.

(** X13.  Rules of other listeners have no part in the evaluation of a
    request: [evaluateRequest] returns what it returns on the list of the
    rules of the request's arrival listener alone (none, when the request
    carries no listener tag).  This holds with any library whose
    [ParseForm] leaves the context of the request alone. *)
Theorem evaluateRequest_other_listeners `{Evaluator.GoLib}
    (r : Evaluator.Request) (rules : list Evaluator.Rule) :
  (∀ r0, Evaluator.ArrivalListener (Evaluator.ParseForm r0).2
         = Evaluator.ArrivalListener r0) →
  Evaluator.evaluateRequest r rules
  = Evaluator.evaluateRequest r
      (filter (λ rule, Evaluator.ArrivalListener r
                       = Some (Evaluator.Listener rule)) rules).
Proof. intros Hpf. by apply evaluateRequest_filter. Qed.

Lemma evaluateRequest_other_listeners_witness :
  Evaluator.evaluateRequest (H := EvalExample.lib) EvalExample.req
    [EvalExample.catchAll]
  = Evaluator.evaluateRequest (H := EvalExample.lib) EvalExample.req
      (filter (λ rule, Evaluator.ArrivalListener EvalExample.req
                       = Some (Evaluator.Listener rule))
         [EvalExample.catchAll]).
Proof.
  apply (evaluateRequest_other_listeners (H := EvalExample.lib)
           EvalExample.req [EvalExample.catchAll]).
  intros r0. reflexivity.
Defined.

(** X14.  Adding a rule and deleting it again gives the rule list back.
    For the list of any evaluator a program can hold and a rule that is not
    in it, [DeleteRule] after [AddRule] leaves the list exactly as it was,
    order included. *)
Theorem add_delete_rule_round_trip (ops : list Evaluator.op)
    (r : Evaluator.Rule) :
  r ∉ foldl Evaluator.step [] ops →
  Evaluator.DeleteRule r (Evaluator.AddRule r (foldl Evaluator.step [] ops))
  = foldl Evaluator.step [] ops.
Proof. intros Hnin. apply AddRule_DeleteRule; [apply rules_sorted|done]. Qed.

Lemma add_delete_rule_round_trip_witness :
  Evaluator.DeleteRule EvalExample.broken
    (Evaluator.AddRule EvalExample.broken
       (foldl Evaluator.step [] [Evaluator.OpAddRule EvalExample.catchAll]))
  = foldl Evaluator.step [] [Evaluator.OpAddRule EvalExample.catchAll].
Proof.
  apply (add_delete_rule_round_trip
           [Evaluator.OpAddRule EvalExample.catchAll] EvalExample.broken).
  apply (bool_decide_unpack _). vm_compute. exact I.
Defined.

(** X15.  The rule list as a multiset.  [AddRule] adds the rule and
    nothing else: the new list is a permutation of the old one with the
    rule.  [DeleteRule] takes out one occurrence of the rule when there is
    one, and leaves the list as it is when there is none. *)
Theorem rule_list_multiset (r : Evaluator.Rule) (e : list Evaluator.Rule) :
  Evaluator.AddRule r e ≡ₚ r :: e ∧
  (r ∈ e → r :: Evaluator.DeleteRule r e ≡ₚ e) ∧
  (r ∉ e → Evaluator.DeleteRule r e = e).
Proof.
  split_and!.
  - unfold Evaluator.AddRule. rewrite SliceStable_perm.
    by rewrite Permutation_app_comm.
  - apply DeleteRule_perm.
  - apply DeleteRule_notin.
Qed.

(* ================================================================== *)
(** * The handlers: evaluator, mux and router *)
(* ================================================================== *)

Section handler_facts.
Import Evaluator.
Context `{GoLib}.

(** An action returned without error is the reject action of the end of
    the list, or the action of a rule of the list on the listener of the
    request whose conditions all evaluated to true, when [ParseForm]
    leaves the context of the request alone. *)
Lemma evaluateRequest_action rules :
  (∀ r0, ArrivalListener (ParseForm r0).2 = ArrivalListener r0) →
  ∀ r a r1,
    evaluateRequest r rules = Ok ((a, None), r1) →
    a = noRuleAction ∨
    ∃ rule r0, rule ∈ rules ∧ on_listener r rule ∧
               ArrivalListener r0 = ArrivalListener r ∧
               conds_true r0 (Conditions rule) r1 ∧ a = action rule.
Proof.
  intros Hpf. induction rules as [|rule rules IH]; intros r a r1.
  - intros [= <- <-]. by left.
  - destruct (decide (ArrivalListener r = Some (Listener rule))) as [Hon|Hno].
    2:{ rewrite evaluateRequest_skip by done. intros Hrest.
        destruct (IH _ _ _ Hrest) as [->|(rl & r0 & Hin & ?)]; [by left|].
        right. exists rl, r0. split; [by right|done]. }
    rewrite evaluateRequest_on by done.
    destruct (evaluateConditions r (Conditions rule))
      as [[[b [e|]] r']| |] eqn:Hc; cbn [mbind res_bind]; try done.
    pose proof (evaluateConditions_listener _ Hpf _ _ _ Hc) as Hl.
    destruct b.
    + intros [= <- <-]. right. exists rule, r.
      split_and!; [by left|done|done| |done].
      by apply evaluateConditions_true.
    + intros Hrest.
      destruct (IH _ _ _ Hrest)
        as [->|(rl & r0 & Hin & Hon' & Hl0 & Hct & Ha)]; [by left|].
      right. exists rl, r0. unfold on_listener in *.
      split_and!; [by right|congruence|congruence|done..].
Qed.

End handler_facts.

(** X16.  The evaluator's handler passes a request on to the next handler
    only for a rule that matched: when it ends with [next.ServeHTTP], the
    node group in the context of the request is not empty and is the
    [NodeGroup] of the action of a rule of the list, a rule on the
    listener the request arrived on, whose conditions all evaluated to
    true on the request as the rules before it left it, a request of that
    same listener.  This holds with any library whose [ParseForm] leaves
    the context of the request alone. *)
Theorem handler_forwards_matched `{Evaluator.GoLib}
    (rules : list Evaluator.Rule) (r r1 : Evaluator.Request)
    (e : Evaluator.EvaluationResult) :
  (∀ r0, Evaluator.ArrivalListener (Evaluator.ParseForm r0).2
         = Evaluator.ArrivalListener r0) →
  Evaluator.Handler rules r = Ok (Evaluator.ServeNext e r1) →
  Evaluator.ResultNodeGroup e ≠ "" ∧
  ∃ rule r0,
    rule ∈ rules ∧
    Evaluator.ArrivalListener r = Some (Evaluator.Listener rule) ∧
    Evaluator.ArrivalListener r0 = Evaluator.ArrivalListener r ∧
    Evaluator.conds_true r0 (Evaluator.Conditions rule) r1 ∧
    Evaluator.NodeGroup (Evaluator.action rule) = Evaluator.ResultNodeGroup e.
Proof.
  intros Hpf. unfold Evaluator.Handler.
  destruct (Evaluator.evaluateRequest r rules) as [[[a [err|]] r']| |] eqn:He;
    cbn [mbind res_bind]; try done.
  repeat case_decide; try done. intros [= <- <-]. cbn. split; [done|].
  destruct (evaluateRequest_action _ Hpf _ _ _ He)
    as [->|(rule & r0 & ? & ? & ? & ? & ->)].
  - done.
  - by exists rule, r0.
Qed.

Lemma handler_forwards_matched_witness :
  Evaluator.ResultNodeGroup (Evaluator.mkEvaluationResult "group") ≠ "" ∧
  ∃ rule r0,
    rule ∈ [EvalExample.catchAll] ∧
    Evaluator.ArrivalListener EvalExample.req
    = Some (Evaluator.Listener rule) ∧
    Evaluator.ArrivalListener r0 = Evaluator.ArrivalListener EvalExample.req ∧
    Evaluator.conds_true (H := EvalExample.lib) r0
      (Evaluator.Conditions rule) EvalExample.req ∧
    Evaluator.NodeGroup (Evaluator.action rule)
    = Evaluator.ResultNodeGroup (Evaluator.mkEvaluationResult "group").
Proof.
  apply (handler_forwards_matched (H := EvalExample.lib)
           [EvalExample.catchAll] EvalExample.req EvalExample.req
           (Evaluator.mkEvaluationResult "group")).
  - intros r0. reflexivity.
  - vm_compute. reflexivity.
Defined.

(** X17.  A request for which the list holds no rule of its listener (the
    list is empty, the request carries no listener tag, or every rule is
    on another listener) is answered with status 500 and the message "no
    rule was satisfied". *)
Theorem handler_no_rule `{Evaluator.GoLib}
    (rules : list Evaluator.Rule) (r : Evaluator.Request) :
  Forall (λ rule, ¬ Evaluator.on_listener r rule) rules →
  Evaluator.Handler rules r
  = Ok (Evaluator.WriteError 500 "no rule was satisfied").
Proof.
  intros Hno. unfold Evaluator.Handler.
  by rewrite (evaluateRequest_all_skipped r rules Hno).
Qed.

Lemma handler_no_rule_witness :
  Evaluator.Handler (H := EvalExample.lib) [] EvalExample.req
  = Ok (Evaluator.WriteError 500 "no rule was satisfied").
Proof.
  apply (handler_no_rule (H := EvalExample.lib) [] EvalExample.req).
  apply Forall_nil_2.
Defined.

(** X18.  A condition that cannot be evaluated turns the request into a
    502.  When the first rule on the listener of the request has a
    condition that fails with an error, after conditions that evaluated to
    true, the handler answers with status 502 and the message "rule
    evaluation failed", whatever rules follow. *)
Theorem handler_evaluation_error `{Evaluator.GoLib}
    (pre post : list Evaluator.Rule) (rule : Evaluator.Rule)
    (r r1 : Evaluator.Request) (e : Evaluator.error) :
  Forall (λ rule, ¬ Evaluator.on_listener r rule) pre →
  Evaluator.on_listener r rule →
  Evaluator.conds_error r (Evaluator.Conditions rule) e r1 →
  Evaluator.Handler (pre ++ rule :: post) r
  = Ok (Evaluator.WriteError 502 "rule evaluation failed").
Proof.
  intros Hpre Hon Herr. unfold Evaluator.Handler.
  assert (He : Evaluator.evaluateRequest r (pre ++ rule :: post)
               = Ok ((Evaluator.zeroAction, Some e), r1)).
  { induction Hpre as [|x pre Hx _ IH]; cbn [app].
    - apply evaluateRequest_selects. by apply Evaluator.selects_error.
    - by rewrite evaluateRequest_skip. }
  by rewrite He.
Qed.

Lemma handler_evaluation_error_witness :
  Evaluator.Handler (H := EvalExample.lib)
    ([] ++ EvalExample.broken :: [EvalExample.catchAll]) EvalExample.req
  = Ok (Evaluator.WriteError 502 "rule evaluation failed").
Proof.
  apply (handler_evaluation_error (H := EvalExample.lib) []
           [EvalExample.catchAll] EvalExample.broken EvalExample.req
           EvalExample.req
           "evaluator/condition: invalid operation for IP type").
  - apply Forall_nil_2.
  - reflexivity.
  - eapply Evaluator.conds_error_here. vm_compute. reflexivity.
Defined.

Section mux_facts.
Context {Handler : Type}.

Lemma chainLoop_foldr (m : Mux.Mux (Handler := Handler)) (n : nat) :
  (n ≤ length m)%nat →
  ∀ f, Mux.chainLoop m n f = Ok (foldr (λ h g, h g) f (take n m)).
Proof.
  unfold Mux.Mux in *.
  induction n as [|i IH]; intros Hn f; cbn [Mux.chainLoop].
  - by rewrite take_0.
  - destruct (lookup_lt_is_Some_2 m i) as [h Hh]; [lia|].
    unfold Mux.Mux. rewrite Hh, IH by lia.
    by rewrite (take_S_r _ _ _ Hh), foldr_app.
Qed.

End mux_facts.

(** X19.  The mux serves a request through its handlers in the order in
    which they were chained, the first one outermost and the endpoint
    innermost; with fewer than two handlers it panics.  The chain that
    [Start] builds, the evaluator's handler and then the router's, never
    panics: the request goes to the evaluator's handler, whose next
    handler is the router's. *)
Theorem mux_serve_order {Handler : Type}
    (m : Mux.Mux (Handler := Handler)) (endpoint : Handler)
    (h1 h2 : Handler → Handler) :
  Mux.ServeHTTP m endpoint
  = (if decide (length m < 2)%nat then Panic
     else Ok (foldr (λ h f, h f) endpoint m)) ∧
  Mux.ServeHTTP (Mux.Chain h2 (Mux.Chain h1 Mux.NewMux)) endpoint
  = Ok (h1 (h2 endpoint)).
Proof.
  split; [|reflexivity].
  unfold Mux.ServeHTTP, Mux.Mux in *. case_decide as Hlen; [done|].
  destruct (lookup_lt_is_Some_2 m (length m - 1)) as [h Hh]; [lia|].
  rewrite Hh, chainLoop_foldr by lia.
  replace (length m - 2 + 1)%nat with (length m - 1)%nat by lia.
  assert (Hm : m = take (length m - 1) m ++ [h]).
  { rewrite <- (take_S_r _ _ _ Hh).
    replace (S (length m - 1)) with (length m) by lia.
    by rewrite firstn_all. }
  f_equal. symmetry.
  etransitivity; [exact (f_equal (foldr (λ h f, h f) endpoint) Hm)|].
  by rewrite foldr_app.
Qed.

Section routing_facts.
Import Group.
Context {B : Type} `{Balancer B}.




Lemma New_snoc (ngs : list (NodeGroup B)) n :
  Routing.New (ngs ++ [n]) = <[Name n := n]> (Routing.New ngs).
Proof. unfold Routing.New. by rewrite foldl_app. Qed.

End routing_facts.

(** X20.  The router built by [New] finds every group under its name; when
    several groups have one name, it is the last of them in the list that
    the router holds, and a name that no group has is not found. *)
Theorem router_new_lookup {B : Type} `{Balancer B}
    (ngs : list (Group.NodeGroup B)) (name : string) :
  Routing.New ngs !! name
  = last (filter (λ n, Group.Name n = name) ngs).
Proof.
  induction ngs as [|n ngs IH] using rev_ind; [done|].
  rewrite New_snoc, filter_app, filter_cons, filter_nil.
  unfold Routing.Router in *. case_decide as Hn.
  - rewrite <- Hn, lookup_insert_eq. by rewrite last_snoc.
  - rewrite lookup_insert_ne by done. by rewrite app_nil_r.
Qed.


Module RoutingExample.
(** A router that holds the group [GroupExample.g1], whose only node has
    failed its probes, and what its handler answers to a request that the
    evaluator sent to that group. *)
Definition transport : Routing.Transport :=
  λ _ _, Routing.Response 200 [] "ok".
Definition rtr : Routing.Router := Routing.New [GroupExample.g1].
Definition out : Routing.served * Routing.Router :=
  match Routing.Handler transport rtr
          (Some (Evaluator.mkEvaluationResult "g")) with
  | Ok o => o
  | _ => (Routing.WriteError 0 "", rtr)
  end.
End RoutingExample.


(** X22.  The interval of the health checker, in seconds, for which the
    checker runs.  An interval from 1 to 9223372036 gives a ticker of that
    many seconds.  An interval of 0 (the value of a configuration that
    leaves it out) or below makes [time.NewTicker] panic in the checker's
    goroutine, and so does an interval from 9223372037 on, whose product
    with [time.Second] wraps around to a negative duration. *)
Theorem health_ticker_range (hc : Group.HealthCheckConfig) :
  (1 ≤ Group.Interval hc ≤ 9223372036 →
   Group.healthTicker hc = Ok (Group.Interval hc * 1000000000)) ∧
  (-9223372036 ≤ Group.Interval hc ≤ 0 → Group.healthTicker hc = Panic) ∧
  (9223372037 ≤ Group.Interval hc ≤ 18446744073 →
   Group.healthTicker hc = Panic).
Proof.
  unfold Group.healthTicker, Group.NewTicker, Group.seconds, Group.Second.
  split_and!; intros Hi.
  - rewrite GoInt.wrap64_id by (unfold GoInt.is_int; lia).
    by rewrite decide_False by lia.
  - rewrite GoInt.wrap64_id by (unfold GoInt.is_int; lia).
    by rewrite decide_True by lia.
  - rewrite decide_True; [done|].
    assert (GoInt.wrap64 (Group.Interval hc * 1000000000) < 0); [|lia].
    unfold GoInt.wrap64.
    replace (Group.Interval hc * 1000000000 + 2 ^ 63)
      with (Group.Interval hc * 1000000000 - 2 ^ 63 + 1 * 2 ^ 64) by lia.
    rewrite Z.mod_add, Z.mod_small by lia. lia.
Qed.

(* ================================================================== *)
(** * Least connections: the methods return, and the counters count *)
(* ================================================================== *)

Section lc_load_facts.
Import LC.

Ltac res_simpl := cbn [mbind res_bind mret res_ret negb].

Ltac bind_inv H x E :=
  match type of H with
  | mbind _ ?m = Ok _ =>
      destruct m as [x| |] eqn:E; cbn [mbind res_bind] in H;
      [|discriminate H..]
  end.

Lemma at_index_inv l i p :
  at_index l i = Ok p → 0 ≤ i ∧ nodes l !! Z.to_nat i = Some p.
Proof.
  unfold at_index. case_decide; [|done].
  destruct (nodes l !! Z.to_nat i) as [q|]; [|done]. by intros [= <-].
Qed.

Lemma deref_inv l p c : deref l p = Ok c → mem l !! p = Some c.
Proof. unfold deref. destruct (mem l !! p); [|done]. by intros [= <-]. Qed.

Lemma store_load l p f l' :
  (∀ c, reqs (f c) = reqs c) → store l p f = Ok l' →
  nodes l' = nodes l ∧ ∀ q, load l' q = load l q.
Proof.
  intros Hf. unfold store, deref.
  destruct (mem l !! p) as [c|] eqn:Hc; [|done]. res_simpl.
  intros [= <-]. split; [done|]. intros q. unfold load. cbn [mem].
  destruct (decide (q = p)) as [->|Hne].
  - rewrite lookup_insert_eq, Hc. cbn. by rewrite Hf.
  - by rewrite lookup_insert_ne.
Qed.

(** [Swap] and the sift loops write indexes only. *)
Lemma Swap_load l i j l' : Swap l i j = Ok l' → ∀ q, load l' q = load l q.
Proof.
  unfold Swap. intros Hs.
  bind_inv Hs pi Epi. bind_inv Hs pj Epj.
  bind_inv Hs qi Eqi. bind_inv Hs l2 El2. bind_inv Hs qj Eqj.
  apply store_load in El2 as [_ Hl2]; [|done].
  apply store_load in Hs as [_ Hl3]; [|done].
  intros q. by rewrite Hl3, Hl2.
Qed.

Lemma up_load fuel :
  ∀ l j l', up fuel l j = Ok l' → ∀ q, load l' q = load l q.
Proof.
  induction fuel as [|fuel IH]; intros l j l'; cbn [up]; [done|].
  case_decide; [by intros [= <-]|].
  intros Hu. bind_inv Hu less Eless.
  destruct less; cbn [negb] in Hu; [|by injection Hu as <-].
  bind_inv Hu l1 El1. intros q.
  rewrite (IH _ _ _ Hu). by apply (Swap_load _ _ _ _ El1).
Qed.

Lemma down_loop_load fuel :
  ∀ l i n l' i', down_loop fuel l i n = Ok (l', i') →
                 ∀ q, load l' q = load l q.
Proof.
  induction fuel as [|fuel IH]; intros l i n l' i'; cbn [down_loop]; [done|].
  case_decide; [by intros [= <- <-]|].
  intros Hd. bind_inv Hd less2 Eless2. bind_inv Hd less Eless.
  destruct less; cbn [negb] in Hd; [|by injection Hd as <- <-].
  bind_inv Hd l1 El1. intros q.
  rewrite (IH _ _ _ _ _ Hd). by apply (Swap_load _ _ _ _ El1).
Qed.

Lemma sift_load fuel l i n l' :
  ('(l2, moved) ← down fuel l i n;
   if negb moved then up fuel l2 i else Ok l2) = Ok l' →
  ∀ q, load l' q = load l q.
Proof.
  unfold down. intros Hf.
  destruct (down_loop fuel l i n) as [[l1 i']| |] eqn:Hd;
    cbn [mbind res_bind] in Hf; [|done..].
  pose proof (down_loop_load _ _ _ _ _ _ Hd) as Hl1.
  destruct (bool_decide (i' > i)); cbn [negb] in Hf.
  - by injection Hf as <-.
  - intros q. rewrite (up_load _ _ _ _ Hf). apply Hl1.
Qed.

Lemma Pop_load l p l' : Pop l = Ok (p, l') → ∀ q, load l' q = load l q.
Proof.
  unfold Pop. intros HP. bind_inv HP item Eitem. bind_inv HP l1 El1.
  injection HP as <- <-.
  apply store_load in El1 as [_ Hl1]; [|done]. exact Hl1.
Qed.

Lemma heap_Remove_load fuel l i p l' :
  heap_Remove fuel l i = Ok (p, l') → ∀ q, load l' q = load l q.
Proof.
  unfold heap_Remove. intros HR. bind_inv HR l3 El3.
  pose proof (Pop_load _ _ _ HR) as HP. intros q. rewrite HP.
  case_decide; [|by injection El3 as <-].
  bind_inv El3 l1 El1.
  rewrite (sift_load _ _ _ _ _ El3). by apply (Swap_load _ _ _ _ El1).
Qed.

Lemma DeleteNode_load fuel k l l' :
  DeleteNode fuel k l = Ok l' → ∀ q, load l' q = load l q.
Proof.
  unfold DeleteNode. intros HD. bind_inv HD found Ef.
  destruct found as [v|]; [|by injection HD as <-].
  bind_inv HD c Ec.
  destruct (heap_Remove fuel l (index c)) as [[p l1]| |] eqn:HR;
    cbn [mbind res_bind] in HD; [|done..].
  injection HD as <-. by eapply heap_Remove_load.
Qed.

Lemma AddNode_load fuel n l l' :
  AddNode fuel n l = Ok l' →
  load l' (fresh (dom (mem l))) = Some 0 ∧
  ∀ q, q ≠ fresh (dom (mem l)) → load l' q = load l q.
Proof.
  unfold AddNode, heap_Push, Push. intros HA.
  bind_inv HA l2 El2. bind_inv El2 l1 El1. injection El2 as <-.
  pose proof (up_load _ _ _ _ HA) as Hup.
  apply store_load in El1 as [_ Hl1]; [|done].
  split.
  - rewrite Hup. change (load l1 (fresh (dom (mem l))) = Some 0).
    rewrite Hl1. unfold load. cbn [mem]. by rewrite lookup_insert_eq.
  - intros q Hq. rewrite Hup. change (load l1 q = load l q).
    rewrite Hl1. unfold load. cbn [mem]. by rewrite lookup_insert_ne.
Qed.

Lemma Balance_None fuel l l' :
  Balance fuel l = Ok (None, l') → nodes l = [] ∧ l' = l.
Proof.
  unfold Balance, Len. case_decide as Hlen.
  - intros [= <-]. split; [|done]. destruct (nodes l); [done|cbn in Hlen; lia].
  - intros HB. bind_inv HB selected Esel. bind_inv HB c Ec.
    bind_inv HB l1 El1. bind_inv HB l2 El2. done.
Qed.

(** [Balance] counts the request on the entry at the root of the heap,
    and on no other. *)
Lemma Balance_load fuel l v p l' :
  Balance fuel l = Ok (Some (v, p), l') →
  nodes l !! 0%nat = Some p ∧
  ∃ c, mem l !! p = Some c ∧ node c = v ∧
       load l' p = Some (GoInt.wrap64 (reqs c + 1)) ∧
       ∀ q, q ≠ p → load l' q = load l q.
Proof.
  unfold Balance. case_decide; [done|].
  intros HB. bind_inv HB selected Esel. bind_inv HB c Ec.
  bind_inv HB l1 El1. bind_inv HB l2 El2. injection HB as <- <- <-.
  apply at_index_inv in Esel as [_ Hsel]. apply deref_inv in Ec.
  split; [done|]. exists c. split_and!; [done..| |].
  - rewrite (sift_load _ _ _ _ _ El2).
    rewrite (store_Some _ _ _ _ Ec) in El1. injection El1 as <-.
    unfold load. cbn [mem]. by rewrite lookup_insert_eq.
  - intros q Hq. rewrite (sift_load _ _ _ _ _ El2).
    rewrite (store_Some _ _ _ _ Ec) in El1. injection El1 as <-.
    unfold load. cbn [mem]. by rewrite lookup_insert_ne.
Qed.

(** The completion observer takes the request off the entry it holds,
    and off no other. *)
Lemma monitor_load fuel p l l' :
  monitorRequestFinish fuel p l = Ok l' →
  ∃ c, mem l !! p = Some c ∧
       load l' p = Some (GoInt.wrap64 (reqs c - 1)) ∧
       ∀ q, q ≠ p → load l' q = load l q.
Proof.
  unfold monitorRequestFinish. intros HM.
  bind_inv HM c Ec. bind_inv HM l1 El1. bind_inv HM c1 Ec1.
  apply deref_inv in Ec. exists c. split; [done|].
  rewrite (store_Some _ _ _ _ Ec) in El1. injection El1 as <-.
  split.
  - rewrite (sift_load _ _ _ _ _ HM).
    unfold load. cbn [mem]. by rewrite lookup_insert_eq.
  - intros q Hq. rewrite (sift_load _ _ _ _ _ HM).
    unfold load. cbn [mem]. by rewrite lookup_insert_ne.
Qed.

Lemma wrap64_inc_dec z :
  GoInt.is_int z → GoInt.wrap64 (GoInt.wrap64 (z + 1) - 1) = z.
Proof.
  unfold GoInt.is_int, GoInt.wrap64. intros Hz.
  replace ((z + 1 + 2 ^ 63) `mod` 2 ^ 64 - 2 ^ 63 - 1 + 2 ^ 63)
    with ((z + 1 + 2 ^ 63) `mod` 2 ^ 64 - 1) by lia.
  rewrite Zminus_mod_idemp_l.
  replace (z + 1 + 2 ^ 63 - 1) with (z + 2 ^ 63) by lia.
  rewrite Z.mod_small by lia. lia.
Qed.

Lemma exec_counted fuel o l l' :
  counted l → exec fuel o l = Ok l' → counted l'.
Proof.
  intros Hl. destruct o as [n|k| |p]; cbn [exec]; intros He q z Hq.
  - destruct (AddNode_load _ _ _ _ He) as [Hnew Hold].
    destruct (decide (q = fresh (dom (mem l)))) as [->|Hne].
    + rewrite Hnew in Hq. injection Hq as <-. by unfold GoInt.is_int.
    + rewrite Hold in Hq by done. by eapply Hl.
  - rewrite (DeleteNode_load _ _ _ _ He) in Hq. by eapply Hl.
  - destruct (Balance fuel l) as [[[[v p]|] l1]| |] eqn:HB;
      cbn [mbind res_bind] in He; [| |done..]; injection He as <-.
    + destruct (Balance_load _ _ _ _ _ HB) as (_ & c & _ & _ & Hp & Hold).
      destruct (decide (q = p)) as [->|Hne].
      * rewrite Hp in Hq. injection Hq as <-. apply GoInt.wrap64_is_int.
      * rewrite Hold in Hq by done. by eapply Hl.
    + apply Balance_None in HB as [_ ->]. by eapply Hl.
  - destruct (monitor_load _ _ _ _ He) as (c & _ & Hp & Hold).
    destruct (decide (q = p)) as [->|Hne].
    + rewrite Hp in Hq. injection Hq as <-. apply GoInt.wrap64_is_int.
    + rewrite Hold in Hq by done. by eapply Hl.
Qed.

Lemma reachable_counted l : reachable l → counted l.
Proof.
  unfold reachable. intros Hr.
  assert (Hgen : ∀ l0 l1, reaches l0 l1 → counted l0 → counted l1).
  { induction 1 as [l1|l0 l1 o fuel l' Hr' IH Hfuel Hint Hex]; [done|].
    intros H0. eapply exec_counted; [by apply IH|exact Hex]. }
  apply (Hgen _ _ Hr). intros p z. unfold load. cbn. by rewrite lookup_empty.
Qed.

Lemma find_entry_returns m k h :
  (∀ p, p ∈ h → is_Some (m !! p)) → ∃ o, find_entry m k h = Ok o.
Proof.
  induction h as [|p h IH]; intros Hh; cbn [find_entry]; [by eauto|].
  destruct (Hh p) as [c Hc]; [by left|]. rewrite Hc.
  case_decide; [by eauto|]. apply IH. intros q Hq. apply Hh. by right.
Qed.

Lemma monitor_returns fuel p l :
  heap_inv l → (length (nodes l) < fuel)%nat → is_Some (mem l !! p) →
  ∃ l', monitorRequestFinish fuel p l = Ok l' ∧ shape l l'.
Proof.
  intros Hinv Hfuel [c Hc]. unfold monitorRequestFinish.
  rewrite (deref_Some _ _ _ Hc). res_simpl.
  rewrite (store_Some _ _ _ _ Hc). res_simpl.
  pose proof (store_reqs_shape l p c (GoInt.wrap64 (reqs c - 1)) Hinv Hc)
    as Hs1.
  erewrite deref_Some by (cbn; apply lookup_insert_eq). res_simpl.
  cbn [index set_reqs].
  destruct (decide (p ∈ nodes l)) as [Hin|Hnin].
  - apply list_elem_of_lookup in Hin as [i Hi].
    destruct (proj2 (proj1 Hinv) _ _ Hi) as (c' & Hc' & Hidx).
    assert (c' = c) as -> by congruence. rewrite Hidx.
    destruct (heap_Fix_shape fuel _ i (proj1 Hs1)) as (l2 & -> & Hs2);
      [cbn; by eapply lookup_lt_Some|done|].
    eauto using shape_trans.
  - rewrite (proj2 Hinv p c Hc Hnin).
    rewrite heap_Fix_detached by lia. eauto.
Qed.

End lc_load_facts.

(** X23.  The heap bookkeeping of the least-connections balancer.  In
    every state a program can bring the balancer into, each slot of the
    heap slice points to a struct whose [index] is the position of the
    slot; no struct is in two slots; and a struct that has left the slice
    (its node was deleted) has index -1. *)
Theorem lc_index_invariant (l : LC.LC) :
  LC.reachable l →
  (∀ i p, LC.nodes l !! i = Some p →
          ∃ c, LC.mem l !! p = Some c ∧ LC.index c = Z.of_nat i) ∧
  NoDup (LC.nodes l) ∧
  (∀ p c, LC.mem l !! p = Some c → p ∉ LC.nodes l → LC.index c = -1).
Proof.
  intros Hr. destruct (reachable_inv l Hr) as [Hwf Hout].
  split_and!; [apply Hwf| |done].
  apply NoDup_alt. intros i j p Hi Hj. by eapply wf_unique.
Qed.

Lemma lc_index_invariant_witness :
  (∀ i p, LC.nodes LCExample.s3 !! i = Some p →
          ∃ c, LC.mem LCExample.s3 !! p = Some c ∧
               LC.index c = Z.of_nat i) ∧
  NoDup (LC.nodes LCExample.s3) ∧
  (∀ p c, LC.mem LCExample.s3 !! p = Some c →
          p ∉ LC.nodes LCExample.s3 → LC.index c = -1).
Proof. apply (lc_index_invariant LCExample.s3), lc_reach_example. Defined.

(** X24.  The methods of the least-connections balancer return.  In every
    state a program can bring the balancer into, and with fuel beyond the
    length of the heap slice for the sift loops, [AddNode] (the slice
    length staying a Go [int]), [DeleteNode] of any key, [Balance], and the
    completion observer of any entry that a [Balance] handed out, all
    return without a panic: no index is out of range and no nil pointer is
    followed. *)
Theorem lc_methods_return (l : LC.LC) (fuel : nat) :
  LC.reachable l →
  (length (LC.nodes l) < fuel)%nat →
  (∀ n, GoInt.is_int (LC.Len l + 1) → ∃ l', LC.AddNode fuel n l = Ok l') ∧
  (∀ k, ∃ l', LC.DeleteNode fuel k l = Ok l') ∧
  (∃ o l', LC.Balance fuel l = Ok (o, l')) ∧
  (∀ p, is_Some (LC.mem l !! p) →
        ∃ l', LC.monitorRequestFinish fuel p l = Ok l').
Proof.
  intros Hr Hfuel. pose proof (reachable_inv l Hr) as Hinv.
  split_and!.
  - intros n Hint.
    destruct (AddNode_grows fuel n l Hinv Hint Hfuel) as (l' & ? & _). eauto.
  - intros k.
    destruct (find_entry_returns (LC.mem l) k (LC.nodes l)) as [[p|] Hf].
    + intros p Hp. apply list_elem_of_lookup in Hp as [i Hi].
      by apply (heap_inv_cells l Hinv i).
    + destruct (DeleteNode_detaches l k p fuel Hinv Hf Hfuel)
        as (l' & ? & _). eauto.
    + exists l. unfold LC.DeleteNode. by rewrite Hf.
  - destruct (Balance_shape fuel l Hinv Hfuel) as (o & l' & ? & _). eauto.
  - intros p Hp.
    destruct (monitor_returns fuel p l Hinv Hfuel Hp) as (l' & ? & _). eauto.
Qed.

Lemma lc_methods_return_witness :
  (∀ n, GoInt.is_int (LC.Len LCExample.s3 + 1) →
        ∃ l', LC.AddNode 5 n LCExample.s3 = Ok l') ∧
  (∀ k, ∃ l', LC.DeleteNode 5 k LCExample.s3 = Ok l') ∧
  (∃ o l', LC.Balance 5 LCExample.s3 = Ok (o, l')) ∧
  (∀ p, is_Some (LC.mem LCExample.s3 !! p) →
        ∃ l', LC.monitorRequestFinish 5 p LCExample.s3 = Ok l').
Proof.
  apply (lc_methods_return LCExample.s3 5 lc_reach_example).
  vm_compute. lia.
Defined.

(** X25.  The counters count the requests in flight.  In every state a
    program can bring the balancer into, with a pool that is not empty,
    [Balance] returns the node of the entry at the root of the heap and
    adds one to the counter of that entry, and to no other; when the
    completion observer of that request then fires, it takes the one off
    again, so that every counter is what it was before the request. *)
Theorem lc_request_accounting (l : LC.LC) (fuel : nat) :
  LC.reachable l →
  LC.nodes l ≠ [] →
  (length (LC.nodes l) < fuel)%nat →
  ∃ v p c l1 l2,
    LC.Balance fuel l = Ok (Some (v, p), l1) ∧
    LC.monitorRequestFinish fuel p l1 = Ok l2 ∧
    LC.nodes l !! 0%nat = Some p ∧
    LC.mem l !! p = Some c ∧ LC.node c = v ∧
    load l1 p = Some (GoInt.wrap64 (LC.reqs c + 1)) ∧
    (∀ q, q ≠ p → load l1 q = load l q) ∧
    (∀ q, load l2 q = load l q).
Proof.
  intros Hr Hne Hfuel. pose proof (reachable_inv l Hr) as Hinv.
  pose proof (reachable_counted l Hr) as Hcnt.
  destruct (Balance_shape fuel l Hinv Hfuel) as (o & l1 & HB & Hs1).
  destruct o as [[v p]|]; [|by apply Balance_None in HB as [? _]].
  destruct (Balance_load _ _ _ _ _ HB) as (Hp & c & Hc & Hv & Hl1 & Hold1).
  destruct Hs1 as (Hinv1 & Hlen1 & _ & Hdom1).
  destruct (monitor_returns fuel p l1 Hinv1) as (l2 & HM & _);
    [lia|apply Hdom1; by eauto|].
  destruct (monitor_load _ _ _ _ HM) as (c1 & Hc1 & Hl2 & Hold2).
  exists v, p, c, l1, l2. split_and!; try done.
  intros q. destruct (decide (q = p)) as [->|Hq].
  - rewrite Hl2. unfold load in Hl1 |- *. rewrite Hc1 in Hl1.
    rewrite Hc. cbn in Hl1 |- *. injection Hl1 as ->.
    f_equal. apply wrap64_inc_dec. apply (Hcnt p).
    unfold load. by rewrite Hc.
  - rewrite Hold2, Hold1 by done. done.
Qed.

Lemma lc_request_accounting_witness :
  ∃ v p c l1 l2,
    LC.Balance 5 LCExample.s3 = Ok (Some (v, p), l1) ∧
    LC.monitorRequestFinish 5 p l1 = Ok l2 ∧
    LC.nodes LCExample.s3 !! 0%nat = Some p ∧
    LC.mem LCExample.s3 !! p = Some c ∧ LC.node c = v ∧
    load l1 p = Some (GoInt.wrap64 (LC.reqs c + 1)) ∧
    (∀ q, q ≠ p → load l1 q = load LCExample.s3 q) ∧
    (∀ q, load l2 q = load LCExample.s3 q).
Proof.
  apply (lc_request_accounting LCExample.s3 5 lc_reach_example).
  - vm_compute. discriminate.
  - vm_compute. lia.
Defined.

(* ================================================================== *)
(** * Least connections: the heap order *)
(* ================================================================== *)

Section lc_order_facts.
Import LC.

Ltac res_simpl := cbn [mbind res_bind mret res_ret negb].

Ltac bind_inv H x E :=
  match type of H with
  | mbind _ ?m = Ok _ =>
      destruct m as [x| |] eqn:E; cbn [mbind res_bind] in H;
      [|discriminate H..]
  end.

Lemma parent_spec k i :
  (0 < k)%nat → parent k = i ↔ (k = 2 * i + 1 ∨ k = 2 * i + 2)%nat.
Proof.
  unfold parent. intros Hk.
  pose proof (Nat.div_mod_eq (k - 1) 2).
  pose proof (Nat.mod_upper_bound (k - 1) 2). lia.
Qed.

Lemma parent_lt k : (0 < k)%nat → (parent k < k)%nat.
Proof.
  intros Hk. destruct (proj1 (parent_spec k (parent k) Hk) eq_refl); lia.
Qed.

Lemma rq_slot l i p c :
  nodes l !! i = Some p → mem l !! p = Some c → rq l i = reqs c.
Proof. unfold rq, load. intros ->. cbn. by intros ->. Qed.

Lemma rq_ext l l' i :
  nodes l' !! i = nodes l !! i → (∀ q, load l' q = load l q) →
  rq l' i = rq l i.
Proof.
  unfold rq. intros -> Hload. destruct (nodes l !! i); cbn; [|done].
  by rewrite Hload.
Qed.

Lemma Less_rq l (a b : nat) r :
  Less l (Z.of_nat a) (Z.of_nat b) = Ok r →
  r = bool_decide (rq l a < rq l b).
Proof.
  unfold Less. intros HL.
  bind_inv HL pa Ea. bind_inv HL ca Eca.
  bind_inv HL pb Eb. bind_inv HL cb Ecb. injection HL as <-.
  apply at_index_inv in Ea as [_ Ea]. apply at_index_inv in Eb as [_ Eb].
  rewrite Nat2Z.id in Ea, Eb. apply deref_inv in Eca, Ecb.
  by rewrite (rq_slot _ _ _ _ Ea Eca), (rq_slot _ _ _ _ Eb Ecb).
Qed.

(** [Swap] exchanges the counters of two slots and keeps the others. *)
Lemma Swap_rq l (a b : nat) l' :
  heap_inv l → a ≠ b → Swap l (Z.of_nat a) (Z.of_nat b) = Ok l' →
  heap_inv l' ∧ length (nodes l') = length (nodes l) ∧
  rq l' a = rq l b ∧ rq l' b = rq l a ∧
  ∀ k, k ≠ a → k ≠ b → rq l' k = rq l k.
Proof.
  intros Hinv Hab HS. pose proof (Swap_load _ _ _ _ HS) as Hload.
  assert (Hlook : ∃ pa pb, nodes l !! a = Some pa ∧ nodes l !! b = Some pb).
  { unfold Swap in HS. bind_inv HS pa Ea. bind_inv HS pb Eb.
    apply at_index_inv in Ea as [_ Ea]. apply at_index_inv in Eb as [_ Eb].
    rewrite Nat2Z.id in Ea, Eb. eauto. }
  destruct Hlook as (pa & pb & Hpa & Hpb).
  pose proof (lookup_lt_Some _ _ _ Hpa) as Ha.
  pose proof (lookup_lt_Some _ _ _ Hpb) as Hb.
  destruct (Swap_shape l l a b (shape_refl l Hinv) Ha Hb)
    as (l1 & HS1 & Hinv1 & Hlen1 & _).
  destruct (Swap_ok l a b pa pb (heap_inv_cells l Hinv) Hpa Hpb)
    as (m' & HS2 & _).
  assert (l1 = l') as -> by congruence.
  assert (Hn : nodes l' = <[b := pa]> (<[a := pb]> (nodes l)))
    by (rewrite HS in HS2; by injection HS2 as ->).
  split_and!; [done|done|..].
  - unfold rq. rewrite Hn, list_lookup_insert_ne by done.
    rewrite list_lookup_insert_eq by done. rewrite Hpb. cbn.
    by rewrite Hload.
  - unfold rq. rewrite Hn, list_lookup_insert_eq
      by (by rewrite length_insert).
    rewrite Hpa. cbn. by rewrite Hload.
  - intros k Hka Hkb. apply rq_ext; [|done].
    rewrite Hn. by rewrite !list_lookup_insert_ne.
Qed.

(** The loop of [down]: either nothing moved, and slot [i] is in order
    with the slots below it, or the heap order holds. *)
Lemma down_loop_ordered (n : nat) fuel :
  ∀ l (i : nat) l' i',
    heap_inv l → (n ≤ length (nodes l))%nat → Z.of_nat n < 2 ^ 63 →
    (i < n)%nat → loose l n i →
    down_loop fuel l (Z.of_nat i) (Z.of_nat n) = Ok (l', i') →
    heap_inv l' ∧ length (nodes l') = length (nodes l) ∧
    ((i' = Z.of_nat i ∧ l' = l ∧ settled l n i) ∨
     (Z.of_nat i < i' ∧ ordered l' n)).
Proof.
  induction fuel as [|fuel IH];
    intros l i l' i' Hinv Hn Hint Hi Hloose Hd; [done|].
  cbn [down_loop] in Hd.
  destruct (decide (2 * Z.of_nat i + 1 < 2 ^ 63)) as [Hsmall|Hbig].
  2:{ rewrite decide_True in Hd by (right; apply wrap64_high; lia).
      injection Hd as <- <-. split_and!; [done..|]. left.
      split_and!; [done..|].
      intros k Hk Hpk. apply parent_spec in Hpk; lia. }
  rewrite (wrap64_small (2 * Z.of_nat i + 1)) in Hd by lia.
  destruct (decide (2 * Z.of_nat i + 1 >= Z.of_nat n ∨ 2 * Z.of_nat i + 1 < 0))
    as [Hstop|Hgo].
  { injection Hd as <- <-. split_and!; [done..|]. left.
    split_and!; [done..|].
    intros k Hk Hpk. apply parent_spec in Hpk; lia. }
  rewrite (wrap64_small (2 * Z.of_nat i + 1 + 1)) in Hd by lia.
  replace (2 * Z.of_nat i + 1) with (Z.of_nat (2 * i + 1)) in Hd by lia.
  replace (Z.of_nat (2 * i + 1) + 1) with (Z.of_nat (2 * i + 2)) in Hd by lia.
  bind_inv Hd b2 Hlt2.
  assert (Hb2 : if b2 then (2 * i + 2 < n)%nat ∧
                            rq l (2 * i + 2) < rq l (2 * i + 1)
                else (2 * i + 2 < n)%nat → rq l (2 * i + 1) ≤ rq l (2 * i + 2)).
  { destruct (decide (Z.of_nat (2 * i + 2) < Z.of_nat n)) as [Hj2|Hj2].
    - apply Less_rq in Hlt2. subst b2. case_bool_decide; [lia|].
      intros _. lia.
    - injection Hlt2 as <-. lia. }
  set (j := if b2 then (2 * i + 2)%nat else (2 * i + 1)%nat).
  replace (if b2 then Z.of_nat (2 * i + 2) else Z.of_nat (2 * i + 1))
    with (Z.of_nat j) in Hd by (unfold j; by destruct b2).
  assert (Hj : (i < j < n)%nat ∧ parent j = i).
  { unfold j. destruct b2; (split; [lia|]); apply parent_spec; lia. }
  destruct Hj as [Hj Hpj].
  (* the other slot below [i], if any, has no fewer requests *)
  assert (Hsib : ∀ k, (0 < k < n)%nat → parent k = i → rq l j ≤ rq l k).
  { intros k Hk Hpk. apply parent_spec in Hpk; [|lia].
    unfold j. destruct b2; destruct Hpk as [->| ->]; lia. }
  bind_inv Hd less Hless. apply Less_rq in Hless.
  destruct less; cbn [negb] in Hd.
  2:{ injection Hd as <- <-. split_and!; [done..|]. left.
      split_and!; [done..|].
      symmetry in Hless. apply bool_decide_eq_false in Hless.
      intros k Hk Hpk. specialize (Hsib k Hk Hpk). lia. }
  symmetry in Hless. apply bool_decide_eq_true in Hless.
  bind_inv Hd l1 HS.
  destruct (Swap_rq l i j l1 Hinv ltac:(lia) HS)
    as (Hinv1 & Hlen1 & Hri & Hrj & Hother).
  destruct Hloose as [Hout Hgrand].
  assert (Hloose1 : loose l1 n j).
  { split.
    - intros k Hk Hkj Hpkj.
      destruct (decide (k = i)) as [->|Hki].
      + rewrite Hri, Hother by (pose proof (parent_lt i); lia).
        apply Hgrand; [lia|done|lia].
      + destruct (decide (parent k = i)) as [Hpk|Hpk].
        * rewrite Hpk, Hri, Hother by done. by apply Hsib.
        * rewrite !Hother by done. by apply Hout.
    - intros k Hk Hpk _.
      pose proof (parent_lt k ltac:(lia)).
      rewrite Hpj, Hri, Hother by lia.
      rewrite <- Hpk. apply Hout; [done|lia|lia]. }
  destruct (IH l1 j l' i' Hinv1 ltac:(lia) Hint ltac:(lia) Hloose1 Hd)
    as (Hinv' & Hlen' & Hres).
  split_and!; [done|congruence|]. right.
  destruct Hres as [(-> & -> & Hset)|[Hlt Hord]]; [|split; [lia|done]].
  split; [lia|]. intros k Hk.
  destruct (decide (k = j)) as [->|Hkj].
  - rewrite Hpj, Hri, Hrj. lia.
  - destruct (decide (parent k = j)) as [Hpk|Hpk].
    + rewrite Hpk. by apply Hset.
    + by apply Hloose1.
Qed.

(** [up] from a slot that is in order with the slots below it restores
    the heap order. *)
Lemma up_ordered (n : nat) fuel :
  ∀ l (j : nat) l',
    heap_inv l → (n ≤ length (nodes l))%nat → Z.of_nat n < 2 ^ 63 →
    (j < n)%nat → loose l n j → settled l n j →
    up fuel l (Z.of_nat j) = Ok l' →
    heap_inv l' ∧ length (nodes l') = length (nodes l) ∧ ordered l' n.
Proof.
  induction fuel as [|fuel IH];
    intros l j l' Hinv Hn Hint Hj [Hout Hgrand] Hset Hu; [done|].
  cbn [up] in Hu.
  rewrite GoInt.wrap64_id in Hu by (unfold GoInt.is_int; lia).
  assert (Hdone : (j = 0%nat ∨ rq l (parent j) ≤ rq l j) → ordered l n).
  { intros Hok k Hk.
    destruct (decide (k = j)) as [->|Hkj]; [destruct Hok; [lia|done]|].
    destruct (decide (parent k = j)) as [Hpk|Hpk].
    - rewrite Hpk. by apply Hset.
    - by apply Hout. }
  destruct j as [|j'].
  { change (Z.of_nat 0 - 1) with (-1) in Hu.
    change (Z.quot (-1) 2) with 0 in Hu.
    rewrite decide_True in Hu by done. injection Hu as <-.
    split_and!; [done..|]. apply Hdone. by left. }
  replace (Z.of_nat (S j') - 1) with (Z.of_nat j') in Hu by lia.
  replace (Z.quot (Z.of_nat j') 2) with (Z.of_nat (parent (S j'))) in Hu.
  2:{ unfold parent. rewrite Z.quot_div_nonneg by lia.
      rewrite Nat2Z.inj_div. do 2 f_equal. lia. }
  pose proof (parent_lt (S j') ltac:(lia)) as Hplt.
  set (j := S j') in *. set (i := parent j) in *.
  rewrite decide_False in Hu by lia.
  bind_inv Hu less Hless. apply Less_rq in Hless.
  destruct less; cbn [negb] in Hu.
  2:{ injection Hu as <-. split_and!; [done..|]. apply Hdone. right.
      symmetry in Hless. apply bool_decide_eq_false in Hless. lia. }
  symmetry in Hless. apply bool_decide_eq_true in Hless.
  bind_inv Hu l1 HS.
  destruct (Swap_rq l i j l1 Hinv ltac:(lia) HS)
    as (Hinv1 & Hlen1 & Hri & Hrj & Hother).
  rewrite <- Hlen1.
  apply (IH l1 i l' Hinv1); [lia|done|lia| | |done].
  - split.
    + intros k Hk Hki Hpki.
      destruct (decide (k = j)) as [->|Hkj]; [done|].
      destruct (decide (parent k = j)) as [Hpk|Hpk].
      * rewrite Hpk, Hrj, Hother by lia. apply Hgrand; [done..|lia].
      * rewrite !Hother by done. by apply Hout.
    + intros k Hk Hpk Hi0.
      pose proof (parent_lt i Hi0) as Hppi.
      assert (i < k)%nat by (rewrite <- Hpk; apply parent_lt; lia).
      rewrite (Hother (parent i)) by lia.
      assert (Hpi : rq l (parent i) ≤ rq l i)
        by (apply Hout; [lia|lia|lia]).
      destruct (decide (k = j)) as [->|Hkj]; [by rewrite Hrj|].
      rewrite Hother by lia.
      assert (rq l i ≤ rq l k); [|lia].
      rewrite <- Hpk. apply Hout; [done..|lia].
  - intros k Hk Hpk.
    assert (i < k)%nat by (rewrite <- Hpk; apply parent_lt; lia).
    destruct (decide (k = j)) as [->|Hkj]; [rewrite Hri, Hrj; lia|].
    rewrite Hri, Hother by lia.
    assert (rq l i ≤ rq l k); [|lia].
    rewrite <- Hpk. apply Hout; [done..|lia].
Qed.

(** [down] and, when nothing moved, [up]: the body of [heap.Fix], and of
    [heap.Remove] after its [Swap]. *)
Lemma sift_ordered (n : nat) fuel l (i : nat) l' :
  heap_inv l → (n ≤ length (nodes l))%nat → Z.of_nat n < 2 ^ 63 →
  (i < n)%nat → loose l n i →
  ('(l2, moved) ← down fuel l (Z.of_nat i) (Z.of_nat n);
   if negb moved then up fuel l2 (Z.of_nat i) else Ok l2) = Ok l' →
  heap_inv l' ∧ length (nodes l') = length (nodes l) ∧ ordered l' n.
Proof.
  intros Hinv Hn Hint Hi Hloose Hf. unfold down in Hf.
  destruct (down_loop fuel l (Z.of_nat i) (Z.of_nat n))
    as [[l1 i']| |] eqn:Hd; cbn [mbind res_bind] in Hf; [|done..].
  destruct (down_loop_ordered n fuel l i l1 i' Hinv Hn Hint Hi Hloose Hd)
    as (Hinv1 & Hlen1 & [(-> & -> & Hset)|[Hlt Hord]]).
  - rewrite bool_decide_false in Hf by lia. cbn [negb] in Hf.
    by apply (up_ordered n fuel l i l').
  - rewrite bool_decide_true in Hf by lia. cbn [negb] in Hf.
    by injection Hf as <-.
Qed.

(** A change of the counter in slot [i] leaves the heap order loose at
    [i]. *)
Lemma ordered_loose l l' n i :
  ordered l n → (∀ k, (k < n)%nat → k ≠ i → rq l' k = rq l k) →
  loose l' n i.
Proof.
  intros Hord Hsame. split.
  - intros k Hk Hki Hpk. pose proof (parent_lt k ltac:(lia)).
    rewrite !Hsame by (done || lia). by apply Hord.
  - intros k Hk Hpk Hi.
    pose proof (parent_lt k ltac:(lia)). pose proof (parent_lt i Hi).
    rewrite !Hsame by lia.
    assert (rq l (parent i) ≤ rq l i) by (apply Hord; lia).
    assert (rq l i ≤ rq l k); [|lia]. rewrite <- Hpk. by apply Hord.
Qed.

Lemma ordered_ext l l' n :
  ordered l n → (∀ k, (k < n)%nat → rq l' k = rq l k) → ordered l' n.
Proof.
  intros Hord Hsame k Hk. pose proof (parent_lt k ltac:(lia)).
  rewrite !Hsame by lia. by apply Hord.
Qed.

(** Writing the counter of the struct [p] changes the slot of [p]
    only. *)
Lemma rq_store l p c z k :
  heap_inv l → mem l !! p = Some c → nodes l !! k ≠ Some p →
  rq {| nodes := nodes l; mem := <[p := set_reqs z c]> (mem l) |} k = rq l k.
Proof.
  intros Hinv Hc Hk. unfold rq, load. cbn [nodes mem].
  destruct (nodes l !! k) as [q|]; cbn; [|done].
  rewrite lookup_insert_ne; [done|]. congruence.
Qed.

Lemma heap_inv_int l : heap_inv l → Z.of_nat (length (nodes l)) < 2 ^ 63.
Proof. intros [[Hint _] _]. unfold GoInt.is_int, Len in Hint. lia. Qed.

Lemma Balance_ordered fuel l o l' :
  heap_inv l → ordered l (length (nodes l)) →
  Balance fuel l = Ok (o, l') →
  ordered l' (length (nodes l')).
Proof.
  intros Hinv Hord HB. unfold Balance in HB.
  case_decide; [by injection HB as <- <-|].
  bind_inv HB selected Esel. bind_inv HB c Ec.
  bind_inv HB l1 El1. bind_inv HB l2 El2. injection HB as <- <-.
  apply at_index_inv in Esel as [_ Hsel]. apply deref_inv in Ec.
  change (Z.to_nat 0) with 0%nat in Hsel.
  rewrite (store_Some _ _ _ _ Ec) in El1. injection El1 as <-.
  pose proof (store_reqs_shape l selected c (GoInt.wrap64 (reqs c + 1))
                Hinv Ec) as (Hinv1 & Hlen1 & _).
  set (l1 := {| nodes := nodes l; mem := _ |}) in *.
  destruct (sift_ordered (length (nodes l)) fuel l1 0 l2 Hinv1)
    as (_ & Hlen2 & Hord2); [cbn; lia|by apply heap_inv_int| | |exact El2|].
  - by eapply lookup_lt_Some.
  - apply (ordered_loose l); [done|]. intros k _ Hk.
    apply rq_store; [done..|]. intros Hk'.
    by pose proof (wf_unique l k 0 selected (proj1 Hinv) Hk' Hsel).
  - by rewrite Hlen2.
Qed.

Lemma monitor_ordered fuel p l l' :
  heap_inv l → ordered l (length (nodes l)) → (0 < fuel)%nat →
  monitorRequestFinish fuel p l = Ok l' →
  ordered l' (length (nodes l')).
Proof.
  intros Hinv Hord Hfuel HM. unfold monitorRequestFinish in HM.
  bind_inv HM c Ec. apply deref_inv in Ec.
  rewrite (store_Some _ _ _ _ Ec) in HM. cbn [mbind res_bind] in HM.
  pose proof (store_reqs_shape l p c (GoInt.wrap64 (reqs c - 1)) Hinv Ec)
    as (Hinv1 & Hlen1 & _).
  erewrite deref_Some in HM by (cbn; apply lookup_insert_eq).
  cbn [mbind res_bind index set_reqs] in HM.
  set (l1 := {| nodes := nodes l; mem := _ |}) in *.
  destruct (decide (p ∈ nodes l)) as [Hin|Hnin].
  - apply list_elem_of_lookup in Hin as [i Hi].
    destruct (proj2 (proj1 Hinv) _ _ Hi) as (c' & Hc' & Hidx).
    assert (c' = c) as -> by congruence. rewrite Hidx in HM.
    destruct (sift_ordered (length (nodes l)) fuel l1 i l' Hinv1)
      as (_ & Hlen2 & Hord2); [cbn; lia|by apply heap_inv_int| | |exact HM|].
    + by eapply lookup_lt_Some.
    + apply (ordered_loose l); [done|]. intros k _ Hk.
      apply rq_store; [done..|]. intros Hk'.
      by pose proof (wf_unique l k i p (proj1 Hinv) Hk' Hi).
    + by rewrite Hlen2.
  - rewrite (proj2 Hinv p c Ec Hnin) in HM.
    rewrite heap_Fix_detached in HM by done. injection HM as <-.
    apply (ordered_ext l); [done|]. intros k Hk.
    apply rq_store; [done..|]. intros Hk'. apply Hnin.
    by eapply list_elem_of_lookup_2.
Qed.

Lemma AddNode_ordered fuel n l l' :
  heap_inv l → GoInt.is_int (Len l + 1) → ordered l (length (nodes l)) →
  AddNode fuel n l = Ok l' →
  length (nodes l') = S (length (nodes l)) ∧
  ordered l' (length (nodes l')).
Proof.
  intros Hinv Hint Hord HA.
  pose proof Hinv as [[_ Hwf] Hout].
  unfold AddNode, heap_Push, Push in HA.
  set (nwr := fresh (dom (mem l))) in *.
  assert (Hfresh : mem l !! nwr = None)
    by (apply not_elem_of_dom, is_fresh).
  set (c0 := {| node := n; reqs := 0; index := -1 |}) in *.
  rewrite (store_Some _ nwr _ c0) in HA by (cbn; apply lookup_insert_eq).
  cbn [mbind res_bind nodes mem] in HA. unfold Len at 1 2 in HA.
  cbn [nodes mem] in HA.
  set (l2 := {| nodes := nodes l ++ [nwr];
                mem := <[nwr := set_index (Z.of_nat (length (nodes l))) c0]>
                         (<[nwr := c0]> (mem l)) |}) in *.
  assert (Hnin : nwr ∉ nodes l).
  { rewrite list_elem_of_lookup. intros [j Hj].
    destruct (Hwf _ _ Hj) as (c & Hc & _). congruence. }
  assert (Hinv2 : heap_inv l2).
  { unfold heap_inv, wf, Len, l2. cbn [nodes mem]. split_and!.
    - rewrite length_app. cbn. unfold Len in Hint.
      by replace (Z.of_nat (length (nodes l) + 1))
        with (Z.of_nat (length (nodes l)) + 1) by lia.
    - intros j q Hj. apply lookup_app_Some in Hj as [Hj|[Hge Hj]].
      + assert (q ≠ nwr)
          by (intros ->; apply Hnin; by eapply list_elem_of_lookup_2).
        rewrite !lookup_insert_ne by done. by apply Hwf.
      + apply list_lookup_singleton_Some in Hj as [Hj <-].
        rewrite lookup_insert_eq. eexists. split; [done|]. cbn. lia.
    - intros q c Hq Hq'. apply not_elem_of_app in Hq' as [Hq1 Hq2].
      apply not_elem_of_cons in Hq2 as [Hne _].
      rewrite !lookup_insert_ne in Hq by done. by eapply Hout. }
  assert (Hlen2 : length (nodes l2) = S (length (nodes l)))
    by (unfold l2; cbn; rewrite length_app; cbn; lia).
  replace (Z.of_nat (length (nodes l ++ [nwr])) - 1)
    with (Z.of_nat (length (nodes l))) in HA
    by (rewrite length_app; cbn; lia).
  assert (Hsame : ∀ k, (k < length (nodes l))%nat → rq l2 k = rq l k).
  { intros k Hk. destruct (lookup_lt_is_Some_2 _ _ Hk) as [q Hq].
    unfold rq, load, l2. cbn [nodes mem].
    rewrite lookup_app_l by done. rewrite Hq. cbn.
    rewrite !lookup_insert_ne; [done|..]; intros <-;
      apply Hnin; by eapply list_elem_of_lookup_2. }
  destruct (up_ordered (length (nodes l2)) fuel l2 (length (nodes l)) l'
              Hinv2) as (_ & Hlen' & Hord'); [lia| |lia| | |exact HA|].
  - by apply heap_inv_int.
  - split.
    + intros k Hk Hkn Hpk. pose proof (parent_lt k ltac:(lia)).
      rewrite !Hsame by lia. apply Hord. lia.
    + intros k Hk Hpk _. apply parent_spec in Hpk; lia.
  - intros k Hk Hpk. apply parent_spec in Hpk; lia.
  - split; [lia|by rewrite Hlen'].
Qed.

Lemma heap_Remove_ordered fuel l (i : nat) p l' :
  heap_inv l → ordered l (length (nodes l)) → (i < length (nodes l))%nat →
  heap_Remove fuel l (Z.of_nat i) = Ok (p, l') →
  S (length (nodes l')) = length (nodes l) ∧
  ordered l' (length (nodes l')).
Proof.
  intros Hinv Hord Hi HR. unfold heap_Remove, Len in HR.
  destruct (length (nodes l)) as [|N] eqn:Hlen; [lia|].
  replace (Z.of_nat (S N) - 1) with (Z.of_nat N) in HR by lia.
  pose proof (heap_inv_int l Hinv) as Hint. rewrite Hlen in Hint.
  bind_inv HR l3 El3.
  assert (H3 : length (nodes l3) = S N ∧ ordered l3 N).
  { case_decide as Hne.
    - bind_inv El3 l1 HS.
      destruct (Swap_rq l i N l1 Hinv ltac:(lia) HS)
        as (Hinv1 & Hlen1 & Hri & HrN & Hother).
      destruct (sift_ordered N fuel l1 i l3 Hinv1)
        as (_ & Hlen3 & Hord3); [lia|lia|lia| |exact El3|].
      + apply (ordered_loose l).
        * intros k Hk. apply Hord. lia.
        * intros k Hk Hki. apply Hother; [done|lia].
      + split; [congruence|done].
    - injection El3 as <-. split; [done|]. intros k Hk. apply Hord. lia. }
  destruct H3 as [Hlen3 Hord3].
  pose proof (Pop_load _ _ _ HR) as Hload.
  unfold Pop, Len in HR. rewrite Hlen3 in HR.
  replace (Z.of_nat (S N) - 1) with (Z.of_nat N) in HR by lia.
  bind_inv HR item Eitem. bind_inv HR l4 El4. injection HR as <- <-.
  apply store_load in El4 as [Hn4 _]; [|done].
  cbn [nodes]. rewrite Hn4, Nat2Z.id in Hload |- *.
  rewrite length_take, Hlen3.
  replace (N `min` S N)%nat with N by lia.
  split; [done|].
  apply (ordered_ext l3); [done|]. intros k Hk.
  apply rq_ext; [|done]. cbn [nodes].
  by rewrite lookup_take_lt.
Qed.

Lemma DeleteNode_ordered fuel k l l' :
  heap_inv l → ordered l (length (nodes l)) →
  DeleteNode fuel k l = Ok l' → ordered l' (length (nodes l')).
Proof.
  intros Hinv Hord HD. unfold DeleteNode in HD. bind_inv HD found Ef.
  destruct found as [v|]; [|by injection HD as <-].
  bind_inv HD c Ec. apply deref_inv in Ec.
  destruct (find_entry_Some _ _ _ _ Ef) as [i Hi].
  destruct (proj2 (proj1 Hinv) _ _ Hi) as (c' & Hc' & Hidx).
  assert (c' = c) as -> by congruence. rewrite Hidx in HD.
  destruct (heap_Remove fuel l (Z.of_nat i)) as [[p l1]| |] eqn:HR;
    cbn [mbind res_bind] in HD; [|done..].
  injection HD as <-.
  apply (heap_Remove_ordered fuel l i p l1); [done..| |done].
  by eapply lookup_lt_Some.
Qed.

Lemma DeleteNode_length fuel k l p l' :
  heap_inv l → ordered l (length (nodes l)) →
  find_entry (mem l) k (nodes l) = Ok (Some p) →
  DeleteNode fuel k l = Ok l' →
  S (length (nodes l')) = length (nodes l).
Proof.
  intros Hinv Hord Ef HD. unfold DeleteNode in HD. rewrite Ef in HD.
  cbn [mbind res_bind] in HD. bind_inv HD c Ec. apply deref_inv in Ec.
  destruct (find_entry_Some _ _ _ _ Ef) as [i Hi].
  destruct (proj2 (proj1 Hinv) _ _ Hi) as (c' & Hc' & Hidx).
  assert (c' = c) as -> by congruence. rewrite Hidx in HD.
  destruct (heap_Remove fuel l (Z.of_nat i)) as [[q l1]| |] eqn:HR;
    cbn [mbind res_bind] in HD; [|done..].
  injection HD as <-.
  apply (heap_Remove_ordered fuel l i q l1); [done..| |done].
  by eapply lookup_lt_Some.
Qed.

Lemma exec_ordered fuel o l l' :
  heap_inv l → ordered l (length (nodes l)) → (0 < fuel)%nat →
  GoInt.is_int (Len l + 1) →
  exec fuel o l = Ok l' → ordered l' (length (nodes l')).
Proof.
  intros Hinv Hord Hfuel Hint. destruct o as [n|k| |p]; cbn [exec].
  - intros HA. by apply (AddNode_ordered fuel n l l').
  - by apply DeleteNode_ordered.
  - intros He. destruct (Balance fuel l) as [[o l1]| |] eqn:HB;
      cbn [mbind res_bind] in He; [|done..].
    injection He as <-. by eapply Balance_ordered.
  - by apply monitor_ordered.
Qed.

Lemma reachable_ordered l : reachable l → ordered l (length (nodes l)).
Proof.
  unfold reachable.
  assert (Hgen : ∀ l0 l1, reaches l0 l1 → heap_inv l0 →
                          ordered l0 (length (nodes l0)) →
                          ordered l1 (length (nodes l1))).
  { induction 1 as [l1|l0 l1 o fuel l' Hr IH Hfuel Hint Hex]; [done|].
    intros Hinv0 Hord0.
    destruct (reaches_inv l0 l1 Hr Hinv0) as [Hinv1 _].
    apply (exec_ordered fuel o l1 l'); [done|by apply IH|lia|done..]. }
  intros Hr. apply (Hgen _ _ Hr NewLC_inv). intros j Hj. cbn in Hj. lia.
Qed.

(** In a heap, the root has the fewest requests. *)
Lemma ordered_root l n : ordered l n → ∀ j, (j < n)%nat → rq l 0 ≤ rq l j.
Proof.
  intros Hord j. induction (lt_wf j) as [j _ IH]. intros Hj.
  destruct j as [|j]; [lia|].
  pose proof (parent_lt (S j) ltac:(lia)) as Hp.
  specialize (IH (parent (S j)) Hp ltac:(lia)).
  specialize (Hord (S j) ltac:(lia)). lia.
Qed.

End lc_order_facts.

(** X26.  Least connections picks a least-loaded node.  In every state a
    program can bring the balancer into, the heap slice is in heap order
    by the counters of requests in flight.  With a pool that is not empty,
    [Balance] therefore returns the node of an entry whose counter is the
    least of all the entries of the pool, and it leaves the slice in heap
    order again. *)
Theorem lc_balance_least_loaded (l : LC.LC) (fuel : nat) :
  LC.reachable l →
  LC.nodes l ≠ [] →
  (length (LC.nodes l) < fuel)%nat →
  ordered l (length (LC.nodes l)) ∧
  ∃ v p c l1,
    LC.Balance fuel l = Ok (Some (v, p), l1) ∧
    LC.mem l !! p = Some c ∧ LC.node c = v ∧
    (∀ q cq, q ∈ LC.nodes l → LC.mem l !! q = Some cq →
             LC.reqs c ≤ LC.reqs cq) ∧
    ordered l1 (length (LC.nodes l1)).
Proof.
  intros Hr Hne Hfuel. pose proof (reachable_inv l Hr) as Hinv.
  pose proof (reachable_ordered l Hr) as Hord. split; [done|].
  destruct (Balance_shape fuel l Hinv Hfuel) as (o & l1 & HB & _).
  destruct o as [[v p]|]; [|by apply Balance_None in HB as [? _]].
  destruct (Balance_load _ _ _ _ _ HB) as (Hp & c & Hc & Hv & _).
  exists v, p, c, l1. split_and!; [done..| |by eapply Balance_ordered].
  intros q cq Hq Hcq. apply list_elem_of_lookup in Hq as [j Hj].
  rewrite <- (rq_slot l 0 p c Hp Hc), <- (rq_slot l j q cq Hj Hcq).
  apply (ordered_root l _ Hord). by eapply lookup_lt_Some.
Qed.

Lemma lc_balance_least_loaded_witness :
  ordered LCExample.s3 (length (LC.nodes LCExample.s3)) ∧
  ∃ v p c l1,
    LC.Balance 5 LCExample.s3 = Ok (Some (v, p), l1) ∧
    LC.mem LCExample.s3 !! p = Some c ∧ LC.node c = v ∧
    (∀ q cq, q ∈ LC.nodes LCExample.s3 → LC.mem LCExample.s3 !! q = Some cq →
             LC.reqs c ≤ LC.reqs cq) ∧
    ordered l1 (length (LC.nodes l1)).
Proof.
  apply (lc_balance_least_loaded LCExample.s3 5 lc_reach_example).
  - vm_compute. discriminate.
  - vm_compute. lia.
Defined.

(* ================================================================== *)
(** * Weighted round-robin: weights below one *)
(* ================================================================== *)

Section wrr_share_facts.
Import WRR.

(** The credit [reqCredit r] stands for [S c] more requests: it is
    [S c], or it is below one (the weight of the node is) and stands for
    one request. *)
Definition stands_for (r : WRR) (c : nat) : Prop :=
  (reqCredit r = Z.of_nat (S c) ∧ GoInt.is_int (reqCredit r)) ∨
  (- 2 ^ 63 < reqCredit r ≤ 0 ∧ c = 0%nat).

Lemma wrr_run_stands c r e v :
  nodes r !! e = Some v → cur r = Some e → stands_for r c →
  BalanceN (S c) r =
    (replicate (S c) (Some v),
     {| nodes := nodes r; cur := (advance (nodes r) e).1;
        reqCredit := (advance (nodes r) e).2 |}).
Proof.
  intros Hv Hcur [[Hcr Hint]|[Hcr ->]].
  - by apply wrr_run_credit.
  - cbn [BalanceN replicate]. unfold Balance, advance.
    destruct (nodes r) as [|front rest] eqn:Hn; [done|].
    rewrite Hcur, Hv.
    rewrite GoInt.wrap64_id by (unfold GoInt.is_int; lia).
    rewrite decide_True by lia.
    by destruct ((front :: rest) !! S e).
Qed.

Definition weight_ok (n : Node) : Prop := - 2 ^ 63 < Weight n < 2 ^ 63.

(** A cursor that has just arrived on [v] stands for the share of [v]. *)
Lemma stands_for_share nodes0 e v :
  weight_ok v →
  stands_for {| nodes := nodes0; cur := e; reqCredit := Weight v |}
             (pred (share v)).
Proof.
  unfold stands_for, share, weight_ok, GoInt.is_int. cbn [reqCredit].
  intros Hw. destruct (decide (1 ≤ Weight v)); [left|right]; lia.
Qed.

Lemma share_pos v : share v = S (pred (share v)).
Proof. unfold share. lia. Qed.

Lemma pass_share_cons x l :
  pass_share (x :: l) = replicate (share x) (Some x) ++ pass_share l.
Proof. reflexivity. Qed.

Lemma wrr_run_from_share post :
  ∀ pre v r c,
    nodes r = pre ++ v :: post → cur r = Some (length pre) →
    stands_for r c → Forall weight_ok post →
    (BalanceN (S c + total_share post) r).1
      = replicate (S c) (Some v) ++ pass_share post ∧
    cur (BalanceN (S c + total_share post) r).2 = None.
Proof.
  induction post as [|v' post IH]; intros pre v r c Hn Hcur Hst Hpost;
    rewrite wrr_balanceN_add;
    rewrite (wrr_run_stands c r (length pre) v);
    try done; try (rewrite Hn; apply list_lookup_middle; done);
    unfold advance; rewrite Hn; cbn [fst snd].
  - rewrite lookup_ge_None_2 by (rewrite length_app; simpl; lia). done.
  - replace ((pre ++ v :: v' :: post) !! S (length pre)) with (Some v').
    2:{ symmetry. rewrite cons_middle, app_assoc.
        apply list_lookup_middle. rewrite length_app. simpl. lia. }
    apply Forall_cons in Hpost as [Hw Hpost].
    cbn [fst snd].
    change (total_share (v' :: post))
      with (share v' + total_share post)%nat.
    rewrite (share_pos v').
    destruct (IH (pre ++ [v]) v'
                {| nodes := pre ++ v :: v' :: post;
                   cur := Some (S (length pre));
                   reqCredit := Weight v' |} (pred (share v')))
      as [IH1 IH2];
      [ by cbn; rewrite cons_middle, app_assoc
      | cbn; rewrite length_app; cbn; f_equal; lia
      | by apply stands_for_share | done | ].
    rewrite IH1, IH2. split; [|done]. do 2 f_equal.
    by rewrite pass_share_cons, <- share_pos.
Qed.

Lemma wrr_run_pass_share r :
  cur r = None → Forall weight_ok (nodes r) →
  (BalanceN (total_share (nodes r)) r).1 = pass_share (nodes r) ∧
  cur (BalanceN (total_share (nodes r)) r).2 = None.
Proof.
  intros Hcur Hall.
  destruct (nodes r) as [|front rest] eqn:Hn; [done|].
  apply Forall_cons in Hall as [Hw Hrest].
  change (total_share (front :: rest))
    with (share front + total_share rest)%nat.
  rewrite pass_share_cons, (share_pos front).
  change (S (pred (share front)) + total_share rest)%nat
    with (S (pred (share front) + total_share rest)).
  change (BalanceN (S (pred (share front) + total_share rest)) r)
    with (let '(v, r1) := Balance r in
          let '(vs, r2) := BalanceN (pred (share front) + total_share rest) r1
          in (v :: vs, r2)).
  unfold Balance. rewrite Hn, Hcur.
  destruct (decide (Weight front ≤ 1)) as [Hone|Hmore].
  - assert (pred (share front) = 0%nat) as -> by (unfold share; lia).
    destruct rest as [|nxt rest'].
    + simpl. done.
    + apply Forall_cons in Hrest as [Hn1 Hrest'].
      change (total_share (nxt :: rest'))
        with (share nxt + total_share rest')%nat.
      rewrite (share_pos nxt).
      destruct (wrr_run_from_share rest' [front] nxt
                  {| nodes := front :: nxt :: rest'; cur := Some 1%nat;
                     reqCredit := Weight nxt |} (pred (share nxt)))
        as [H1 H2]; [done|done|by apply stands_for_share|done|].
      change (0 + (S (pred (share nxt)) + total_share rest'))%nat
        with (S (pred (share nxt)) + total_share rest')%nat.
      destruct (BalanceN (S (pred (share nxt)) + total_share rest') _)
        as [vs r2].
      cbn [fst snd] in *. subst vs. split; [|done].
      by rewrite pass_share_cons, <- share_pos.
  - unfold weight_ok in Hw.
    destruct (pred (share front)) as [|c] eqn:Hc; [unfold share in Hc; lia|].
    destruct (wrr_run_from_share rest [] front
                {| nodes := front :: rest; cur := Some 0%nat;
                   reqCredit := GoInt.wrap64 (Weight front - 1) |} c)
      as [H1 H2]; [done|done| |done|].
    { left. cbn [reqCredit].
      rewrite GoInt.wrap64_id by (unfold GoInt.is_int; lia).
      unfold share, GoInt.is_int in *. split; lia. }
    destruct (BalanceN (S c + total_share rest) _) as [vs r2].
    cbn [fst snd] in *. by subst vs.
Qed.

End wrr_share_facts.

(** X27.  A weight below one counts as one.  Take a WRR balancer at the
    start of a pass (the cursor is unset, as in a new balancer and after
    every full pass), with weights of any sign above the least [int].  The
    next calls of [Balance], as many as the shares of the pool add up to,
    return the nodes in list order, each one as many times in a row as its
    weight says, and once when its weight is zero or negative; the cursor
    is then unset again. *)
Theorem wrr_pass_any_weight (r : WRR.WRR) :
  WRR.cur r = None →
  Forall (λ n, - 2 ^ 63 < Weight n < 2 ^ 63) (WRR.nodes r) →
  (WRR.BalanceN (total_share (WRR.nodes r)) r).1 = pass_share (WRR.nodes r) ∧
  WRR.cur (WRR.BalanceN (total_share (WRR.nodes r)) r).2 = None.
Proof. apply wrr_run_pass_share. Qed.

Module WRRShareExample.
Definition A := mkNode 1 (mkNodeKey "a" 80) 0.
Definition B := mkNode 2 (mkNodeKey "b" 80) (-3).
Definition C := mkNode 3 (mkNodeKey "c" 80) 2.
Definition pool : WRR.WRR :=
  foldl WRR.step WRR.NewWRR [WRR.OpAdd A; WRR.OpAdd B; WRR.OpAdd C].
End WRRShareExample.

Lemma wrr_pass_any_weight_witness :
  (WRR.BalanceN (total_share (WRR.nodes WRRShareExample.pool))
     WRRShareExample.pool).1
  = pass_share (WRR.nodes WRRShareExample.pool) ∧
  WRR.cur (WRR.BalanceN (total_share (WRR.nodes WRRShareExample.pool))
             WRRShareExample.pool).2 = None.
Proof.
  apply (wrr_pass_any_weight WRRShareExample.pool).
  - reflexivity.
  - repeat constructor; cbn; lia.
Defined.

(* ================================================================== *)
(** * Least connections: the pool as a multiset *)
(* ================================================================== *)

Section lc_pool_facts.
Import LC.

Ltac bind_inv H x E :=
  match type of H with
  | mbind _ ?m = Ok _ =>
      destruct m as [x| |] eqn:E; cbn [mbind res_bind] in H;
      [|discriminate H..]
  end.

Lemma heap_inv_NoDup l : heap_inv l → NoDup (nodes l).
Proof.
  intros [Hwf _]. apply NoDup_alt. intros i j p Hi Hj. by eapply wf_unique.
Qed.

Lemma NoDup_incl_length_perm (a b : list nat) :
  NoDup a → (∀ x, x ∈ a → x ∈ b) → length a = length b → a ≡ₚ b.
Proof.
  intros Ha Hsub Hlen. apply submseteq_length_Permutation; [|lia].
  by apply NoDup_submseteq.
Qed.

(** The nodes of the structs stay, when no struct is freed. *)
Lemma keeps_nodes l l' :
  keeps l l' → (∀ q, is_Some (mem l !! q) → is_Some (mem l' !! q)) →
  ∀ p, node <$> mem l' !! p = node <$> mem l !! p.
Proof.
  intros [_ Hk] Hdom p. destruct (mem l' !! p) as [c'|] eqn:Hc'.
  - destruct (Hk _ _ Hc') as (c & -> & Hn). cbn. by rewrite Hn.
  - destruct (mem l !! p) as [c|] eqn:Hc; [|done].
    destruct (Hdom p) as [c' Hc'']; [by eauto|congruence].
Qed.

Lemma pool_perm l l' (h : list nat) :
  nodes l' ≡ₚ h →
  (∀ p, p ∈ h → node <$> mem l' !! p = node <$> mem l !! p) →
  pool l' ≡ₚ omap (λ p, node <$> mem l !! p) h.
Proof.
  intros Hperm Hsame. unfold pool. rewrite Hperm.
  erewrite list_omap_ext; [done|].
  apply Forall_Forall2_diag, Forall_forall. intros p Hp. by apply Hsame.
Qed.

Lemma shape_pool l l' : shape l l' → keeps l l' → pool l' ≡ₚ pool l.
Proof.
  intros (Hinv' & Hlen & Hel & Hdom) Hk.
  apply (pool_perm l l' (nodes l)).
  - apply NoDup_incl_length_perm; [by apply heap_inv_NoDup| |done].
    intros x. by apply Hel.
  - intros p _. apply keeps_nodes; [done|]. intros q. by apply Hdom.
Qed.

Lemma monitor_keeps fuel p l l' :
  monitorRequestFinish fuel p l = Ok l' → keeps l l'.
Proof.
  unfold monitorRequestFinish. intros HM.
  bind_inv HM c Ec. bind_inv HM l1 El1. bind_inv HM c1 Ec1.
  apply store_keeps in El1 as [_ Hk1]; [|done].
  eapply keeps_trans; [exact Hk1|by eapply heap_Fix_keeps].
Qed.

(** [AddNode]: one more slot, for a new struct that holds the node. *)
Lemma AddNode_slots fuel n l l' :
  heap_inv l → GoInt.is_int (Len l + 1) → ordered l (length (nodes l)) →
  (length (nodes l) < fuel)%nat →
  AddNode fuel n l = Ok l' →
  nodes l' ≡ₚ nodes l ++ [fresh (dom (mem l))] ∧
  node <$> mem l' !! fresh (dom (mem l)) = Some n ∧
  ∀ p, p ∈ nodes l → node <$> mem l' !! p = node <$> mem l !! p.
Proof.
  intros Hinv Hint Hord Hfuel HA.
  destruct (AddNode_grows fuel n l Hinv Hint Hfuel) as (l'' & HA' & Hinv' & _).
  assert (l'' = l') as -> by congruence.
  destruct (AddNode_ordered fuel n l l' Hinv Hint Hord HA) as [Hlen _].
  destruct (AddNode_load _ _ _ _ HA) as [Hnew Hold].
  unfold AddNode, heap_Push, Push in HA.
  bind_inv HA l2 El2. bind_inv El2 l1 El1. injection El2 as <-.
  apply up_keeps in HA as [Hkn Hkm].
  set (nwr := fresh (dom (mem l))) in *.
  unfold store, deref in El1. cbn [mem nodes] in El1.
  rewrite lookup_insert_eq in El1. cbn [mbind res_bind] in El1.
  injection El1 as <-. cbn [nodes mem] in Hkn, Hkm.
  assert (Hfresh : mem l !! nwr = None)
    by (apply not_elem_of_dom, is_fresh).
  split_and!.
  - apply NoDup_incl_length_perm; [by apply heap_inv_NoDup|done|].
    rewrite length_app. cbn. lia.
  - unfold load in Hnew. destruct (mem l' !! nwr) as [c'|] eqn:Hc'; [|done].
    destruct (Hkm _ _ Hc') as (c & Hc & Hn).
    rewrite lookup_insert_eq in Hc. injection Hc as <-. cbn. by rewrite <- Hn.
  - intros p Hp.
    assert (Hpn : p ≠ nwr).
    { intros ->. apply list_elem_of_lookup in Hp as [j Hj].
      destruct (proj2 (proj1 Hinv) _ _ Hj) as (c & Hc & _). congruence. }
    specialize (Hold p Hpn). unfold load in Hold.
    destruct (mem l' !! p) as [c'|] eqn:Hc'.
    + destruct (Hkm _ _ Hc') as (c & Hc & Hn).
      rewrite !lookup_insert_ne in Hc by done. rewrite Hc. cbn. by rewrite Hn.
    + by destruct (mem l !! p).
Qed.

Lemma find_entry_key m k h p :
  find_entry m k h = Ok (Some p) →
  ∃ c, m !! p = Some c ∧ nodeKey (node c) = k.
Proof.
  induction h as [|q h IH]; cbn [find_entry]; [done|].
  destruct (m !! q) as [c|] eqn:Hc; [|done].
  case_decide as Hk; [|done].
  intros [= <-]. eauto.
Qed.

End lc_pool_facts.

(** X28.  The pool of the least-connections balancer as a multiset.  In
    every state a program can bring the balancer into: [AddNode] adds the
    node, once, and nothing else; [DeleteNode] of a key that the entry [p]
    holds takes out the node of [p], once, and nothing else; [Balance] and
    the completion observers leave the pool as it is, whatever they move
    in the heap. *)
Theorem lc_pool_multiset (l : LC.LC) (fuel : nat) :
  LC.reachable l →
  (length (LC.nodes l) < fuel)%nat →
  (∀ n l', GoInt.is_int (LC.Len l + 1) → LC.AddNode fuel n l = Ok l' →
           pool l' ≡ₚ pool l ++ [n]) ∧
  (∀ k p l', LC.find_entry (LC.mem l) k (LC.nodes l) = Ok (Some p) →
             LC.DeleteNode fuel k l = Ok l' →
             ∃ c, LC.mem l !! p = Some c ∧ nodeKey (LC.node c) = k ∧
                  LC.node c :: pool l' ≡ₚ pool l) ∧
  (∀ o l', LC.Balance fuel l = Ok (o, l') → pool l' ≡ₚ pool l) ∧
  (∀ p l', LC.monitorRequestFinish fuel p l = Ok l' → pool l' ≡ₚ pool l).
Proof.
  intros Hr Hfuel. pose proof (reachable_inv l Hr) as Hinv.
  pose proof (reachable_ordered l Hr) as Hord.
  split_and!.
  - intros n l' Hint HA.
    destruct (AddNode_slots fuel n l l' Hinv Hint Hord Hfuel HA)
      as (Hperm & Hnew & Hold).
    unfold pool at 1. rewrite Hperm, omap_app.
    rewrite (list_omap_ext _ (λ p, LC.node <$> LC.mem l !! p)
               (LC.nodes l) (LC.nodes l))
      by (apply Forall_Forall2_diag, Forall_forall; exact Hold).
    csimpl. by rewrite Hnew.
  - intros k p l' Ef HD.
    destruct (DeleteNode_detaches l k p fuel Hinv Ef Hfuel)
      as (l'' & HD' & [Hnin _] & Hinv' & _ & Hdom).
    assert (l'' = l') as -> by congruence.
    pose proof (DeleteNode_length fuel k l p l' Hinv Hord Ef HD) as Hlen.
    pose proof (DeleteNode_keeps _ _ _ _ HD) as Hk.
    destruct (find_entry_Some _ _ _ _ Ef) as [i Hi].
    destruct (find_entry_key _ _ _ _ Ef) as (c & Hc & Hkey).
    exists c. split_and!; [done..|].
    assert (Hperm : p :: LC.nodes l' ≡ₚ LC.nodes l).
    { apply NoDup_incl_length_perm.
      - constructor; [done|by apply heap_inv_NoDup].
      - intros x [->|Hx]%elem_of_cons;
          [by eapply list_elem_of_lookup_2|by apply Hk].
      - cbn. lia. }
    unfold pool at 2. rewrite <- Hperm. csimpl. rewrite Hc. csimpl.
    apply Permutation_skip. unfold pool.
    erewrite list_omap_ext; [done|].
    apply Forall_Forall2_diag, Forall_forall. intros q _.
    by apply keeps_nodes.
  - intros o l' HB.
    destruct (Balance_shape fuel l Hinv Hfuel) as (o' & l'' & HB' & Hs).
    assert (l'' = l') as -> by congruence.
    apply shape_pool; [done|]. by eapply Balance_keeps.
  - intros p l' HM.
    destruct (monitor_load _ _ _ _ HM) as (c & Hc & _).
    destruct (monitor_returns fuel p l Hinv Hfuel) as (l'' & HM' & Hs);
      [by eauto|].
    assert (l'' = l') as -> by congruence.
    apply shape_pool; [done|]. by eapply monitor_keeps.
Qed.



Lemma lc_pool_multiset_witness :
  (∀ n l', GoInt.is_int (LC.Len LCExample.s3 + 1) →
           LC.AddNode 5 n LCExample.s3 = Ok l' →
           pool l' ≡ₚ pool LCExample.s3 ++ [n]) ∧
  (∀ k p l',
     LC.find_entry (LC.mem LCExample.s3) k (LC.nodes LCExample.s3)
     = Ok (Some p) →
     LC.DeleteNode 5 k LCExample.s3 = Ok l' →
     ∃ c, LC.mem LCExample.s3 !! p = Some c ∧ nodeKey (LC.node c) = k ∧
          LC.node c :: pool l' ≡ₚ pool LCExample.s3) ∧
  (∀ o l', LC.Balance 5 LCExample.s3 = Ok (o, l') →
           pool l' ≡ₚ pool LCExample.s3) ∧
  (∀ p l', LC.monitorRequestFinish 5 p LCExample.s3 = Ok l' →
           pool l' ≡ₚ pool LCExample.s3).
Proof.
  apply (lc_pool_multiset LCExample.s3 5 lc_reach_example).
  vm_compute. lia.
Defined.

(* ================================================================== *)
(** * The listeners: when a listener serves TLS *)
(* ================================================================== *)

Section server_facts.
Import Server.
Context {X509 : Type} (Load : string → string → X509 + string).

Lemma copy_certs (cs : list Certificate) (acc : list Certificate) :
  foldl (λ certs cert, certs ++ [{| CertFile := CertFile cert;
                                    KeyFile := KeyFile cert |}]) acc cs
  = acc ++ cs.
Proof.
  revert acc. induction cs as [|[cf kf] cs IH]; intros acc; cbn [foldl].
  - by rewrite app_nil_r.
  - rewrite IH. cbn. by rewrite <- app_assoc.
Qed.

Lemma loadCerts_ok cs : ∀ acc certs,
  loadCerts Load cs acc = inl certs →
  ∃ new, certs = acc ++ new ∧
         Forall2 (λ c x, Load (CertFile c) (KeyFile c) = inl x) cs new.
Proof.
  induction cs as [|c cs IH]; intros acc certs; cbn [loadCerts].
  - intros [= <-]. exists []. by rewrite app_nil_r.
  - destruct (Load (CertFile c) (KeyFile c)) as [x|err] eqn:Hc; [|done].
    intros Hrest. destruct (IH _ _ Hrest) as (new & -> & Hnew).
    exists (x :: new). rewrite <- app_assoc. split; [done|].
    by constructor.
Qed.

Lemma loadCerts_err cs : ∀ acc err,
  loadCerts Load cs acc = inr err →
  ∃ c, c ∈ cs ∧ Load (CertFile c) (KeyFile c) = inr err.
Proof.
  induction cs as [|c cs IH]; intros acc err; cbn [loadCerts]; [done|].
  destruct (Load (CertFile c) (KeyFile c)) as [x|err'] eqn:Hc.
  - intros Hrest. destruct (IH _ _ Hrest) as (c' & Hin & Hc').
    exists c'. split; [by right|done].
  - intros [= <-]. exists c. split; [by left|done].
Qed.

End server_facts.

(** X29.  When a listener serves TLS.  For a listener of the
    configuration, made into a server listener by [listenerControl] and
    started by [ListenAndServe]: when a certificate of the configuration
    does not load, [ListenAndServe] returns the error of the loading and
    starts no server; otherwise it starts a server with the certificates
    of the configuration, loaded in their order, and that server serves
    TLS exactly when the configuration has at least one certificate.  A
    TLS object without certificates is ignored, its version bounds
    included; the map of next protocols is emptied, which turns HTTP/2
    off, exactly when the [http2] flag of the configuration is not set. *)
Theorem listener_serves_tls {X509 : Type}
    (Load : string → string → X509 + string) (l : Server.cfgListener) :
  let certs := Server.elems (Server.cfgTLS l ≫= Server.Certs) in
  (∀ err,
     Server.ListenAndServe Load (Server.serverListener l) = inr err →
     ∃ c, c ∈ certs ∧
          Load (Server.CertFile c) (Server.KeyFile c) = inr err) ∧
  (∀ s,
     Server.ListenAndServe Load (Server.serverListener l) = inl s →
     Forall2 (λ c x, Load (Server.CertFile c) (Server.KeyFile c) = inl x)
       certs (Server.Certificates (Server.config s)) ∧
     (Server.mode s = Server.ServeTLS ↔ certs ≠ []) ∧
     (certs = [] →
      Server.MinVersion (Server.config s) = 0%N ∧
      Server.MaxVersion (Server.config s) = 0%N) ∧
     (∀ t, Server.cfgTLS l = Some t → certs ≠ [] →
           Server.MinVersion (Server.config s) = Server.MinTLSVersion t ∧
           Server.MaxVersion (Server.config s) = Server.MaxTLSVersion t) ∧
     Server.nextProtoEmptied s = negb (Server.cfgHTTP2 l)).
Proof.
  cbv zeta. unfold Server.ListenAndServe, Server.serverListener.
  cbn [Server.tls Server.HTTP2].
  destruct (Server.cfgTLS l) as [t|]; cbn [mbind option_bind].
  2:{ split; [done|]. intros s [= <-]. cbn. split_and!; done. }
  destruct (decide (0 < length (Server.elems (Server.Certs t)))%nat)
    as [Hlen|Hlen]; cbn [Server.Certs Server.MinTLSVersion
                          Server.MaxTLSVersion].
  2:{ assert (Hnil : Server.elems (Server.Certs t) = [])
        by (destruct (Server.elems (Server.Certs t)); [done|cbn in Hlen; lia]).
      rewrite Hnil. split; [done|]. intros s [= <-]. cbn.
      split_and!; done. }
  rewrite copy_certs. cbn [app].
  destruct (Server.loadCerts Load (Server.elems (Server.Certs t)) [])
    as [certs|err] eqn:HL.
  - split; [done|]. intros s [= <-]. cbn.
    destruct (loadCerts_ok Load _ _ _ HL) as (new & -> & Hnew). cbn [app].
    pose proof (Forall2_length _ _ _ Hnew) as Hl2.
    split_and!; try done.
    + rewrite decide_True by lia. split; [|done]. intros _ Hnil.
      rewrite Hnil in Hlen. cbn in Hlen. lia.
    + intros Hnil. rewrite Hnil in Hlen. cbn in Hlen. lia.
    + by intros t' [= <-] _.
  - split; [|done]. intros err' [= <-].
    by apply (loadCerts_err Load _ [] err).
Qed.

(* ================================================================== *)
(** * The evaluator leaves the request to the router *)
(* ================================================================== *)

Section request_kept_facts.
Import Evaluator.
Context `{GoLib}.

Lemma evaluateCondition_keeps r c s out r1 :
  Body r = BodyData s → Type_ c ≠ BodyForm →
  evaluateCondition r c = Ok (out, r1) → r1 = r.
Proof.
  intros Hb Ht. unfold evaluateCondition.
  destruct (evaluateCondType r c) as [[[ret err] r']| |] eqn:Hc; [|done..].
  cbn [mbind res_bind]. intros [= _ <-].
  unfold evaluateCondType in Hc.
  repeat case_decide; try done.
  - unfold evaluateCondPath in Hc. by simplify_eq.
  - unfold evaluateCondQuery in Hc.
    destruct (URLQuery r !! Key c) as [[|v vv]|];
      cbn [first_value mbind res_bind] in Hc; by simplify_eq.
  - unfold evaluateCondBodyString in Hc. rewrite Hb in Hc.
    injection Hc as _ <-. destruct r. cbn in Hb. by rewrite Hb.
  - unfold evaluateCondHeader in Hc.
    destruct (HeaderMap r !! Key c) as [[|v vv]|];
      cbn [first_value mbind res_bind] in Hc; by simplify_eq.
  - unfold evaluateCondIP in Hc. case_decide; [by simplify_eq|].
    destruct (ParseCIDR (Value c)); by simplify_eq.
  - by simplify_eq.
Qed.

Lemma evaluateConditions_keeps cs :
  ∀ r s out r1,
    Body r = BodyData s → Forall (λ c, Type_ c ≠ BodyForm) cs →
    evaluateConditions r cs = Ok (out, r1) → r1 = r.
Proof.
  induction cs as [|c cs IH]; intros r s out r1 Hb Hcs.
  - by intros [= _ <-].
  - apply Forall_cons in Hcs as [Hc Hcs]. rewrite evaluateConditions_cons.
    destruct (evaluateCondition r c) as [[[ret err] r']| |] eqn:He; [|done..].
    cbn [mbind res_bind].
    pose proof (evaluateCondition_keeps _ _ _ _ _ Hb Hc He) as ->.
    destruct err as [e|]; [by intros [= _ <-]|].
    destruct ret; cbn [negb]; [|by intros [= _ <-]].
    by apply (IH r s).
Qed.

Lemma evaluateRequest_keeps rules :
  ∀ r s out r1,
    Body r = BodyData s →
    Forall (λ rule, Forall (λ c, Type_ c ≠ BodyForm) (Conditions rule)) rules →
    evaluateRequest r rules = Ok (out, r1) → r1 = r.
Proof.
  induction rules as [|rule rules IH]; intros r s out r1 Hb Hrules.
  - by intros [= _ <-].
  - apply Forall_cons in Hrules as [Hrule Hrules].
    destruct (decide (ArrivalListener r = Some (Listener rule))) as [Hon|Hno].
    2:{ rewrite evaluateRequest_skip by done. by apply (IH r s). }
    rewrite evaluateRequest_on by done.
    destruct (evaluateConditions r (Conditions rule))
      as [[[b err] r']| |] eqn:Hc; cbn [mbind res_bind]; [|done..].
    pose proof (evaluateConditions_keeps _ _ _ _ _ Hb Hrule Hc) as ->.
    destruct err as [e|]; [by intros [= _ <-]|].
    destruct b; [by intros [= _ <-]|]. by apply (IH r s).
Qed.

End request_kept_facts.

(** X30.  The evaluator leaves the request to the router.  With rules
    that have no condition on the form of the body (the only conditions
    that parse the request), and a body that can be read, evaluating the
    rules leaves the request as it was: a condition on the body as a
    string reads the body to its end and puts the same bytes back.  The
    request that the handler passes on to the next handler is therefore
    the request that came in, body included. *)
Theorem evaluation_keeps_request `{Evaluator.GoLib}
    (rules : list Evaluator.Rule) (r : Evaluator.Request) (s : string) :
  Evaluator.Body r = Evaluator.BodyData s →
  Forall (λ rule, Forall (λ c, Evaluator.Type_ c ≠ Evaluator.BodyForm)
                    (Evaluator.Conditions rule)) rules →
  (∀ out r1, Evaluator.evaluateRequest r rules = Ok (out, r1) → r1 = r) ∧
  (∀ e r1, Evaluator.Handler rules r = Ok (Evaluator.ServeNext e r1) →
           r1 = r).
Proof.
  intros Hb Hrules. split.
  - intros out r1. by apply (evaluateRequest_keeps rules r s).
  - intros e r1. unfold Evaluator.Handler.
    destruct (Evaluator.evaluateRequest r rules) as [[[a err] r']| |] eqn:He;
      cbn [mbind res_bind]; [|done..].
    pose proof (evaluateRequest_keeps rules r s _ _ Hb Hrules He) as ->.
    destruct err; [done|]. repeat case_decide; try done.
    by intros [= _ <-].
Qed.

Module BodyExample.
Import Evaluator.
(** A rule that looks for the word [ping] at the head of the body, and a
    request with such a body. *)
Definition bodyPing : Condition := mkCondition false BodyString "" BeginWith "PING".
Definition rule : Rule := mkRule 4 1 ":81" [bodyPing] EvalExample.forward "".
Definition req : Request :=
  {| EscapedPath := "/"; URLQuery := ∅; Body := BodyData "ping 1";
     PostForm := None; HeaderMap := ∅; RemoteAddr := "10.0.0.1:4242";
     ArrivalListener := Some ":81" |}.
End BodyExample.

Lemma evaluation_keeps_request_witness :
  (∀ out r1,
     Evaluator.evaluateRequest (H := EvalExample.lib) BodyExample.req
       [BodyExample.rule] = Ok (out, r1) → r1 = BodyExample.req) ∧
  (∀ e r1,
     Evaluator.Handler (H := EvalExample.lib) [BodyExample.rule]
       BodyExample.req = Ok (Evaluator.ServeNext e r1) →
     r1 = BodyExample.req).
Proof.
  apply (evaluation_keeps_request (H := EvalExample.lib) [BodyExample.rule]
           BodyExample.req "ping 1").
  - reflexivity.
  - repeat constructor. cbn. discriminate.
Defined.

(** The example at work: the rule matches, and the request goes on with
    its body. *)
Example evaluation_keeps_request_example :
  Evaluator.Handler (H := EvalExample.lib) [BodyExample.rule] BodyExample.req
  = Ok (Evaluator.ServeNext (Evaluator.mkEvaluationResult "group")
          BodyExample.req).
Proof. vm_compute. reflexivity. Qed.
